(** * POKER-ON-MONAD: fairness contract and poker engine

    A shallow embedding of
    - the Solidity contracts [PokerEntropyDealer] and [PokerEntropyDealerV2]
      (deterministic Fisher-Yates shuffle, commit / reveal / verify), and
    - the TypeScript class [PokerEngine] (betting state machine, side pots,
      hand evaluation) and the deck conversions of [cardDealerApi.ts],
    followed by the properties proved about them.

    Conventions.  Solidity integers ([uint8], [uint64], [uint256]) and
    [bytes32] values are [Z] with the wrap-around or the overflow check written
    out.  JavaScript numbers are integers in [Z] (chips, bets and indices are
    integral in the engine); the one place where the engine can produce [NaN]
    (a hand value built from a missing kicker) uses the type [num].  The
    engine's numbers being doubles, its sums are the sums in [Z] as long as
    they stay within 2^53; the statement about the chips that wagers move is
    made for amounts in that range ([Spec.amounts_in_range]).  A
    failing Solidity call is [Err (Revert _)] or [Err (Panic _)]; a JavaScript
    exception is [Err TypeError] or [Err (Error _)]. *)

From Stdlib Require Import Ascii.
From stdpp Require Import base numbers list sorting strings pretty gmap.

Local Open Scope Z_scope.

(** ** Results and the error monad *)

Inductive result (E A : Type) : Type :=
| Ok (a : A)
| Err (e : E).
Arguments Ok {E A} a.
Arguments Err {E A} e.

Global Instance result_ret {E} : MRet (result E) := λ A a, Ok a.
Global Instance result_bind {E} : MBind (result E) := λ A B f m,
  match m with
  | Ok a => f a
  | Err e => Err e
  end.

Global Instance result_fmap {E} : FMap (result E) := λ A B f m,
  match m with
  | Ok a => Ok (f a)
  | Err e => Err e
  end.

Definition is_Ok {E A} (r : result E A) : Prop := ∃ a, r = Ok a.
Definition is_Err {E A} (r : result E A) : Prop := ∃ e, r = Err e.

(** Monadic left fold: the body of a [for] loop run over its index range. *)
Fixpoint foldlM {E A B} (f : A → B → result E A) (a : A) (l : list B) : result E A :=
  match l with
  | [] => Ok a
  | b :: l' => a' ← f a b; foldlM f a' l'
  end.

Fixpoint mapM_result {E A B} (f : A → result E B) (l : list A) : result E (list B) :=
  match l with
  | [] => Ok []
  | a :: l' => b ← f a; bs ← mapM_result f l'; Ok (b :: bs)
  end.

(** ** Keccak-256

    The EVM builtin [keccak256]: the Keccak-f[1600] sponge with rate 136 and
    the original Keccak padding (0x01 .. 0x80).  Bytes are integers in
    [0, 256); the digest is returned as the [uint256] it converts to. *)

Module Keccak.

Definition mask64 : Z := 2 ^ 64 - 1.

Definition rotl64 (x n : Z) : Z :=
  Z.land (Z.lor (Z.shiftl x n) (Z.shiftr x (64 - n))) mask64.

Definition not64 (x : Z) : Z := Z.lxor x mask64.

(** Lane (x, y) of the 5 x 5 state, stored at index x + 5 y. *)
Definition lane (st : list Z) (x y : Z) : Z :=
  nth (Z.to_nat (x mod 5 + 5 * (y mod 5))) st 0.

Definition coords : list (Z * Z) :=
  y ← seqZ 0 5; x ← seqZ 0 5; [(x, y)].

Definition rotation_offsets : list Z :=
  [ 0;  1; 62; 28; 27;
   36; 44;  6; 55; 20;
    3; 10; 43; 25; 39;
   41; 45; 15; 21;  8;
   18;  2; 61; 56; 14].

Definition round_constants : list Z :=
  [0x0000000000000001; 0x0000000000008082; 0x800000000000808A;
   0x8000000080008000; 0x000000000000808B; 0x0000000080000001;
   0x8000000080008081; 0x8000000000008009; 0x000000000000008A;
   0x0000000000000088; 0x0000000080008009; 0x000000008000000A;
   0x000000008000808B; 0x800000000000008B; 0x8000000000008089;
   0x8000000000008003; 0x8000000000008002; 0x8000000000000080;
   0x000000000000800A; 0x800000008000000A; 0x8000000080008081;
   0x8000000000008080; 0x0000000080000001; 0x8000000080008008].

(** Column parities [c], their combinations [d]; both are rows of five. *)
Definition theta (st : list Z) : list Z :=
  let c := (λ x, foldr Z.lxor 0 ((λ y, lane st x y) <$> seqZ 0 5)) <$> seqZ 0 5 in
  let d := (λ x, Z.lxor (lane c (x - 1) 0) (rotl64 (lane c (x + 1) 0) 1)) <$> seqZ 0 5 in
  (λ '(x, y), Z.lxor (lane st x y) (lane d x 0)) <$> coords.

(** The lane that lands at (X, Y) comes from x = X + 3 Y, y = X. *)
Definition rho_pi (st : list Z) : list Z :=
  (λ '(X, Y),
     let x := (X + 3 * Y) mod 5 in
     rotl64 (lane st x X) (lane rotation_offsets x X)) <$> coords.

Definition chi (st : list Z) : list Z :=
  (λ '(x, y),
     Z.lxor (lane st x y)
            (Z.land (not64 (lane st (x + 1) y)) (lane st (x + 2) y))) <$> coords.

Definition iota (rc : Z) (st : list Z) : list Z :=
  match st with
  | [] => []
  | a :: rest => Z.lxor a rc :: rest
  end.

Definition keccak_round (st : list Z) (rc : Z) : list Z :=
  iota rc (chi (rho_pi (theta st))).

Definition keccak_f (st : list Z) : list Z :=
  foldl keccak_round st round_constants.

Fixpoint le_to_Z (bs : list Z) : Z :=
  match bs with
  | [] => 0
  | b :: rest => b + 256 * le_to_Z rest
  end.

Fixpoint Z_to_le (n : nat) (z : Z) : list Z :=
  match n with
  | O => []
  | S n' => z mod 256 :: Z_to_le n' (z / 256)
  end.

Fixpoint be_to_Z (acc : Z) (bs : list Z) : Z :=
  match bs with
  | [] => acc
  | b :: rest => be_to_Z (256 * acc + b) rest
  end.

(** At most [count] consecutive pieces of [k] elements. *)
Fixpoint chunks {A} (count k : nat) (bs : list A) : list (list A) :=
  match count with
  | O => []
  | S count' =>
      match bs with
      | [] => []
      | _ => take k bs :: chunks count' k (drop k bs)
      end
  end.

Definition rate : nat := 136.

Definition pad (msg : list Z) : list Z :=
  let q := (rate - length msg `mod` rate)%nat in
  if decide (q = 1%nat) then msg ++ [0x81]
  else msg ++ [0x01] ++ replicate (q - 2) 0 ++ [0x80].

Definition absorb (st block : list Z) : list Z :=
  let lanes := le_to_Z <$> chunks 17 8 block in
  keccak_f (zip_with Z.lxor st (lanes ++ replicate 8 0)).

Definition digest (msg : list Z) : list Z :=
  let p := pad msg in
  let st := foldl absorb (replicate 25 0) (chunks (length p) rate p) in
  mjoin (Z_to_le 8 <$> take 4 st).

Definition keccak256 (msg : list Z) : Z := be_to_Z 0 (digest msg).

End Keccak.

(** ** Solidity values *)

Module Sol.

Inductive failure : Type :=
| Revert (reason : string)
| Panic (code : Z).

(** Big-endian encoding on [n] bytes, as [abi.encodePacked] lays out an
    [n]-byte integer or a [bytesN] value. *)
Fixpoint be_bytes (n : nat) (z : Z) : list Z :=
  match n with
  | O => []
  | S n' => (z / 256 ^ Z.of_nat n') mod 256 :: be_bytes n' z
  end.

(** [uint8(x)]: an explicit conversion truncates. *)
Definition uint8 (x : Z) : Z := x mod 256.

(** Checked arithmetic of Solidity 0.8 on [bits]-bit unsigned integers. *)
Definition checked_add (bits : Z) (a b : Z) : result failure Z :=
  if a + b <? 2 ^ bits then Ok (a + b) else Err (Panic 0x11).

Definition checked_mod (a b : Z) : result failure Z :=
  if b =? 0 then Err (Panic 0x12) else Ok (a mod b).

(** Reading and writing a memory array; an index out of bounds panics. *)
Definition index (arr : list Z) (i : Z) : result failure Z :=
  if i <? 0 then Err (Panic 0x32) else
  match arr !! Z.to_nat i with
  | Some v => Ok v
  | None => Err (Panic 0x32)
  end.

Definition assign (arr : list Z) (i v : Z) : result failure (list Z) :=
  if (0 <=? i) && (i <? Z.of_nat (length arr))
  then Ok (<[Z.to_nat i := v]> arr)
  else Err (Panic 0x32).

Definition require (c : bool) (reason : string) : result failure () :=
  if c then Ok () else Err (Revert reason).

End Sol.

(** ** The shuffle shared by both dealer contracts

    [PokerEntropyDealer._shuffle] and [PokerEntropyDealerV2._shuffle] have the
    same body. *)

Module Shuffle.
Import Sol.

(** [for (uint8 i = 0; i < 52; i++) deck[i] = i;] on a zeroed [uint8[52]]. *)
Definition init_deck : result failure (list Z) :=
  foldlM (λ deck i, assign deck i i) (replicate 52 0) (seqZ 0 52).

(** One iteration of [for (uint8 i = 51; i > 0; i--)]. *)
Definition swap_step (acc : Z * list Z) (i : Z) : result failure (Z * list Z) :=
  let '(s, deck) := acc in
  let s := Keccak.keccak256 (be_bytes 32 s ++ be_bytes 1 i) in
  i1 ← checked_add 8 i 1;
  r ← checked_mod s i1;
  let j := uint8 r in
  temp ← index deck i;
  dj ← index deck j;
  deck ← assign deck i dj;
  deck ← assign deck j temp;
  Ok (s, deck).

(** The values taken by [i]: 51, 50, ..., 1. *)
Definition down_range : list Z := reverse (seqZ 1 51).

(** [packed = new bytes(52); for (k ...) packed[k] = bytes1(deck[k]);] *)
Definition pack (deck : list Z) : result failure (list Z) :=
  foldlM (λ packed k, d ← index deck k; assign packed k (uint8 d))
         (replicate 52 0) (seqZ 0 52).

Definition _shuffle (seed : Z) : result failure (list Z) :=
  deck ← init_deck;
  '(_, deck) ← foldlM swap_step (seed, deck) down_range;
  pack deck.

End Shuffle.

(** ** PokerEntropyDealer (V1) *)

Module PokerEntropyDealer.
Import Sol.

Inductive Event : Type :=
| ShuffleRequested (sequenceNumber : Z)
| Shuffled (sequenceNumber : Z) (packedDeck : list Z).

Record Storage : Type := mkStorage {
  packedDeckBySeq : gmap Z (list Z);
  events : list Event
}.

Definition _shuffle (seed : Z) : result failure (list Z) := Shuffle._shuffle seed.

Definition entropyCallback (sequenceNumber randomNumber : Z) (st : Storage)
  : result failure Storage :=
  deck ← _shuffle randomNumber;
  Ok {| packedDeckBySeq := <[sequenceNumber := deck]> (packedDeckBySeq st);
        events := events st ++ [Shuffled sequenceNumber deck] |}.

End PokerEntropyDealer.

(** ** PokerEntropyDealerV2 *)

Module PokerEntropyDealerV2.
Import Sol.

Record GameSession : Type := mkGameSession {
  saltHash : Z;
  pythSeed : Z;
  revealedSalt : Z;
  host : Z;
  sequenceNumber : Z;
  vrfFulfilled : bool;
  gameEnded : bool;
  verified : bool
}.

Inductive Event : Type :=
| SaltCommitted (gameId saltHash host : Z)
| ShuffleRequested (gameId sequenceNumber : Z)
| VRFFulfilled (gameId pythSeed : Z)
| GameVerified (gameId salt finalSeed : Z) (valid : bool).

Record Storage : Type := mkStorage {
  games : gmap Z GameSession;
  seqToGameId : gmap Z Z;
  events : list Event
}.

(** A mapping slot never written reads as the zero value. *)
Definition zero_session : GameSession :=
  mkGameSession 0 0 0 0 0 false false false.

Definition game (st : Storage) (gameId : Z) : GameSession :=
  default zero_session (games st !! gameId).

Definition set_game (gameId : Z) (g : GameSession) (st : Storage) : Storage :=
  {| games := <[gameId := g]> (games st);
     seqToGameId := seqToGameId st;
     events := events st |}.

Definition emit (e : Event) (st : Storage) : Storage :=
  {| games := games st; seqToGameId := seqToGameId st; events := events st ++ [e] |}.

Definition set_revealedSalt (v : Z) (g : GameSession) : GameSession :=
  mkGameSession (saltHash g) (pythSeed g) v (host g) (sequenceNumber g)
                (vrfFulfilled g) (gameEnded g) (verified g).
Definition set_gameEnded (v : bool) (g : GameSession) : GameSession :=
  mkGameSession (saltHash g) (pythSeed g) (revealedSalt g) (host g) (sequenceNumber g)
                (vrfFulfilled g) v (verified g).
Definition set_verified (v : bool) (g : GameSession) : GameSession :=
  mkGameSession (saltHash g) (pythSeed g) (revealedSalt g) (host g) (sequenceNumber g)
                (vrfFulfilled g) (gameEnded g) v.
Definition set_sequenceNumber (v : Z) (g : GameSession) : GameSession :=
  mkGameSession (saltHash g) (pythSeed g) (revealedSalt g) (host g) v
                (vrfFulfilled g) (gameEnded g) (verified g).
Definition set_fulfilled (seed : Z) (g : GameSession) : GameSession :=
  mkGameSession (saltHash g) seed (revealedSalt g) (host g) (sequenceNumber g)
                true (gameEnded g) (verified g).

Definition _shuffle (seed : Z) : result failure (list Z) := Shuffle._shuffle seed.

(** A call returns its value together with the storage it leaves; a failing
    call returns no storage: the EVM discards every write of a reverted call. *)
Definition commitSalt (msg_sender gameId saltHash_ : Z) (st : Storage)
  : result failure Storage :=
  require (saltHash (game st gameId) =? 0) "already committed";;
  require (negb (saltHash_ =? 0)) "invalid saltHash";;
  let st := set_game gameId
              (mkGameSession saltHash_ 0 0 msg_sender 0 false false false) st in
  Ok (emit (SaltCommitted gameId saltHash_ msg_sender) st).

(** [fee] and [seq] are what the Entropy contract answers to [getFeeV2()] and
    [requestV2()]. *)
Definition requestShuffle (msg_value fee seq gameId : Z) (st : Storage)
  : result failure (Z * Storage) :=
  require (negb (saltHash (game st gameId) =? 0)) "salt not committed";;
  require (sequenceNumber (game st gameId) =? 0) "already requested";;
  require (fee <=? msg_value) "fee too low";;
  let st := set_game gameId (set_sequenceNumber seq (game st gameId)) st in
  let st := {| games := games st;
               seqToGameId := <[seq := gameId]> (seqToGameId st);
               events := events st |} in
  Ok (seq, emit (ShuffleRequested gameId seq) st).

Definition entropyCallback (sequenceNumber_ randomNumber : Z) (st : Storage)
  : result failure Storage :=
  let gameId := default 0 (seqToGameId st !! sequenceNumber_) in
  require (negb (gameId =? 0)) "unknown sequence";;
  let st := set_game gameId (set_fulfilled randomNumber (game st gameId)) st in
  Ok (emit (VRFFulfilled gameId randomNumber) st).

(** The verification loop, entered at index [i] with [n] iterations left:
    [Ok true] when it runs to the end, [Ok false] at the [break]. *)
Fixpoint verify_loop (deck dealtCards cardPositions : list Z) (n : nat) (i : Z)
  : result failure bool :=
  match n with
  | O => Ok true
  | S n' =>
      pos ← index cardPositions i;
      require (pos <? 52) "invalid position";;
      d ← index deck pos;
      c ← index dealtCards i;
      if negb (uint8 d =? c) then Ok false
      else verify_loop deck dealtCards cardPositions n' (i + 1)
  end.

Definition revealAndVerify (gameId salt : Z) (dealtCards cardPositions : list Z)
  (st : Storage) : result failure (bool * Storage) :=
  require (vrfFulfilled (game st gameId)) "VRF not fulfilled";;
  require (negb (gameEnded (game st gameId))) "already ended";;
  require (bool_decide (length dealtCards = length cardPositions)) "length mismatch";;
  require (Keccak.keccak256 (be_bytes 32 salt) =? saltHash (game st gameId))
          "salt mismatch";;
  let st := set_game gameId (set_revealedSalt salt (game st gameId)) st in
  let st := set_game gameId (set_gameEnded true (game st gameId)) st in
  let finalSeed :=
    Keccak.keccak256 (be_bytes 32 (pythSeed (game st gameId)) ++ be_bytes 32 salt) in
  deck ← _shuffle finalSeed;
  valid ← verify_loop deck dealtCards cardPositions (length dealtCards) 0;
  let st := set_game gameId (set_verified valid (game st gameId)) st in
  Ok (valid, emit (GameVerified gameId salt finalSeed valid) st).

(** The storage after a call: a failed call leaves the storage it found. *)
Definition storage_after {A} (st : Storage) (r : result failure (A * Storage)) : Storage :=
  match r with
  | Ok (_, st') => st'
  | Err _ => st
  end.

Definition storage_after_void (st : Storage) (r : result failure Storage) : Storage :=
  match r with
  | Ok st' => st'
  | Err _ => st
  end.

(** The view [getGameState]. *)
Definition getGameState (gameId : Z) (st : Storage) : Z * Z * bool * bool * bool :=
  let g := game st gameId in
  (saltHash g, pythSeed g, vrfFulfilled g, gameEnded g, verified g).

End PokerEntropyDealerV2.

(** ** PokerEngine: data model (types.ts) *)

Module Engine.

Inductive exn : Type :=
| TypeError
| Error (msg : string).

(** A JavaScript number where [NaN] can arise; [NegInfinity] is what
    [Math.max()] returns on no argument. *)
Inductive num : Type :=
| Num (z : Z)
| NaN
| NegInfinity.

Definition num_add (a b : num) : num :=
  match a, b with
  | Num x, Num y => Num (x + y)
  | NaN, _ | _, NaN => NaN
  | NegInfinity, _ | _, NegInfinity => NegInfinity
  end.

Definition num_mul_pos (a : num) (k : Z) : num :=
  match a with
  | Num x => Num (x * k)
  | other => other
  end.

(** [a === b] on numbers: [NaN] is equal to nothing. *)
Definition num_eqb (a b : num) : bool :=
  match a, b with
  | Num x, Num y => x =? y
  | NegInfinity, NegInfinity => true
  | _, _ => false
  end.

Definition num_max2 (a b : num) : num :=
  match a, b with
  | NaN, _ | _, NaN => NaN
  | NegInfinity, y => y
  | x, NegInfinity => x
  | Num x, Num y => Num (Z.max x y)
  end.

(** [Math.max(...l)] *)
Definition Math_max (l : list num) : num := foldl num_max2 NegInfinity l.

(** A value read from an array, used in arithmetic: [undefined] gives [NaN]. *)
Definition to_num (o : option Z) : num :=
  match o with
  | Some z => Num z
  | None => NaN
  end.

Inductive Suit : Type := Hearts | Diamonds | Clubs | Spades.

Global Instance Suit_eq_dec : EqDecision Suit.
Proof. solve_decision. Defined.

Module Rank.
Definition Two : Z := 2.
Definition Three : Z := 3.
Definition Four : Z := 4.
Definition Five : Z := 5.
Definition Six : Z := 6.
Definition Seven : Z := 7.
Definition Eight : Z := 8.
Definition Nine : Z := 9.
Definition Ten : Z := 10.
Definition Jack : Z := 11.
Definition Queen : Z := 12.
Definition King : Z := 13.
Definition Ace : Z := 14.
End Rank.

Inductive HandRank : Type :=
| HighCard | OnePair | TwoPair | ThreeOfAKind | Straight
| Flush | FullHouse | FourOfAKind | StraightFlush | RoyalFlush.

Global Instance HandRank_eq_dec : EqDecision HandRank.
Proof. solve_decision. Defined.

(** The numeric value of the enum member ([HighCard = 1], then counting up). *)
Definition HandRank_value (r : HandRank) : Z :=
  match r with
  | HighCard => 1 | OnePair => 2 | TwoPair => 3 | ThreeOfAKind => 4
  | Straight => 5 | Flush => 6 | FullHouse => 7 | FourOfAKind => 8
  | StraightFlush => 9 | RoyalFlush => 10
  end.

Inductive GameStage : Type := PreFlop | Flop | Turn | River | Showdown.

Global Instance GameStage_eq_dec : EqDecision GameStage.
Proof. solve_decision. Defined.

Module Card.
Record t : Type := mk { rank : Z; suit : Suit }.
End Card.

Module HandEvaluation.
Record t : Type := mk {
  rank : HandRank;
  value : num;
  description : string;
  cards : list Card.t
}.
End HandEvaluation.

Module Player.
Record t : Type := mk {
  id : Z;
  name : string;
  chips : Z;
  holeCards : list Card.t;
  isActive : bool;
  isFolded : bool;
  isAllIn : bool;
  currentBet : Z;
  totalBetInRound : Z;
  isAI : bool
}.

Definition set_chips (v : Z) (p : t) : t :=
  mk (id p) (name p) v (holeCards p) (isActive p) (isFolded p) (isAllIn p)
     (currentBet p) (totalBetInRound p) (isAI p).
Definition set_holeCards (v : list Card.t) (p : t) : t :=
  mk (id p) (name p) (chips p) v (isActive p) (isFolded p) (isAllIn p)
     (currentBet p) (totalBetInRound p) (isAI p).
Definition set_isFolded (v : bool) (p : t) : t :=
  mk (id p) (name p) (chips p) (holeCards p) (isActive p) v (isAllIn p)
     (currentBet p) (totalBetInRound p) (isAI p).
Definition set_isAllIn (v : bool) (p : t) : t :=
  mk (id p) (name p) (chips p) (holeCards p) (isActive p) (isFolded p) v
     (currentBet p) (totalBetInRound p) (isAI p).
Definition set_currentBet (v : Z) (p : t) : t :=
  mk (id p) (name p) (chips p) (holeCards p) (isActive p) (isFolded p) (isAllIn p)
     v (totalBetInRound p) (isAI p).
Definition set_totalBetInRound (v : Z) (p : t) : t :=
  mk (id p) (name p) (chips p) (holeCards p) (isActive p) (isFolded p) (isAllIn p)
     (currentBet p) v (isAI p).

(** The four statements shared by [bet], [call] and [postBlind]:
    [chips -= w; currentBet += w; totalBetInRound += w;
     if (chips === 0) isAllIn = true]. *)
Definition put_in (w : Z) (p : t) : t :=
  let p := set_chips (chips p - w) p in
  let p := set_currentBet (currentBet p + w) p in
  let p := set_totalBetInRound (totalBetInRound p + w) p in
  if chips p =? 0 then set_isAllIn true p else p.
End Player.

Record SidePot : Type := mkSidePot {
  amount : Z;
  eligiblePlayers : list Z
}.

Record GameState : Type := mkGameState {
  players : list Player.t;
  deck : list Card.t;
  communityCards : list Card.t;
  pot : Z;
  currentBet : Z;
  stage : GameStage;
  dealerPosition : Z;
  smallBlindPosition : Z;
  bigBlindPosition : Z;
  currentPlayerIndex : Z;
  lastToActIndex : Z;
  lastRaiseAmount : Z;
  smallBlind : Z;
  bigBlind : Z;
  sidePots : list SidePot;
  bettingActions : Z;
  logs : list string
}.

Definition set_players (v : list Player.t) (g : GameState) : GameState :=
  mkGameState v (deck g) (communityCards g) (pot g) (currentBet g) (stage g)
    (dealerPosition g) (smallBlindPosition g) (bigBlindPosition g)
    (currentPlayerIndex g) (lastToActIndex g) (lastRaiseAmount g) (smallBlind g)
    (bigBlind g) (sidePots g) (bettingActions g) (logs g).
Definition set_deck (v : list Card.t) (g : GameState) : GameState :=
  mkGameState (players g) v (communityCards g) (pot g) (currentBet g) (stage g)
    (dealerPosition g) (smallBlindPosition g) (bigBlindPosition g)
    (currentPlayerIndex g) (lastToActIndex g) (lastRaiseAmount g) (smallBlind g)
    (bigBlind g) (sidePots g) (bettingActions g) (logs g).
Definition set_communityCards (v : list Card.t) (g : GameState) : GameState :=
  mkGameState (players g) (deck g) v (pot g) (currentBet g) (stage g)
    (dealerPosition g) (smallBlindPosition g) (bigBlindPosition g)
    (currentPlayerIndex g) (lastToActIndex g) (lastRaiseAmount g) (smallBlind g)
    (bigBlind g) (sidePots g) (bettingActions g) (logs g).
Definition set_pot (v : Z) (g : GameState) : GameState :=
  mkGameState (players g) (deck g) (communityCards g) v (currentBet g) (stage g)
    (dealerPosition g) (smallBlindPosition g) (bigBlindPosition g)
    (currentPlayerIndex g) (lastToActIndex g) (lastRaiseAmount g) (smallBlind g)
    (bigBlind g) (sidePots g) (bettingActions g) (logs g).
Definition set_currentBet (v : Z) (g : GameState) : GameState :=
  mkGameState (players g) (deck g) (communityCards g) (pot g) v (stage g)
    (dealerPosition g) (smallBlindPosition g) (bigBlindPosition g)
    (currentPlayerIndex g) (lastToActIndex g) (lastRaiseAmount g) (smallBlind g)
    (bigBlind g) (sidePots g) (bettingActions g) (logs g).
Definition set_stage (v : GameStage) (g : GameState) : GameState :=
  mkGameState (players g) (deck g) (communityCards g) (pot g) (currentBet g) v
    (dealerPosition g) (smallBlindPosition g) (bigBlindPosition g)
    (currentPlayerIndex g) (lastToActIndex g) (lastRaiseAmount g) (smallBlind g)
    (bigBlind g) (sidePots g) (bettingActions g) (logs g).
Definition set_dealerPosition (v : Z) (g : GameState) : GameState :=
  mkGameState (players g) (deck g) (communityCards g) (pot g) (currentBet g) (stage g)
    v (smallBlindPosition g) (bigBlindPosition g)
    (currentPlayerIndex g) (lastToActIndex g) (lastRaiseAmount g) (smallBlind g)
    (bigBlind g) (sidePots g) (bettingActions g) (logs g).
Definition set_smallBlindPosition (v : Z) (g : GameState) : GameState :=
  mkGameState (players g) (deck g) (communityCards g) (pot g) (currentBet g) (stage g)
    (dealerPosition g) v (bigBlindPosition g)
    (currentPlayerIndex g) (lastToActIndex g) (lastRaiseAmount g) (smallBlind g)
    (bigBlind g) (sidePots g) (bettingActions g) (logs g).
Definition set_bigBlindPosition (v : Z) (g : GameState) : GameState :=
  mkGameState (players g) (deck g) (communityCards g) (pot g) (currentBet g) (stage g)
    (dealerPosition g) (smallBlindPosition g) v
    (currentPlayerIndex g) (lastToActIndex g) (lastRaiseAmount g) (smallBlind g)
    (bigBlind g) (sidePots g) (bettingActions g) (logs g).
Definition set_currentPlayerIndex (v : Z) (g : GameState) : GameState :=
  mkGameState (players g) (deck g) (communityCards g) (pot g) (currentBet g) (stage g)
    (dealerPosition g) (smallBlindPosition g) (bigBlindPosition g)
    v (lastToActIndex g) (lastRaiseAmount g) (smallBlind g)
    (bigBlind g) (sidePots g) (bettingActions g) (logs g).
Definition set_lastToActIndex (v : Z) (g : GameState) : GameState :=
  mkGameState (players g) (deck g) (communityCards g) (pot g) (currentBet g) (stage g)
    (dealerPosition g) (smallBlindPosition g) (bigBlindPosition g)
    (currentPlayerIndex g) v (lastRaiseAmount g) (smallBlind g)
    (bigBlind g) (sidePots g) (bettingActions g) (logs g).
Definition set_lastRaiseAmount (v : Z) (g : GameState) : GameState :=
  mkGameState (players g) (deck g) (communityCards g) (pot g) (currentBet g) (stage g)
    (dealerPosition g) (smallBlindPosition g) (bigBlindPosition g)
    (currentPlayerIndex g) (lastToActIndex g) v (smallBlind g)
    (bigBlind g) (sidePots g) (bettingActions g) (logs g).
Definition set_sidePots (v : list SidePot) (g : GameState) : GameState :=
  mkGameState (players g) (deck g) (communityCards g) (pot g) (currentBet g) (stage g)
    (dealerPosition g) (smallBlindPosition g) (bigBlindPosition g)
    (currentPlayerIndex g) (lastToActIndex g) (lastRaiseAmount g) (smallBlind g)
    (bigBlind g) v (bettingActions g) (logs g).
Definition set_bettingActions (v : Z) (g : GameState) : GameState :=
  mkGameState (players g) (deck g) (communityCards g) (pot g) (currentBet g) (stage g)
    (dealerPosition g) (smallBlindPosition g) (bigBlindPosition g)
    (currentPlayerIndex g) (lastToActIndex g) (lastRaiseAmount g) (smallBlind g)
    (bigBlind g) (sidePots g) v (logs g).
Definition set_logs (v : list string) (g : GameState) : GameState :=
  mkGameState (players g) (deck g) (communityCards g) (pot g) (currentBet g) (stage g)
    (dealerPosition g) (smallBlindPosition g) (bigBlindPosition g)
    (currentPlayerIndex g) (lastToActIndex g) (lastRaiseAmount g) (smallBlind g)
    (bigBlind g) (sidePots g) (bettingActions g) v.

(** ** JavaScript arrays *)

(** [arr[i]]: [None] is [undefined]. *)
Definition at_index {A} (arr : list A) (i : Z) : option A :=
  if i <? 0 then None else arr !! Z.to_nat i.

(** Reading a property of [arr[i]] throws when the element is [undefined]. *)
Definition deref {A} (o : option A) : result exn A :=
  match o with
  | Some a => Ok a
  | None => Err TypeError
  end.

(** [arr.sort(cmp)]: a stable sort; [cmp a b <= 0] keeps [a] before [b]. *)
Fixpoint sort_insert {A} (cmp : A → A → Z) (x : A) (l : list A) : list A :=
  match l with
  | [] => [x]
  | y :: l' => if cmp x y <=? 0 then x :: y :: l' else y :: sort_insert cmp x l'
  end.

Definition sort_by {A} (cmp : A → A → Z) (l : list A) : list A :=
  foldr (sort_insert cmp) [] l.

(** [map.set(k, f(map.get(k)))] on a [Map], kept in insertion order. *)
Fixpoint map_upsert {K V} `{EqDecision K} (k : K) (f : option V → V) (m : list (K * V))
  : list (K * V) :=
  match m with
  | [] => [(k, f None)]
  | (k', v) :: m' =>
      if decide (k = k') then (k', f (Some v)) :: m'
      else (k', v) :: map_upsert k f m'
  end.

(** [new Set(l)]: the distinct elements in order of first insertion. *)
Definition set_of (l : list Z) : list Z :=
  foldl (λ seen x, if bool_decide (x ∈ seen) then seen else seen ++ [x]) [] l.

(** The state and the player that mutating methods work on. *)
Definition player_at (gs : GameState) (i : Z) : result exn Player.t :=
  deref (at_index (players gs) i).

Definition update_player (i : Z) (f : Player.t → Player.t) (gs : GameState) : GameState :=
  set_players (alter f (Z.to_nat i) (players gs)) gs.

Definition addLog (entry : string) (gs : GameState) : GameState :=
  set_logs (logs gs ++ [entry]) gs.

(** ** PokerEngine: betting flow *)

(** [advanceFrom(startIdx)], entered at [offset] with [count] iterations left. *)
Fixpoint advanceFrom_loop (startIdx : Z) (count : nat) (offset : Z) (gs : GameState)
  : result exn GameState :=
  match count with
  | O => Ok gs
  | S count' =>
      let n := Z.of_nat (length (players gs)) in
      let idx := Z.rem (startIdx + offset) n in
      cand ← player_at gs idx;
      if negb (Player.isFolded cand) && (0 <? Player.chips cand)
      then Ok (set_currentPlayerIndex idx gs)
      else advanceFrom_loop startIdx count' (offset + 1) gs
  end.

Definition advanceFrom (startIdx : Z) (gs : GameState) : result exn GameState :=
  advanceFrom_loop startIdx (length (players gs)) 1 gs.

Definition can_act (p : Player.t) : bool :=
  negb (Player.isFolded p) && negb (Player.isAllIn p) && (0 <? Player.chips p).

(** [originIdx] is the optional parameter: [None] is [undefined]. *)
Definition isBettingRoundComplete (originIdx : option Z) (gs : GameState) : bool :=
  let contenders := filter (λ p, can_act p = true) (players gs) in
  if bool_decide (length contenders = 0%nat) then true else
  let allMatched := forallb (λ p, Player.currentBet p =? currentBet gs) contenders in
  if negb allMatched then false else
  let returned := bool_decide (originIdx = Some (lastToActIndex gs)) in
  if bool_decide (stage gs = PreFlop) then returned else
  if currentBet gs =? 0 then returned else returned.

Definition burn (gs : GameState) : GameState := set_deck (drop 1 (deck gs)) gs.

(** [drawMany(n)] is [deck.splice(0, n)]: the cards removed and the state left. *)
Definition drawMany (n : nat) (gs : GameState) : list Card.t * GameState :=
  (take n (deck gs), set_deck (drop n (deck gs)) gs).

(** The loop of [resetRoundBets] that looks for the last player to act. *)
Fixpoint lastToAct_loop (count : nat) (offset : Z) (gs : GameState)
  : result exn GameState :=
  match count with
  | O => Ok gs
  | S count' =>
      let n := Z.of_nat (length (players gs)) in
      let idx := Z.rem (dealerPosition gs - offset + n) n in
      p ← player_at gs idx;
      if negb (Player.isFolded p) then Ok (set_lastToActIndex idx gs)
      else lastToAct_loop count' (offset + 1) gs
  end.

Definition resetRoundBets (gs : GameState) : result exn GameState :=
  let gs := set_players (Player.set_currentBet 0 <$> players gs) gs in
  let gs := set_currentBet 0 gs in
  gs ← lastToAct_loop (length (players gs)) 0 gs;
  Ok (set_lastRaiseAmount (bigBlind gs) gs).

Definition deal_community (n : nat) (gs : GameState) : GameState :=
  let gs := burn gs in
  let '(cards, gs) := drawMany n gs in
  set_communityCards (communityCards gs ++ cards) gs.

Definition nextStage (gs : GameState) : result exn GameState :=
  match stage gs with
  | PreFlop =>
      let gs := set_stage Flop gs in
      let gs := addLog "--- Flop ---" gs in
      resetRoundBets (deal_community 3 gs)
  | Flop =>
      let gs := set_stage Turn gs in
      let gs := addLog "--- Turn ---" gs in
      resetRoundBets (deal_community 1 gs)
  | Turn =>
      let gs := set_stage River gs in
      let gs := addLog "--- River ---" gs in
      resetRoundBets (deal_community 1 gs)
  | River => Ok (set_stage Showdown gs)
  | Showdown => Ok gs
  end.

(** Number of [nextStage] calls that lead from a stage to [Showdown]. *)
Definition stages_left (s : GameStage) : nat :=
  match s with
  | PreFlop => 4 | Flop => 3 | Turn => 2 | River => 1 | Showdown => 0
  end.

(** [while (stage !== Showdown) nextStage();] with [count] iterations allowed. *)
Fixpoint runout_loop (count : nat) (gs : GameState) : result exn GameState :=
  match count with
  | O => Ok gs
  | S count' =>
      if bool_decide (stage gs = Showdown) then Ok gs
      else gs ← nextStage gs; runout_loop count' gs
  end.

Definition runout (gs : GameState) : result exn GameState :=
  runout_loop (stages_left (stage gs)) gs.

Definition postActionHandler (originIdx : Z) (gs : GameState) : result exn GameState :=
  let gs := set_bettingActions (bettingActions gs + 1) gs in
  let remaining := filter (λ p, Player.isFolded p = false) (players gs) in
  if bool_decide (length remaining = 1%nat) then Ok (set_stage Showdown gs) else
  gs ← advanceFrom originIdx gs;
  if isBettingRoundComplete (Some originIdx) gs then
    gs ← nextStage gs;
    if bool_decide (stage gs ≠ Showdown) then
      let canAct := existsb can_act (players gs) in
      if negb canAct then runout gs
      else advanceFrom (dealerPosition gs) gs
    else Ok gs
  else Ok gs.

(** ** PokerEngine: player actions *)

Definition check (playerId : Z) (gs : GameState) : result exn GameState :=
  player ← player_at gs playerId;
  if Player.isFolded player || Player.isAllIn player
     || bool_decide (stage gs = Showdown) || (Player.chips player <=? 0)
  then Ok gs else
  if negb (Player.currentBet player =? currentBet gs) then Ok gs else
  let gs := addLog (Player.name player +:+ " checks") gs in
  postActionHandler playerId gs.

Definition call (playerId : Z) (gs : GameState) : result exn GameState :=
  player ← player_at gs playerId;
  if Player.isFolded player || Player.isAllIn player
     || bool_decide (stage gs = Showdown) || (Player.chips player <=? 0)
  then Ok gs else
  let toCall := currentBet gs - Player.currentBet player in
  if toCall <=? 0 then check playerId gs else
  let wager := Z.min toCall (Player.chips player) in
  let gs := update_player playerId (Player.put_in wager) gs in
  let gs := set_pot (pot gs + wager) gs in
  let gs := addLog (Player.name player +:+ " calls " +:+ pretty wager) gs in
  postActionHandler playerId gs.

Definition bet (playerId amount : Z) (skipPost : bool) (gs : GameState)
  : result exn GameState :=
  player ← player_at gs playerId;
  if Player.isFolded player || Player.isAllIn player
     || bool_decide (stage gs = Showdown) || (Player.chips player <=? 0)
     || (amount <=? 0)
  then Ok gs else
  let prevBet := currentBet gs in
  let minRaise := if prevBet =? 0 then bigBlind gs else lastRaiseAmount gs in
  if (amount <? minRaise) && (amount <? Player.chips player) then call playerId gs else
  let wager := Z.min amount (Player.chips player) in
  let player := Player.put_in wager player in
  let gs := update_player playerId (λ _, player) gs in
  let gs := set_pot (pot gs + wager) gs in
  let gs :=
    if prevBet <? Player.currentBet player then
      let raiseDelta := Player.currentBet player - prevBet in
      let gs := set_lastRaiseAmount raiseDelta gs in
      let gs := set_currentBet (Player.currentBet player) gs in
      set_lastToActIndex playerId gs
    else gs in
  if negb skipPost then
    let actionMsg :=
      if prevBet <? Player.currentBet player then
        if prevBet =? 0 then "bets " +:+ pretty (Player.currentBet player)
        else "raises to " +:+ pretty (Player.currentBet player)
      else "calls " +:+ pretty wager in
    let gs := addLog (Player.name player +:+ " " +:+ actionMsg) gs in
    postActionHandler playerId gs
  else Ok gs.

Definition fold (playerId : Z) (gs : GameState) : result exn GameState :=
  player ← player_at gs playerId;
  if Player.isFolded player || Player.isAllIn player
     || bool_decide (stage gs = Showdown)
  then Ok gs else
  let gs := update_player playerId (Player.set_isFolded true) gs in
  let gs := addLog (Player.name player +:+ " folds") gs in
  postActionHandler playerId gs.

Definition allIn (playerId : Z) (gs : GameState) : result exn GameState :=
  player ← player_at gs playerId;
  if Player.isFolded player || Player.isAllIn player
     || bool_decide (stage gs = Showdown) || (Player.chips player <=? 0)
  then Ok gs else
  let gs := addLog (Player.name player +:+ " goes all-in ("
                    +:+ pretty (Player.chips player) +:+ ")") gs in
  gs ← bet playerId (Player.chips player) false gs;
  Ok (update_player playerId (Player.set_isAllIn true) gs).

(** ** PokerEngine: hand evaluation *)

(** [sortedCards.find(c => c.rank === r)] *)
Definition find_rank (sortedCards : list Card.t) (r : Z) : option Card.t :=
  List.find (λ c, Card.rank c =? r) sortedCards.

(** The loop over windows of five consecutive entries of [uniqueRanks],
    entered at [i] with [count] iterations left. *)
Fixpoint straight_loop (sortedCards : list Card.t) (uniqueRanks : list Z)
  (count i : nat) : option (list Card.t) :=
  match count with
  | O => None
  | S count' =>
      let consecutive :=
        forallb (λ j, match uniqueRanks !! (i + j)%nat, uniqueRanks !! (i + j + 1)%nat with
                      | Some a, Some b => a - b =? 1
                      | _, _ => false
                      end) (seq 0 4) in
      if consecutive
      then Some (omap (λ j, r ← uniqueRanks !! (i + j)%nat; find_rank sortedCards r)
                      (seq 0 5))
      else straight_loop sortedCards uniqueRanks count' (S i)
  end.

Definition wheel : list Z := [Rank.Ace; Rank.Five; Rank.Four; Rank.Three; Rank.Two].

(** Returns [(isStraight, cards)]. *)
Definition checkStraight (sortedCards : list Card.t) : bool * list Card.t :=
  let rankSet := set_of (Card.rank <$> sortedCards) in
  let uniqueRanks := sort_by (λ a b, b - a) rankSet in
  match straight_loop sortedCards uniqueRanks (length uniqueRanks - 4) 0 with
  | Some straightCards => (true, straightCards)
  | None =>
      if forallb (λ r, bool_decide (r ∈ rankSet)) wheel
      then (true, omap (find_rank sortedCards) wheel)
      else (false, [])
  end.

(** [cards.reduce((sum, card, idx) => sum + card.rank * Math.pow(100, 4 - idx), 0)]
    on at most five cards. *)
Definition weighted_ranks (cards : list Card.t) : Z :=
  foldl Z.add 0 (imap (λ idx card, Card.rank card * 100 ^ (4 - Z.of_nat idx)) cards).

Definition evaluateHand (cards : list Card.t) : result exn HandEvaluation.t :=
  if bool_decide (length cards < 5)%nat
  then Err (Error "Need at least 5 cards to evaluate hand") else
  let sortedCards := sort_by (λ a b, Card.rank b - Card.rank a) cards in
  let ranks := Card.rank <$> sortedCards in
  let rankCounts : list (Z * Z) :=
    foldl (λ m rank, map_upsert rank (λ o, default 0 o + 1) m) [] ranks in
  let counts := sort_by (λ a b, b - a) (snd <$> rankCounts) in
  let countRanks :=
    fst <$> sort_by (λ a b : Z * Z, if bool_decide (b.2 - a.2 ≠ 0) then b.2 - a.2
                                     else b.1 - a.1) rankCounts in
  let suitCounts : list (Suit * list Card.t) :=
    foldl (λ m card, map_upsert (Card.suit card) (λ o, default [] o ++ [card]) m)
          [] sortedCards in
  let flushSuit := List.find (λ e : Suit * list Card.t, bool_decide (5 ≤ length e.2)%nat)
                             suitCounts in
  let isFlush := bool_decide (is_Some flushSuit) in
  let flushCards := match flushSuit with Some e => take 5 e.2 | None => [] end in
  let '(isStraight, straightCards) := checkStraight sortedCards in
  if isFlush && isStraight then
    top ← deref (head straightCards);
    if Card.rank top =? Rank.Ace
    then Ok (HandEvaluation.mk RoyalFlush (Num 10000000) "Royal Flush" straightCards)
    else Ok (HandEvaluation.mk StraightFlush (Num (9000000 + Card.rank top))
                               "Straight Flush" straightCards)
  else if bool_decide (counts !! 0%nat = Some 4) then
    let fourKind := countRanks !! 0%nat in
    let kicker := countRanks !! 1%nat in
    Ok (HandEvaluation.mk FourOfAKind
          (num_add (num_add (Num 8000000) (num_mul_pos (to_num fourKind) 100))
                   (to_num kicker))
          "Four of a Kind"
          (take 5 (filter (λ c, Some (Card.rank c) = fourKind ∨ Some (Card.rank c) = kicker)
                          sortedCards)))
  else if bool_decide (counts !! 0%nat = Some 3 ∧ counts !! 1%nat = Some 2) then
    let threeKind := countRanks !! 0%nat in
    let pair := countRanks !! 1%nat in
    Ok (HandEvaluation.mk FullHouse
          (num_add (num_add (Num 7000000) (num_mul_pos (to_num threeKind) 100))
                   (to_num pair))
          "Full House"
          (filter (λ c, Some (Card.rank c) = threeKind ∨ Some (Card.rank c) = pair)
                  sortedCards))
  else if isFlush then
    Ok (HandEvaluation.mk Flush (Num (6000000 + weighted_ranks flushCards))
                          "Flush" flushCards)
  else if isStraight then
    top ← deref (head straightCards);
    Ok (HandEvaluation.mk Straight (Num (5000000 + Card.rank top))
                          "Straight" straightCards)
  else if bool_decide (counts !! 0%nat = Some 3) then
    let threeKind := countRanks !! 0%nat in
    let kickers := take 2 (drop 1 countRanks) in
    Ok (HandEvaluation.mk ThreeOfAKind
          (num_add (num_add (num_add (Num 4000000) (num_mul_pos (to_num threeKind) 10000))
                            (num_mul_pos (to_num (kickers !! 0%nat)) 100))
                   (to_num (kickers !! 1%nat)))
          "Three of a Kind"
          (take 5 (filter (λ c, Some (Card.rank c) = threeKind ∨ Card.rank c ∈ kickers)
                          sortedCards)))
  else if bool_decide (counts !! 0%nat = Some 2 ∧ counts !! 1%nat = Some 2) then
    let highPair := countRanks !! 0%nat in
    let lowPair := countRanks !! 1%nat in
    let kicker := countRanks !! 2%nat in
    Ok (HandEvaluation.mk TwoPair
          (num_add (num_add (num_add (Num 3000000) (num_mul_pos (to_num highPair) 10000))
                            (num_mul_pos (to_num lowPair) 100))
                   (to_num kicker))
          "Two Pair"
          (take 5 (filter (λ c, Some (Card.rank c) = highPair ∨ Some (Card.rank c) = lowPair
                                ∨ Some (Card.rank c) = kicker) sortedCards)))
  else if bool_decide (counts !! 0%nat = Some 2) then
    let pairRank := countRanks !! 0%nat in
    let kickers := take 3 (drop 1 countRanks) in
    Ok (HandEvaluation.mk OnePair
          (num_add (num_add (num_add (num_add (Num 2000000)
                                               (num_mul_pos (to_num pairRank) 10000))
                                      (num_mul_pos (to_num (kickers !! 0%nat)) 100))
                            (num_mul_pos (to_num (kickers !! 1%nat)) 10))
                   (to_num (kickers !! 2%nat)))
          "One Pair"
          (take 5 (filter (λ c, Some (Card.rank c) = pairRank ∨ Card.rank c ∈ kickers)
                          sortedCards)))
  else
    let highCards := take 5 sortedCards in
    Ok (HandEvaluation.mk HighCard (Num (1000000 + weighted_ranks highCards))
                          "High Card" highCards).

(** ** PokerEngine: showdown *)

Definition rank_num (ev : HandEvaluation.t) : num :=
  Num (HandRank_value (HandEvaluation.rank ev)).

(** The selection at the end of [evaluateWinners]: [maxRank], [topRankEvals],
    [bestValue], and the ids of the entries kept. *)
Definition best_ids (evaluations : list (Z * HandEvaluation.t)) : list Z :=
  let maxRank := Math_max ((λ e, rank_num e.2) <$> evaluations) in
  let topRankEvals :=
    filter (λ e : Z * HandEvaluation.t, num_eqb (rank_num e.2) maxRank = true)
           evaluations in
  let bestValue := Math_max ((λ e, HandEvaluation.value e.2) <$> topRankEvals) in
  fst <$> filter (λ e : Z * HandEvaluation.t,
                    num_eqb (HandEvaluation.value e.2) bestValue = true) topRankEvals.

(** A [Player] object is known by its seat, its index in [players]: what
    returns or keeps players returns seats, so that a later
    [w.chips += share] lands on the player at the table.  [None] is
    [undefined]. *)

(** [players.filter(p => !p.isFolded && p.isActive)], each with its seat. *)
Definition in_hand (gs : GameState) : list (Z * Player.t) :=
  filter (λ sp : Z * Player.t,
            negb (Player.isFolded sp.2) && Player.isActive sp.2 = true)
         (imap (λ i p, (Z.of_nat i, p)) (players gs)).

(** [this.gameState.players[id]] *)
Definition player_ref (gs : GameState) (id : Z) : option Z :=
  match at_index (players gs) id with
  | Some _ => Some id
  | None => None
  end.

(** The [forEach] that fills the map of evaluations, keyed by player id; a
    hand of fewer than five cards is not evaluated, and an evaluation that
    throws is dropped. *)
Definition evaluate_all (gs : GameState) (active : list (Z * Player.t))
  : list (Z * HandEvaluation.t) :=
  foldl (λ m sp,
           let p : Player.t := sp.2 in
           let hand := Player.holeCards p ++ communityCards gs in
           if bool_decide (5 ≤ length hand)%nat then
             match evaluateHand hand with
             | Ok ev => map_upsert (Player.id p) (λ _, ev) m
             | Err _ => m
             end
           else m) [] active.

Record ShowdownData : Type := mkShowdownData {
  winners : list (option Z);
  evaluations : list (Z * HandEvaluation.t)
}.

Definition evaluateWinners (gs : GameState) : ShowdownData :=
  let active := in_hand gs in
  if bool_decide (length active = 1%nat)
  then mkShowdownData ((λ sp, Some sp.1) <$> active) [] else
  let evaluations := evaluate_all gs active in
  if bool_decide (length evaluations = 0%nat)
  then mkShowdownData ((λ sp, Some sp.1) <$> active) evaluations
  else mkShowdownData (player_ref gs <$> best_ids evaluations) evaluations.

(** ** PokerEngine: side pots *)

Definition contributors (gs : GameState) : list Player.t :=
  filter (λ p, negb (Player.isFolded p) && (0 <? Player.totalBetInRound p) = true)
         (players gs).

(** [activePlayers.reduce(...)] for the pot of one level. *)
Definition level_amount (activePlayers : list Player.t) (previous amount : Z) : Z :=
  foldl (λ sum player,
           sum + Z.max 0 (Z.min (Player.totalBetInRound player) amount - previous))
        0 activePlayers.

(** One iteration of [for (const amount of allInAmounts)]: the state of the
    loop is [(previous, sidePots)]. *)
Definition level_step (activePlayers : list Player.t) (acc : Z * list SidePot)
  (amount : Z) : Z * list SidePot :=
  let '(previous, pots) := acc in
  let potAmount := level_amount activePlayers previous amount in
  let pots :=
    if 0 <? potAmount then
      let eligible :=
        Player.id <$> filter (λ p, amount ≤ Player.totalBetInRound p) activePlayers in
      pots ++ [mkSidePot potAmount eligible]
    else pots in
  (amount, pots).

Definition calculateSidePots (gs : GameState) : GameState :=
  let activePlayers := contributors gs in
  let allInAmounts :=
    sort_by (λ a b, a - b)
            (Player.totalBetInRound <$> filter (λ p, Player.isAllIn p = true) activePlayers) in
  let '(previous, pots) := foldl (level_step activePlayers) (0, []) allInAmounts in
  let mainAmount :=
    foldl (λ sum player, sum + Z.max 0 (Player.totalBetInRound player - previous))
          0 activePlayers in
  let pots :=
    if 0 <? mainAmount
    then pots ++ [mkSidePot mainAmount (Player.id <$> activePlayers)]
    else pots in
  set_sidePots pots gs.

(** ** PokerEngine: settlement *)

(** [w.chips += share] *)
Definition pay (share : Z) (gs : GameState) (w : option Z) : result exn GameState :=
  seat ← deref w;
  _ ← player_at gs seat;
  Ok (update_player seat (λ p, Player.set_chips (Player.chips p + share) p) gs).

(** [map.get(k)] *)
Definition map_get {V} (m : list (Z * V)) (k : Z) : option V :=
  snd <$> List.find (λ e : Z * V, e.1 =? k) m.

(** The callback of [this.gameState.sidePots.forEach]. *)
Definition settle_side_pot (evaluationsCache : list (Z * HandEvaluation.t))
  (gs : GameState) (sidePot : SidePot) : result exn GameState :=
  let eligiblePlayers := player_ref gs <$> eligiblePlayers sidePot in
  entries ← mapM_result
               (λ w, seat ← deref w;
                     p ← player_at gs seat;
                     Ok (seat, map_get evaluationsCache (Player.id p)))
               eligiblePlayers;
  let eligibleEvaluations :=
    omap (λ e : Z * option HandEvaluation.t, ev ← e.2; Some (e.1, ev)) entries in
  if bool_decide (length eligibleEvaluations = 0%nat) then
    let share := amount sidePot / Z.of_nat (length eligiblePlayers) in
    foldlM (pay share) gs eligiblePlayers
  else
    let winners := best_ids eligibleEvaluations in
    let share := amount sidePot / Z.of_nat (length winners) in
    foldlM (pay share) gs (Some <$> winners).

Definition settlePot (gs : GameState) : result exn GameState :=
  let remaining := in_hand gs in
  match remaining with
  | [sp] => pay (pot gs) gs (Some sp.1)
  | _ =>
      let gs := calculateSidePots gs in
      if bool_decide (length (sidePots gs) = 0%nat) then
        let winners := winners (evaluateWinners gs) in
        if bool_decide (length winners = 0%nat) then Ok gs else
        let share := pot gs / Z.of_nat (length winners) in
        foldlM (pay share) gs winners
      else
        let evaluationsCache := evaluate_all gs (in_hand gs) in
        foldlM (settle_side_pot evaluationsCache) gs (sidePots gs)
  end.

(** ** PokerEngine: starting a hand *)

Definition seated (p : Player.t) : bool := (0 <? Player.chips p) && Player.isActive p.

(** The local helper [nextIdx(from)] of [startNewHandInternal], entered at
    [off] with [count] iterations left; [players] is the engine's array as
    it stands when the helper is called. *)
Fixpoint nextIdx_loop (players : list Player.t) (from : Z) (count : nat) (off : Z)
  : result exn Z :=
  match count with
  | O => Ok from
  | S count' =>
      let n := Z.of_nat (length players) in
      let idx := Z.rem (from + off) n in
      p ← deref (at_index players idx);
      if seated p then Ok idx
      else nextIdx_loop players from count' (off + 1)
  end.

Definition nextIdx (players : list Player.t) (from : Z) : result exn Z :=
  nextIdx_loop players from (length players) 1.

(** One pass of [players.forEach(p => p.holeCards.push(...this.drawMany(1)))]. *)
Fixpoint deal_round (ps : list Player.t) (deck : list Card.t)
  : list Player.t * list Card.t :=
  match ps with
  | [] => ([], deck)
  | p :: ps' =>
      let p := Player.set_holeCards (Player.holeCards p ++ take 1 deck) p in
      let '(ps'', deck') := deal_round ps' (drop 1 deck) in
      (p :: ps'', deck')
  end.

Definition dealHoleCards (gs : GameState) : GameState :=
  let '(ps, d) := deal_round (players gs) (deck gs) in
  let '(ps, d) := deal_round ps d in
  set_deck d (set_players ps gs).

(** The local helper [postBlind(idx, amount)]. *)
Definition postBlind (idx amount : Z) (gs : GameState) : result exn GameState :=
  p ← player_at gs idx;
  let stake := Z.min amount (Player.chips p) in
  let gs := update_player idx (Player.put_in stake) gs in
  Ok (set_pot (pot gs + stake) gs).

Definition reset_for_hand (p : Player.t) : Player.t :=
  let p := Player.set_holeCards [] p in
  let p := Player.set_isFolded false p in
  let p := Player.set_isAllIn false p in
  let p := Player.set_currentBet 0 p in
  Player.set_totalBetInRound 0 p.

(** Where the deck of the new hand comes from: the caller's [externalDeck],
    or [createDeck()], whose order is drawn with [Math.random] and is given
    here as the deck it returned. *)
Inductive DeckSource : Type :=
| External (externalDeck : list Card.t)
| Created (shuffled : list Card.t).

Definition source_deck (src : DeckSource) : list Card.t :=
  match src with
  | External d => d
  | Created d => d
  end.

(** [startNewHandInternal] in its three parts: the dealer and the blinds are
    given their seats; the state is reset and the hole cards are dealt; the
    blinds are posted and the first action is set up. *)
Definition assign_seats (activeCount : nat) (gs : GameState) : result exn GameState :=
  dealer ← nextIdx (players gs) (dealerPosition gs);
  let gs := set_dealerPosition dealer gs in
  if bool_decide (activeCount = 2%nat) then
    let gs := set_smallBlindPosition (dealerPosition gs) gs in
    bb ← nextIdx (players gs) (dealerPosition gs);
    Ok (set_bigBlindPosition bb gs)
  else
    sb ← nextIdx (players gs) (dealerPosition gs);
    let gs := set_smallBlindPosition sb gs in
    bb ← nextIdx (players gs) (smallBlindPosition gs);
    Ok (set_bigBlindPosition bb gs).

Definition reset_and_deal (src : DeckSource) (gs : GameState) : GameState :=
  let gs := addLog "--- New Hand ---" gs in
  let gs := set_pot 0 gs in
  let gs := set_sidePots [] gs in
  let gs := set_currentBet 0 gs in
  let gs := set_stage PreFlop gs in
  let gs := set_communityCards [] gs in
  let gs := set_bettingActions 0 gs in
  let gs := set_players (reset_for_hand <$> players gs) gs in
  let gs := set_deck (source_deck src) gs in
  dealHoleCards gs.

Definition post_blinds (gs : GameState) : result exn GameState :=
  gs ← postBlind (smallBlindPosition gs) (smallBlind gs) gs;
  gs ← postBlind (bigBlindPosition gs) (bigBlind gs) gs;
  bbPlayer ← player_at gs (bigBlindPosition gs);
  let gs := set_currentBet (Player.currentBet bbPlayer) gs in
  first ← nextIdx (players gs) (bigBlindPosition gs);
  let gs := set_currentPlayerIndex first gs in
  let gs := set_lastToActIndex (bigBlindPosition gs) gs in
  Ok (set_lastRaiseAmount (bigBlind gs) gs).

(** The field [dealerPosition] is a number in every [GameState]; its value
    stands for [dealerPosition === undefined ? -1 : dealerPosition]. *)
Definition startNewHandInternal (src : DeckSource) (gs : GameState)
  : result exn GameState :=
  let activeCount := length (filter (λ p, seated p = true) (players gs)) in
  if bool_decide (activeCount < 2)%nat then Ok (set_stage Showdown gs) else
  gs ← assign_seats activeCount gs;
  post_blinds (reset_and_deal src gs).

Definition startNewHand (shuffled : list Card.t) (gs : GameState) : result exn GameState :=
  startNewHandInternal (Created shuffled) gs.

(** ** PokerEngine: the packed deck *)

(** The argument of [startNewHandWithPackedDeck]; a string is a sequence of
    code units below 256. *)
Inductive PackedDeck : Type :=
| Uint8Array (bytes : list Z)
| NumberArray (numbers : list Z)
| HexString (s : string).

Definition is_whitespace (a : Ascii.ascii) : bool :=
  bool_decide (Z.of_nat (Ascii.nat_of_ascii a) ∈ [9; 10; 11; 12; 13; 32; 160]).

Definition hex_digit (a : Ascii.ascii) : option Z :=
  let c := Z.of_nat (Ascii.nat_of_ascii a) in
  if (48 <=? c) && (c <=? 57) then Some (c - 48)
  else if (97 <=? c) && (c <=? 102) then Some (c - 87)
  else if (65 <=? c) && (c <=? 70) then Some (c - 55)
  else None.

Fixpoint skip_whitespace (s : string) : string :=
  match s with
  | String a rest => if is_whitespace a then skip_whitespace rest else s
  | EmptyString => s
  end.

(** The longest prefix of hexadecimal digits; [None] when there is none. *)
Fixpoint hex_prefix (acc : option Z) (s : string) : option Z :=
  match s with
  | String a rest =>
      match hex_digit a with
      | Some d => hex_prefix (Some (16 * default 0 acc + d)) rest
      | None => acc
      end
  | EmptyString => acc
  end.

(** [parseInt(s, 16)]; [None] is [NaN]. *)
Definition parseInt16 (s : string) : option Z :=
  let s := skip_whitespace s in
  let '(sign, s) :=
    match s with
    | String "-"%char rest => (-1, rest)
    | String "+"%char rest => (1, rest)
    | _ => (1, s)
    end in
  let s :=
    match s with
    | String "0"%char (String "x"%char rest) => rest
    | String "0"%char (String "X"%char rest) => rest
    | _ => s
    end in
  (λ v, sign * v) <$> hex_prefix None s.

(** The conversion of [Uint8Array.from]: [NaN] gives 0, an integer wraps. *)
Definition to_uint8 (o : option Z) : Z :=
  match o with
  | Some v => v mod 256
  | None => 0
  end.

(** [for (i = 0; i < hex.length; i += 2) arr.push(parseInt(hex.substr(i, 2), 16))] *)
Fixpoint hex_pairs (hex : string) : list (option Z) :=
  match hex with
  | EmptyString => []
  | String a EmptyString => [parseInt16 (String a EmptyString)]
  | String a (String b rest) =>
      parseInt16 (String a (String b EmptyString)) :: hex_pairs rest
  end.

(** The local [bytes] of [startNewHandWithPackedDeck]. *)
Definition packed_bytes (packedDeck : PackedDeck) : list Z :=
  match packedDeck with
  | HexString s =>
      let hex :=
        match s with
        | String "0"%char (String "x"%char rest) => rest
        | _ => s
        end in
      to_uint8 <$> hex_pairs hex
  | NumberArray numbers => (λ v, to_uint8 (Some v)) <$> numbers
  | Uint8Array bytes => bytes
  end.

Definition suitValues : list Suit := [Hearts; Diamonds; Clubs; Spades].

(** The body of [bytes.slice(0, 52).forEach(...)]: [suitValues[suitIdx]] is
    defined, a byte being non-negative. *)
Definition decode_card (val : Z) : Card.t :=
  let suitIdx := Z.rem val 4 in
  let rankIdx := val / 4 in
  let rankVal := rankIdx + 2 in
  Card.mk rankVal (default Hearts (at_index suitValues suitIdx)).

Definition startNewHandWithPackedDeck (packedDeck : PackedDeck) (gs : GameState)
  : result exn GameState :=
  let bytes := packed_bytes packedDeck in
  if bool_decide (length bytes < 52)%nat
  then Err (Error "Packed deck must contain 52 bytes") else
  let deck := decode_card <$> take 52 bytes in
  startNewHandInternal (External deck) gs.

(** ** PokerEngine: the turn *)

(** [getCurrentPlayerIndex()] *)
Definition getCurrentPlayerIndex (gs : GameState) : Z := currentPlayerIndex gs.

(** The loop of [advanceTurn()], entered with the local [next] and [count]
    iterations left. *)
Fixpoint advanceTurn_loop (count : nat) (next : Z) (gs : GameState)
  : result exn GameState :=
  match count with
  | O => Ok gs
  | S count' =>
      let n := Z.of_nat (length (players gs)) in
      let next := Z.rem (next + 1) n in
      candidate ← player_at gs next;
      if negb (Player.isFolded candidate) && (0 <? Player.chips candidate)
      then Ok (set_currentPlayerIndex next gs)
      else advanceTurn_loop count' next gs
  end.

Definition advanceTurn (gs : GameState) : result exn GameState :=
  let n := length (players gs) in
  if bool_decide (n = 0%nat) then Ok gs else
  advanceTurn_loop n (currentPlayerIndex gs) gs.

(** ** PokerEngine: the deck of a hand *)

Global Instance Card_eq_dec : EqDecision Card.t.
Proof. solve_decision. Defined.

(** The deck [createDeck()] builds before it shuffles it: suit by suit, the
    ranks 2 to 14. *)
Definition ordered_deck : list Card.t :=
  suit ← suitValues; rank ← seqZ 2 13; [Card.mk rank suit].

(** [[shuffled[i], shuffled[j]] = [shuffled[j], shuffled[i]]].  In
    [shuffleDeck] both are indices of the array ([0 <= j <= i < length]); for
    an index outside it the array is given back as it is. *)
Definition swap {A} (arr : list A) (i j : nat) : list A :=
  match arr !! i, arr !! j with
  | Some a, Some b => <[j := a]> (<[i := b]> arr)
  | _, _ => arr
  end.

(** The loop of [shuffleDeck], entered at index [i].  [Math.random] is not a
    function of the state: the values of
    [Math.floor(Math.random() * (i + 1))], each an integer between 0 and [i],
    are given as [draws], the first for the first iteration. *)
Fixpoint shuffle_loop {A} (i : nat) (draws : list Z) (shuffled : list A) : list A :=
  match i, draws with
  | S i', j :: draws' => shuffle_loop i' draws' (swap shuffled i (Z.to_nat j))
  | _, _ => shuffled
  end.

Definition shuffleDeck {A} (draws : list Z) (deck : list A) : list A :=
  shuffle_loop (length deck - 1) draws deck.

Definition createDeck (draws : list Z) : list Card.t := shuffleDeck draws ordered_deck.

(** ** PokerEngine: the evaluation shown at the table *)

(** [getHandEvaluation(playerId)]; [None] is [null]. *)
Definition getHandEvaluation (playerId : Z) (gs : GameState)
  : result exn (option HandEvaluation.t) :=
  match at_index (players gs) playerId with
  | None => Ok None
  | Some player =>
      let cards := Player.holeCards player ++ communityCards gs in
      if bool_decide (length cards < 5)%nat then Ok None
      else Some <$> evaluateHand cards
  end.

End Engine.

(** ** cardDealerApi.ts: the conversions *)

Module CardDealerApi.

Record CardIndex : Type := mkCardIndex { rank : Z; suit : Z }.

Definition cardIndexToCard (cardIndex : Z) : CardIndex :=
  let suitIdx := Z.rem cardIndex 4 in
  let rankIdx := cardIndex / 4 in
  let rankVal := rankIdx + 2 in
  mkCardIndex rankVal suitIdx.

Definition hex_char (d : Z) : Ascii.ascii :=
  Ascii.ascii_of_nat (Z.to_nat (if d <? 10 then 48 + d else 87 + d)).

(** The hexadecimal digits of a positive integer, the last one first put in
    front of [acc]; an integer [n] has at most [log2 n + 1] of them. *)
Fixpoint hex_digits (count : nat) (n : Z) (acc : string) : string :=
  match count with
  | O => acc
  | S count' =>
      let acc := String (hex_char (n mod 16)) acc in
      if n / 16 =? 0 then acc else hex_digits count' (n / 16) acc
  end.

(** [n.toString(16)] on an integer. *)
Definition toString16 (n : Z) : string :=
  if n <? 0 then String "-"%char (hex_digits (S (Z.to_nat (Z.log2 (- n)))) (- n) "")
  else hex_digits (S (Z.to_nat (Z.log2 n))) n "".

(** [s.padStart(targetLength, pad)] with a pad of one character. *)
Definition padStart (targetLength : nat) (pad : Ascii.ascii) (s : string) : string :=
  String.string_of_list_ascii (replicate (targetLength - String.length s) pad) +:+ s.

(** [cards.map(c => c.toString(16).padStart(2, '0')).join('')] after ['0x']. *)
Definition cardsToPackedDeck (cards : list Z) : string :=
  "0x" +:+ foldr (λ c hex, padStart 2 "0"%char (toString16 c) +:+ hex) "" cards.

End CardDealerApi.

(** ** Quantities and orders used in the statements *)

Module Spec.
Import Engine.

Fixpoint sum_Z (l : list Z) : Z :=
  match l with
  | [] => 0
  | x :: l' => x + sum_Z l'
  end.

(** What the players have put in over the hand, capped at a level. *)
Definition capped (ps : list Player.t) (level : Z) : Z :=
  sum_Z ((λ p, Z.min (Player.totalBetInRound p) level) <$> ps).

Definition stacks (gs : GameState) : list Z := Player.chips <$> players gs.

(** All the chips in play: the stacks and the pot. *)
Definition chips_in_play (gs : GameState) : Z := sum_Z (stacks gs) + pot gs.

Definition chips_nonneg (gs : GameState) : Prop := Forall (λ c, 0 ≤ c) (stacks gs).

(** A step that moves no chips (and leaves the dealer button where it is). *)
Definition keeps_chips (gs gs' : GameState) : Prop :=
  stacks gs' = stacks gs ∧ pot gs' = pot gs ∧ dealerPosition gs' = dealerPosition gs.

(** The call returns, the chips in play are what they were, and no stack has
    become negative. *)
Definition conserves (gs : GameState) (r : result exn GameState) : Prop :=
  ∃ gs', r = Ok gs' ∧ chips_in_play gs' = chips_in_play gs
         ∧ (chips_nonneg gs → chips_nonneg gs').

(** The call returns, and what it has done to the chips is to move [w] of
    them from the stack, of [c] chips, of the player at [seat] to the pot:
    that stack is left with [c - w], every other stack is what it was, and
    the pot has grown by [w]. *)
Definition moved (gs : GameState) (seat c w : Z) (r : result exn GameState) : Prop :=
  ∃ gs', r = Ok gs'
         ∧ stacks gs' = <[Z.to_nat seat := c - w]> (stacks gs)
         ∧ pot gs' = pot gs + w.

(** The engine's numbers are IEEE doubles.  Every integer up to 2^53 in
    absolute value is a double, and a sum or a difference of two doubles is
    exact when it is such an integer; beyond 2^53 a sum is rounded (2^53 + 3
    is stored as 2^53 + 4).  The amounts of a state are in range when they
    are integers between 0 and 2^52: each sum and difference that one call of
    an action computes from them ([chips - wager], [currentBet + wager],
    [totalBetInRound + wager], [pot + wager], [currentBet - player.currentBet],
    [player.currentBet - prevBet], [bettingActions + 1], the seat arithmetic)
    then stays within 2^53, and is the sum or difference in [Z]. *)
Definition in_range (z : Z) : Prop := 0 ≤ z ≤ 2 ^ 52.

Definition amounts_in_range (gs : GameState) : Prop :=
  Forall (λ p, in_range (Player.chips p) ∧ in_range (Player.currentBet p)
               ∧ in_range (Player.totalBetInRound p)) (players gs)
  ∧ in_range (pot gs) ∧ in_range (currentBet gs) ∧ in_range (bettingActions gs)
  ∧ in_range (dealerPosition gs)
  ∧ Z.of_nat (length (players gs)) ≤ 2 ^ 32.

(** What the action methods check before anything else. *)
Definition out_of_hand (gs : GameState) (p : Player.t) : Prop :=
  Player.isFolded p = true ∨ Player.isAllIn p = true ∨ stage gs = Showdown.

(** The order [Math.max] and [===] induce on numbers: [NaN] is related to
    nothing. *)
Definition num_le (a b : num) : Prop :=
  match a, b with
  | Num x, Num y => x ≤ y
  | NegInfinity, Num _ | NegInfinity, NegInfinity => True
  | _, _ => False
  end.

Definition num_lt (a b : num) : Prop :=
  match a, b with
  | Num x, Num y => x < y
  | _, _ => False
  end.

(** [a] is at least as good as [b] for the engine: a higher rank, or the
    same rank and a value that is not lower. *)
Definition at_least (a b : HandEvaluation.t) : Prop :=
  HandRank_value (HandEvaluation.rank b) < HandRank_value (HandEvaluation.rank a)
  ∨ (HandEvaluation.rank a = HandEvaluation.rank b
     ∧ num_le (HandEvaluation.value b) (HandEvaluation.value a)).

(** The player at seat [i] can be dealt in: chips left and active. *)
Definition seated_at (ps : list Player.t) (i : Z) : Prop :=
  ∃ p, at_index ps i = Some p ∧ seated p = true.

(** Player [p] of seat [k] once the table of [n] seats is reset and the hole
    cards are dealt from [deck]: one card in the first round, one in the
    second. *)
Definition dealt_in (n : nat) (deck : list Card.t) (k : nat) (p : Player.t) : Player.t :=
  Player.mk (Player.id p) (Player.name p) (Player.chips p)
            (take 1 (drop k deck) ++ take 1 (drop (n + k) deck))
            (Player.isActive p) false false 0 0 (Player.isAI p).

(** Exactly two seats hold such a player. *)
Definition two_seated (ps : list Player.t) (a b : Z) : Prop :=
  a ≠ b ∧ seated_at ps a ∧ seated_at ps b ∧ ∀ i, seated_at ps i → i = a ∨ i = b.

(** *** Whose turn it is *)

(** The player can be given the turn: not folded, and with chips left. *)
Definition takes_turn (p : Player.t) : bool :=
  negb (Player.isFolded p) && (0 <? Player.chips p).

(** The seat reached from [start] in [k] steps round the table. *)
Definition seat_after (gs : GameState) (start k : Z) : Z :=
  Z.rem (start + k) (Z.of_nat (length (players gs))).

Definition turn_at (gs : GameState) (seat : Z) : Prop :=
  ∃ p, player_at gs seat = Ok p ∧ takes_turn p = true.

(** Seat [seat_after gs start k] is the first, counting from the seat after
    [start] and ending with [start] itself, whose player can be given the
    turn. *)
Definition first_turn_after (gs : GameState) (start k : Z) : Prop :=
  1 ≤ k ≤ Z.of_nat (length (players gs))
  ∧ turn_at gs (seat_after gs start k)
  ∧ ∀ j, 1 ≤ j < k → ¬ turn_at gs (seat_after gs start j).

(** *** The cards of a hand *)

(** The cards on the table: in the players' hands, on the board and in the
    deck. *)
Definition cards_in_play (gs : GameState) : list Card.t :=
  concat (Player.holeCards <$> players gs) ++ communityCards gs ++ deck gs.

(** A step that deals no hole card, leaves the board cards already dealt
    where they are, and takes the cards it deals or burns from the deck: the
    board followed by the deck is what it was, less the cards burnt. *)
Definition deals_from_deck (gs gs' : GameState) : Prop :=
  Player.holeCards <$> players gs' = Player.holeCards <$> players gs
  ∧ communityCards gs `prefix_of` communityCards gs'
  ∧ communityCards gs' ++ deck gs' `sublist_of` communityCards gs ++ deck gs.

End Spec.

(** ** Sample sessions and the quantities used in the statements about the dealer *)

Module DealerSamples.
Import Sol PokerEntropyDealerV2.

(** A session as the contract builds it: the hash of salt 1 committed by
    host 0xA11CE, sequence number 7 obtained, random value 0xBEEF delivered. *)
Definition committed_hash : Z :=
  0xb10e2d527612073b26eecdfd717e6a320cf44b4afac2b0732d9fcbe2b7fa0cf6.

Definition fulfilled_session : GameSession :=
  mkGameSession committed_hash 0xBEEF 0 0xA11CE 7 true false false.

Definition fulfilled_storage : Storage :=
  mkStorage {[ 1 := fulfilled_session ]} {[ 7 := 1 ]}
    [SaltCommitted 1 committed_hash 0xA11CE; ShuffleRequested 1 7; VRFFulfilled 1 0xBEEF].

(** The seed [revealAndVerify] derives for that session and salt 1, and the
    deck [_shuffle] returns on it. *)
Definition sample_seed : Z :=
  108203572967593585273148650110348448198025707118933046513240920235094071415483.

Definition sample_deck : list Z :=
  [45; 1; 15; 2; 31; 3; 21; 7; 39; 8; 9; 14; 44; 29; 49; 41; 38; 43;
   13; 5; 50; 18; 26; 35; 40; 19; 17; 12; 36; 30; 4; 16; 10; 37; 27;
   6; 25; 20; 42; 11; 51; 0; 48; 33; 47; 34; 23; 46; 28; 22; 24; 32].
(** The seed and the deck that [revealAndVerify] replays for a session. *)
Definition finalSeed (st : Storage) (gameId salt : Z) : Z :=
  Keccak.keccak256 (be_bytes 32 (pythSeed (game st gameId)) ++ be_bytes 32 salt).

Definition replayed_deck (st : Storage) (gameId salt : Z) : list Z :=
  match _shuffle (finalSeed st gameId salt) with
  | Ok deck => deck
  | Err _ => []
  end.

(** The storage a successful [revealAndVerify] leaves. *)
Definition revealed_storage (st : Storage) (gameId salt : Z) (valid : bool) : Storage :=
  let g := set_verified valid (set_gameEnded true (set_revealedSalt salt (game st gameId))) in
  emit (GameVerified gameId salt (finalSeed st gameId salt) valid) (set_game gameId g st).

(** The claimed pair number [i] names a position of the deck and the card
    found there. *)
Definition pair_matches (deck dealtCards cardPositions : list Z) (i : nat) : Prop :=
  ∃ pos card, cardPositions !! i = Some pos ∧ dealtCards !! i = Some card
              ∧ 0 ≤ pos < 52 ∧ deck !! Z.to_nat pos = Some card.
End DealerSamples.

(** ** Histories of calls to PokerEntropyDealerV2 *)

Module DealerHistory.
Import Sol PokerEntropyDealerV2.

(** A transaction sent to the contract, or the callback of the Entropy
    contract. *)
Inductive Call : Type :=
| CommitSalt (msg_sender gameId saltHash : Z)
| RequestShuffle (msg_value fee seq gameId : Z)
| EntropyCallback (sequenceNumber randomNumber : Z)
| RevealAndVerify (gameId salt : Z) (dealtCards cardPositions : list Z).

(** The storage a call leaves: its writes when it returns, nothing when it
    reverts. *)
Definition transact (st : Storage) (c : Call) : Storage :=
  match c with
  | CommitSalt sender gameId h => storage_after_void st (commitSalt sender gameId h st)
  | RequestShuffle value fee seq gameId =>
      storage_after st (requestShuffle value fee seq gameId st)
  | EntropyCallback seq random => storage_after_void st (entropyCallback seq random st)
  | RevealAndVerify gameId salt dealtCards cardPositions =>
      storage_after st (revealAndVerify gameId salt dealtCards cardPositions st)
  end.

Definition run (st : Storage) (calls : list Call) : Storage := foldl transact st calls.

(** The values of the Solidity types of the arguments. *)
Definition uint8_array (l : list Z) : Prop := Forall (λ v, 0 ≤ v < 256) l.

Definition bytes32 (v : Z) : Prop := 0 ≤ v < 2 ^ 256.

Definition well_typed (c : Call) : Prop :=
  match c with
  | CommitSalt sender gameId h => 0 ≤ sender < 2 ^ 160 ∧ bytes32 gameId ∧ bytes32 h
  | RequestShuffle value fee seq gameId =>
      0 ≤ value < 2 ^ 256 ∧ 0 ≤ fee < 2 ^ 256 ∧ 0 ≤ seq < 2 ^ 64 ∧ bytes32 gameId
  | EntropyCallback seq random => 0 ≤ seq < 2 ^ 64 ∧ bytes32 random
  | RevealAndVerify gameId salt dealtCards cardPositions =>
      bytes32 gameId ∧ bytes32 salt ∧ uint8_array dealtCards ∧ uint8_array cardPositions
  end.

(** Every claimed pair names a position of the deck and the card found there. *)
Definition all_pairs_match (deck dealtCards cardPositions : list Z) : Prop :=
  ∀ i, (i < length dealtCards)%nat → DealerSamples.pair_matches deck dealtCards cardPositions i.

(** The part of a session fixed by the commitment, and the part fixed by the
    reveal. *)
Definition commitment (g : GameSession) : Z * Z := (saltHash g, host g).

Definition verdict (g : GameSession) : Z * bool * bool :=
  (revealedSalt g, gameEnded g, verified g).

End DealerHistory.

(** ** Sample hands and tables *)

Module EngineSamples.
Import Engine.

(** {A♦, 2♣, 3♥, 4♠, 5♦} and {2♦, 6♣, 3♥, 4♠, 5♦} *)
Definition wheel_hand : list Card.t :=
  [Card.mk Rank.Ace Diamonds; Card.mk Rank.Two Clubs; Card.mk Rank.Three Hearts;
   Card.mk Rank.Four Spades; Card.mk Rank.Five Diamonds].

Definition six_high_hand : list Card.t :=
  [Card.mk Rank.Two Diamonds; Card.mk Rank.Six Clubs; Card.mk Rank.Three Hearts;
   Card.mk Rank.Four Spades; Card.mk Rank.Five Diamonds].

(** {A♣, K♦, Q♥, J♠, 9♣} and {10♠, J♠, Q♠, K♠, A♠} *)
Definition ace_high_hand : list Card.t :=
  [Card.mk Rank.Ace Clubs; Card.mk Rank.King Diamonds; Card.mk Rank.Queen Hearts;
   Card.mk Rank.Jack Spades; Card.mk Rank.Nine Clubs].

Definition royal_flush_hand : list Card.t :=
  [Card.mk Rank.Ten Spades; Card.mk Rank.Jack Spades; Card.mk Rank.Queen Spades;
   Card.mk Rank.King Spades; Card.mk Rank.Ace Spades].

Definition wheel_eval : HandEvaluation.t :=
  HandEvaluation.mk Straight (Num 5000014) "Straight"
    [Card.mk 14 Diamonds; Card.mk 5 Diamonds; Card.mk 4 Spades; Card.mk 3 Hearts;
     Card.mk 2 Clubs].

Definition six_high_eval : HandEvaluation.t :=
  HandEvaluation.mk Straight (Num 5000006) "Straight"
    [Card.mk 6 Clubs; Card.mk 5 Diamonds; Card.mk 4 Spades; Card.mk 3 Hearts;
     Card.mk 2 Diamonds].

Definition ace_high_eval : HandEvaluation.t :=
  HandEvaluation.mk HighCard (Num 1414121109) "High Card"
    [Card.mk 14 Clubs; Card.mk 13 Diamonds; Card.mk 12 Hearts; Card.mk 11 Spades;
     Card.mk 9 Clubs].

Definition royal_flush_eval : HandEvaluation.t :=
  HandEvaluation.mk RoyalFlush (Num 10000000) "Royal Flush"
    [Card.mk 14 Spades; Card.mk 13 Spades; Card.mk 12 Spades; Card.mk 11 Spades;
     Card.mk 10 Spades].

(** A player as the constructor of [PokerEngine] creates it. *)
Definition new_player (id : Z) (name : string) (chips : Z) : Player.t :=
  Player.mk id name chips [] true false false 0 0 false.

(** [new PokerEngine(["Ann", "Bob"], 1000, false, 10, 20)] *)
Definition heads_up_table : GameState :=
  mkGameState [new_player 0 "Ann" 1000; new_player 1 "Bob" 1000]
    [] [] 0 0 PreFlop 0 0 0 0 0 20 10 20 [] 0 [].

(** The deck 0, 1, ..., 51 in packed form. *)
Definition ordered_bytes : list Z := seqZ 0 52.

(** The first hand of that table, dealt from the ordered deck: Bob (seat 1)
    is the dealer and is to act, Ann (seat 0) has posted the big blind. *)
Definition heads_up_started : GameState :=
  Eval vm_compute in
    match startNewHandWithPackedDeck (Uint8Array ordered_bytes) heads_up_table with
    | Ok gs => gs
    | Err _ => heads_up_table
    end.

(** The same hand after Ann has folded. *)
Definition heads_up_folded : GameState :=
  Eval vm_compute in
    match fold 0 heads_up_started with
    | Ok gs => gs
    | Err _ => heads_up_started
    end.

(** Two players at the flop, both in the hand: Ann holds A♦ 2♣, Bob holds
    2♦ 6♣, the board is 3♥ 4♠ 5♦. *)
Definition showdown_player (id : Z) (name : string) (hole : list Card.t) : Player.t :=
  Player.mk id name 900 hole true false false 0 100 false.

Definition straights_table : GameState :=
  mkGameState
    [showdown_player 0 "Ann" [Card.mk Rank.Ace Diamonds; Card.mk Rank.Two Clubs];
     showdown_player 1 "Bob" [Card.mk Rank.Two Diamonds; Card.mk Rank.Six Clubs]]
    [] [Card.mk Rank.Three Hearts; Card.mk Rank.Four Spades; Card.mk Rank.Five Diamonds]
    200 0 Flop 0 0 1 1 0 20 10 20 [] 0 [].

(** Four players at settlement: Ann is all-in for 50, Bob and Cid have put
    in 100 each, Dan folded after putting in 20; the pot holds 270.  The
    board is K♠ 9♦ 4♣ 7♥ 2♠; Ann holds K♥ K♦ (three kings), Bob A♣ Q♦ (ace
    high), Cid 9♣ 9♥ (three nines). *)
Definition bettor (id : Z) (name : string) (hole : list Card.t) (chips total : Z)
  (folded allin : bool) : Player.t :=
  Player.mk id name chips hole true folded allin 0 total false.

Definition side_pot_table : GameState :=
  mkGameState
    [bettor 0 "Ann" [Card.mk Rank.King Hearts; Card.mk Rank.King Diamonds] 0 50 false true;
     bettor 1 "Bob" [Card.mk Rank.Ace Clubs; Card.mk Rank.Queen Diamonds] 900 100 false false;
     bettor 2 "Cid" [Card.mk Rank.Nine Clubs; Card.mk Rank.Nine Hearts] 900 100 false false;
     bettor 3 "Dan" [Card.mk Rank.Five Clubs; Card.mk Rank.Ten Hearts] 980 20 true false]
    []
    [Card.mk Rank.King Spades; Card.mk Rank.Nine Diamonds; Card.mk Rank.Four Clubs;
     Card.mk Rank.Seven Hearts; Card.mk Rank.Two Spades]
    270 0 Showdown 0 1 2 1 0 20 10 20 [] 0 [].

End EngineSamples.

(** * Properties *)

(** The proofs below never look inside the hash. *)
Opaque Keccak.keccak256.

(** ** The error monad *)

Lemma bind_Ok {E A B} (f : A → result E B) (a : A) : (Ok a ≫= f) = f a.
Proof. reflexivity. Qed.

Lemma foldlM_cons {E A B} (f : A → B → result E A) (a : A) (b : B) (l : list B) :
  foldlM f a (b :: l) = f a b ≫= λ a', foldlM f a' l.
Proof. reflexivity. Qed.

Module ShuffleTheory.
Import Sol Shuffle.

Example keccak256_empty :
  Keccak.keccak256 [] = 0xc5d2460186f7233c927e7db2dcc703c0e500b653ca82273b7bfad8045d85a470.
Proof. vm_compute. reflexivity. Qed.

Example keccak256_uint256_one :
  Keccak.keccak256 (be_bytes 32 1)
  = 0xb10e2d527612073b26eecdfd717e6a320cf44b4afac2b0732d9fcbe2b7fa0cf6.
Proof. vm_compute. reflexivity. Qed.

(** *** The shuffle returns a permutation of the 52 card indices *)


Lemma init_deck_eq : init_deck = Ok (seqZ 0 52).
Proof. reflexivity. Qed.

Lemma index_lookup (arr : list Z) (i : nat) (v : Z) :
  arr !! i = Some v → index arr (Z.of_nat i) = Ok v.
Proof.
  intros H. unfold index.
  destruct (Z.ltb_spec (Z.of_nat i) 0); [lia|].
  by rewrite Nat2Z.id, H.
Qed.

Lemma assign_in_range (arr : list Z) (i : nat) (v : Z) :
  (i < length arr)%nat → assign arr (Z.of_nat i) v = Ok (<[i := v]> arr).
Proof.
  intros H. unfold assign.
  destruct (Z.leb_spec 0 (Z.of_nat i)); [|lia].
  destruct (Z.ltb_spec (Z.of_nat i) (Z.of_nat (length arr))); [|lia].
  by rewrite Nat2Z.id.
Qed.

Lemma swap_step_permutes (s : Z) (deck : list Z) (i : Z) :
  1 ≤ i ≤ 51 → length deck = 52%nat →
  ∃ s' deck', swap_step (s, deck) i = Ok (s', deck')
              ∧ length deck' = 52%nat ∧ deck' ≡ₚ deck.
Proof.
  intros Hi Hlen. unfold swap_step.
  set (h := Keccak.keccak256 _). clearbody h.
  unfold checked_add.
  destruct (Z.ltb_spec (i + 1) (2 ^ 8)) as [_|Hov]; [|lia]. simpl.
  unfold checked_mod.
  destruct (Z.eqb_spec (i + 1) 0) as [|_]; [lia|]. simpl.
  pose proof (Z.mod_pos_bound h (i + 1) ltac:(lia)) as Hr.
  assert (Hj : uint8 (h mod (i + 1)) = h mod (i + 1)).
  { unfold uint8. apply Z.mod_small. lia. }
  rewrite Hj. clear Hj.
  destruct (Z_of_nat_complete (h mod (i + 1))) as [nj Hnj]; [lia|].
  rewrite Hnj in *. clear Hnj.
  destruct (Z_of_nat_complete i) as [ni ->]; [lia|].
  destruct (lookup_lt_is_Some_2 deck ni) as [x Hx]; [lia|].
  destruct (lookup_lt_is_Some_2 deck nj) as [y Hy]; [lia|].
  rewrite (index_lookup _ _ _ Hx). simpl.
  rewrite (index_lookup _ _ _ Hy). simpl.
  rewrite assign_in_range by lia. simpl.
  rewrite assign_in_range by (rewrite length_insert; lia). simpl.
  eexists _, _. split; [reflexivity|]. split.
  - by rewrite !length_insert.
  - by apply Permutation_insert_swap.
Qed.

Lemma swap_loop_permutes (l : list Z) (s : Z) (deck : list Z) :
  Forall (λ i, 1 ≤ i ≤ 51) l → length deck = 52%nat →
  ∃ s' deck', foldlM swap_step (s, deck) l = Ok (s', deck')
              ∧ length deck' = 52%nat ∧ deck' ≡ₚ deck.
Proof.
  revert s deck. induction l as [|i l IH]; intros s deck Hl Hlen.
  - by eexists _, _.
  - inversion_clear Hl as [|?? Hi Hl'].
    destruct (swap_step_permutes s deck i Hi Hlen) as (s1 & d1 & Hstep & Hlen1 & Hp1).
    destruct (IH s1 d1 Hl' Hlen1) as (s2 & d2 & Hrest & Hlen2 & Hp2).
    exists s2, d2. rewrite foldlM_cons, Hstep, bind_Ok.
    split; [done|]. split; [done|]. by rewrite Hp2.
Qed.

Lemma down_range_bounds : Forall (λ i, 1 ≤ i ≤ 51) down_range.
Proof.
  unfold down_range. rewrite Forall_reverse, Forall_forall.
  intros i Hi%elem_of_seqZ. lia.
Qed.

(** The copy loop, run over the indices [k, k + n). *)
Lemma pack_loop (deck : list Z) (n : nat) : ∀ (k : nat) (packed : list Z),
  length packed = length deck → (k + n ≤ length deck)%nat →
  ∃ packed',
    foldlM (λ packed k, d ← index deck k; assign packed k (uint8 d))
           packed (seqZ (Z.of_nat k) (Z.of_nat n)) = Ok packed'
    ∧ length packed' = length deck
    ∧ ∀ i : nat, packed' !! i =
        if bool_decide (k ≤ i < k + n)%nat then uint8 <$> deck !! i else packed !! i.
Proof.
  induction n as [|n IH]; intros k packed Hlen Hk.
  - exists packed. split; [done|]. split; [done|].
    intros i. rewrite bool_decide_eq_false_2; [done|lia].
  - rewrite seqZ_cons by lia. simpl.
    destruct (lookup_lt_is_Some_2 deck k) as [d Hd]; [lia|].
    rewrite (index_lookup _ _ _ Hd). simpl.
    rewrite assign_in_range by lia. simpl.
    replace (Z.succ (Z.of_nat k)) with (Z.of_nat (S k)) by lia.
    replace (Z.pred (Z.of_nat (S n))) with (Z.of_nat n) by lia.
    destruct (IH (S k) (<[k := uint8 d]> packed)) as (packed' & -> & Hlen' & Hget).
    { by rewrite length_insert. }
    { lia. }
    exists packed'. split; [done|]. split; [done|].
    intros i. rewrite Hget.
    destruct (decide (i = k)) as [->|Hne].
    + rewrite bool_decide_eq_false_2 by lia.
      rewrite bool_decide_eq_true_2 by lia.
      rewrite list_lookup_insert_eq by lia. by rewrite Hd.
    + rewrite list_lookup_insert_ne by done.
      repeat case_bool_decide; try done; lia.
Qed.

Lemma pack_bytes (deck : list Z) :
  length deck = 52%nat → pack deck = Ok (uint8 <$> deck).
Proof.
  intros Hlen. unfold pack.
  destruct (pack_loop deck 52 0 (replicate 52 0)) as (packed' & Heq & Hlen' & Hget).
  { by rewrite length_replicate. }
  { lia. }
  change (seqZ (Z.of_nat 0) (Z.of_nat 52)) with (seqZ 0 52) in Heq.
  rewrite Heq. f_equal. apply list_eq. intros i. rewrite Hget, list_lookup_fmap.
  case_bool_decide as Hi; [done|].
  rewrite !lookup_ge_None_2; [done| |]; rewrite ?length_replicate; lia.
Qed.

Lemma shuffle_permutation (seed : Z) :
  ∃ packed, _shuffle seed = Ok packed ∧ packed ≡ₚ seqZ 0 52.
Proof.
  unfold _shuffle. rewrite init_deck_eq, bind_Ok.
  destruct (swap_loop_permutes down_range seed (seqZ 0 52) down_range_bounds)
    as (s' & deck & Hloop & Hlen & Hperm); [done|].
  rewrite Hloop, bind_Ok. cbv beta iota. rewrite pack_bytes by done.
  assert (Huint : uint8 <$> deck = deck).
  { rewrite <- (list_fmap_id deck) at 2. apply list_fmap_ext.
    intros i x Hx. unfold uint8. apply Z.mod_small.
    assert (x ∈ seqZ 0 52) as Hin%elem_of_seqZ.
    { rewrite <- Hperm. by eapply list_elem_of_lookup_2. }
    simpl. lia. }
  rewrite Huint. by exists deck.
Qed.

(** C1. For every seed, [_shuffle] (of either dealer contract) returns, without
    failing, a sequence of exactly 52 bytes that is a permutation of the card
    indices 0..51: no index is duplicated and none is omitted. *)
Theorem shuffle_is_permutation_of_52 (seed : Z) :
  ∃ packed : list Z,
    PokerEntropyDealer._shuffle seed = Ok packed
    ∧ PokerEntropyDealerV2._shuffle seed = Ok packed
    ∧ length packed = 52%nat
    ∧ packed ≡ₚ seqZ 0 52
    ∧ NoDup packed
    ∧ ∀ c : Z, c ∈ packed ↔ 0 ≤ c < 52.
Proof.
  destruct (shuffle_permutation seed) as (packed & Heq & Hperm).
  exists packed. split; [done|]. split; [done|].
  split; [by rewrite Hperm, length_seqZ|]. split; [done|].
  split; [rewrite Hperm; apply NoDup_seqZ|].
  intros c. rewrite Hperm, elem_of_seqZ. lia.
Qed.

End ShuffleTheory.

(** ** PokerEntropyDealerV2: commit, reveal and verify *)

Module DealerTheory.
Import Sol PokerEntropyDealerV2 DealerSamples ShuffleTheory.

Example fulfilled_storage_reached :
  (st ← commitSalt 0xA11CE 1 committed_hash (mkStorage ∅ ∅ []);
   '(_, st) ← requestShuffle 5 5 7 1 st;
   entropyCallback 7 0xBEEF st) = Ok fulfilled_storage.
Proof. vm_compute. reflexivity. Qed.

Lemma require_false (reason : string) {A} (k : () → result failure A) :
  (require false reason ≫= k) = Err (Revert reason).
Proof. reflexivity. Qed.

Lemma require_true (reason : string) {A} (k : () → result failure A) :
  (require true reason ≫= k) = k ().
Proof. reflexivity. Qed.

Lemma game_set_game (st : Storage) (gameId : Z) (g : GameSession) :
  game (set_game gameId g st) gameId = g.
Proof. unfold game, set_game. simpl. by rewrite lookup_insert_eq. Qed.

Lemma set_game_twice (st : Storage) (gameId : Z) (g g' : GameSession) :
  set_game gameId g (set_game gameId g' st) = set_game gameId g st.
Proof. unfold set_game. simpl. by rewrite insert_insert_eq. Qed.

Lemma game_emit (st : Storage) (e : Event) (gameId : Z) :
  game (emit e st) gameId = game st gameId.
Proof. reflexivity. Qed.

Example sample_seed_eq : finalSeed fulfilled_storage 1 1 = sample_seed.
Proof. vm_compute. reflexivity. Qed.

Example sample_deck_eq : _shuffle sample_seed = Ok sample_deck.
Proof. vm_compute. reflexivity. Qed.

Lemma replayed_sample_deck : replayed_deck fulfilled_storage 1 1 = sample_deck.
Proof. unfold replayed_deck. by rewrite sample_seed_eq, sample_deck_eq. Qed.

(** Every deck replayed is made of 52 card indices. *)
Lemma replayed_deck_cards (st : Storage) (gameId salt : Z) :
  _shuffle (finalSeed st gameId salt) = Ok (replayed_deck st gameId salt)
  ∧ length (replayed_deck st gameId salt) = 52%nat
  ∧ Forall (λ d, 0 ≤ d < 52) (replayed_deck st gameId salt).
Proof.
  unfold replayed_deck.
  destruct (shuffle_permutation (finalSeed st gameId salt)) as (deck & Hdeck & Hperm).
  change Shuffle._shuffle with _shuffle in Hdeck. rewrite Hdeck.
  split; [done|]. split; [by rewrite Hperm, length_seqZ|].
  rewrite Hperm, Forall_forall. intros d Hd%elem_of_seqZ. lia.
Qed.

(** When the four checks pass, the call goes on to replay the deck. *)
Lemma reveal_after_checks (st : Storage) (gameId salt : Z)
    (dealtCards cardPositions : list Z) :
  vrfFulfilled (game st gameId) = true →
  gameEnded (game st gameId) = false →
  length dealtCards = length cardPositions →
  Keccak.keccak256 (be_bytes 32 salt) = saltHash (game st gameId) →
  revealAndVerify gameId salt dealtCards cardPositions st =
    (valid ← verify_loop (replayed_deck st gameId salt) dealtCards cardPositions
                         (length dealtCards) 0;
     Ok (valid, revealed_storage st gameId salt valid)).
Proof.
  intros Hvrf Hend Hlen Hsalt. unfold revealAndVerify.
  rewrite Hvrf, Hend, Hsalt, Z.eqb_refl, bool_decide_eq_true_2 by done.
  rewrite !require_true. cbv zeta. rewrite !game_set_game.
  change (pythSeed (set_gameEnded true (set_revealedSalt salt (game st gameId))))
    with (pythSeed (game st gameId)).
  fold (finalSeed st gameId salt).
  destruct (replayed_deck_cards st gameId salt) as (-> & _ & _). rewrite bind_Ok.
  destruct (verify_loop _ _ _ _ _) as [valid|e]; [|done]. rewrite !bind_Ok.
  unfold revealed_storage. by rewrite !set_game_twice.
Qed.

(** When one of them fails, the call reverts. *)
Lemma reveal_checks (st : Storage) (gameId salt : Z) (dealtCards cardPositions : list Z) :
  (∃ reason, revealAndVerify gameId salt dealtCards cardPositions st = Err (Revert reason))
  ∨ (vrfFulfilled (game st gameId) = true
     ∧ gameEnded (game st gameId) = false
     ∧ length dealtCards = length cardPositions
     ∧ Keccak.keccak256 (be_bytes 32 salt) = saltHash (game st gameId)).
Proof.
  unfold revealAndVerify.
  destruct (vrfFulfilled (game st gameId)) eqn:Hvrf; [|left; by eexists].
  rewrite require_true.
  destruct (gameEnded (game st gameId)) eqn:Hend; [left; by eexists|].
  rewrite require_true.
  case_bool_decide as Hlen; [|left; by eexists]. rewrite require_true.
  destruct (Z.eqb_spec (Keccak.keccak256 (be_bytes 32 salt)) (saltHash (game st gameId)))
    as [Hsalt|Hsalt]; [|left; by eexists].
  by right.
Qed.

(** C4. For every session whose randomness has been fulfilled and every
    choice of dealtCards and cardPositions, revealAndVerify called with a salt
    whose hash is not the stored saltHash fails: the call reverts, so it
    returns no validity result, and the storage (in particular the session,
    which is not marked ended) is what it was. *)
Theorem reveal_with_wrong_salt_fails (st : Storage) (gameId salt : Z)
    (dealtCards cardPositions : list Z) :
  vrfFulfilled (game st gameId) = true →
  Keccak.keccak256 (be_bytes 32 salt) ≠ saltHash (game st gameId) →
  (∃ reason, revealAndVerify gameId salt dealtCards cardPositions st = Err (Revert reason))
  ∧ storage_after st (revealAndVerify gameId salt dealtCards cardPositions st) = st.
Proof.
  intros Hvrf Hsalt.
  destruct (reveal_checks st gameId salt dealtCards cardPositions)
    as [[reason Hr]|(_ & _ & _ & Heq)]; [|done].
  split; [by exists reason|by rewrite Hr].
Qed.

Lemma reveal_with_wrong_salt_fails_witness :
  (∃ reason, revealAndVerify 1 2 [45; 1] [0; 1] fulfilled_storage = Err (Revert reason))
  ∧ storage_after fulfilled_storage (revealAndVerify 1 2 [45; 1] [0; 1] fulfilled_storage)
    = fulfilled_storage.
Proof.
  apply reveal_with_wrong_salt_fails.
  - reflexivity.
  - vm_compute. discriminate.
Defined.

(** The loop reverts at the first position that is 52 or more, when the
    pairs claimed before it all match the deck. *)
Lemma verify_loop_invalid_position (deck dealtCards cardPositions : list Z)
    (k : nat) (pos : Z) :
  Forall (λ d, 0 ≤ d < 52) deck →
  length dealtCards = length cardPositions →
  cardPositions !! k = Some pos → 52 ≤ pos →
  (∀ i, (i < k)%nat → pair_matches deck dealtCards cardPositions i) →
  ∀ (m i : nat), (i + m = k)%nat →
    verify_loop deck dealtCards cardPositions (length dealtCards - i) (Z.of_nat i)
    = Err (Revert "invalid position").
Proof.
  intros Hdeck Hlen Hk Hpos Hprefix.
  pose proof (lookup_lt_Some _ _ _ Hk) as Hklt.
  induction m as [|m IH]; intros i Hi.
  - replace i with k by lia.
    destruct (length dealtCards - k)%nat as [|n] eqn:Hn; [lia|].
    simpl. rewrite (index_lookup _ _ _ Hk), bind_Ok.
    destruct (Z.ltb_spec pos 52); [lia|]. reflexivity.
  - destruct (length dealtCards - i)%nat as [|n] eqn:Hn; [lia|].
    destruct (Hprefix i ltac:(lia)) as (p & c & Hp & Hc & Hrange & Hd).
    simpl. rewrite (index_lookup _ _ _ Hp), bind_Ok.
    destruct (Z.ltb_spec p 52); [|lia]. rewrite require_true.
    rewrite <- (Z2Nat.id p) at 1 by lia.
    rewrite (index_lookup _ _ _ Hd), bind_Ok.
    rewrite (index_lookup _ _ _ Hc), bind_Ok.
    assert (Hbyte : uint8 c = c).
    { unfold uint8. apply Z.mod_small.
      pose proof (proj1 (Forall_forall _ _) Hdeck c (list_elem_of_lookup_2 _ _ _ Hd)).
      simpl in *. lia. }
    rewrite Hbyte, Z.eqb_refl. simpl negb. cbv iota.
    replace n with (length dealtCards - S i)%nat by lia.
    replace (Z.of_nat i + 1) with (Z.of_nat (S i)) by lia.
    apply IH. lia.
Qed.

(** C5 as stated fails: a position of 52 claimed after a pair that does not
    match is never looked at.  On the sample session, with the right salt,
    the claim (card 200 at position 0; card 0 at position 52) does not abort:
    the call returns [false] and marks the session ended. *)
Lemma position_52_after_mismatch_not_rejected :
  vrfFulfilled (game fulfilled_storage 1) = true
  ∧ gameEnded (game fulfilled_storage 1) = false
  ∧ [0; 52] !! 1%nat = Some 52
  ∧ revealAndVerify 1 1 [200; 0] [0; 52] fulfilled_storage
    = Ok (false, revealed_storage fulfilled_storage 1 1 false)
  ∧ gameEnded (game (revealed_storage fulfilled_storage 1 1 false) 1) = true
  ∧ storage_after fulfilled_storage (revealAndVerify 1 1 [200; 0] [0; 52] fulfilled_storage)
    ≠ fulfilled_storage.
Proof.
  assert (Hrun : revealAndVerify 1 1 [200; 0] [0; 52] fulfilled_storage
                 = Ok (false, revealed_storage fulfilled_storage 1 1 false)).
  { rewrite reveal_after_checks; [|reflexivity|reflexivity|reflexivity|].
    - by rewrite replayed_sample_deck.
    - apply keccak256_uint256_one. }
  split; [reflexivity|]. split; [reflexivity|]. split; [reflexivity|].
  split; [exact Hrun|]. split; [reflexivity|].
  rewrite Hrun. simpl. intros Heq.
  apply (f_equal (λ st, gameEnded (game st 1))) in Heq. discriminate Heq.
Qed.

(** C5, amended. A commitment for a session id that has one, a reveal before
    the randomness is fulfilled, a salt that does not hash to the commitment,
    and a claimed position of 52 or more that the verification reaches (every
    pair claimed before it matches the replayed deck) make the call revert,
    and the storage, hence the session record, is what it was before the call. *)
Theorem protocol_violations_revert (st : Storage) (sender gameId saltHash_ salt : Z)
    (dealtCards cardPositions : list Z) :
  (saltHash (game st gameId) ≠ 0 →
     commitSalt sender gameId saltHash_ st = Err (Revert "already committed")
     ∧ storage_after_void st (commitSalt sender gameId saltHash_ st) = st)
  ∧ (vrfFulfilled (game st gameId) = false
     ∨ Keccak.keccak256 (be_bytes 32 salt) ≠ saltHash (game st gameId)
     ∨ (∃ (k : nat) (pos : Z),
          cardPositions !! k = Some pos ∧ 52 ≤ pos
          ∧ ∀ i, (i < k)%nat →
              pair_matches (replayed_deck st gameId salt) dealtCards cardPositions i) →
     (∃ reason,
        revealAndVerify gameId salt dealtCards cardPositions st = Err (Revert reason))
     ∧ storage_after st (revealAndVerify gameId salt dealtCards cardPositions st) = st).
Proof.
  split.
  - intros Hcommitted. unfold commitSalt.
    destruct (Z.eqb_spec (saltHash (game st gameId)) 0); [done|].
    by rewrite require_false.
  - intros Hviolation.
    assert (∃ reason,
      revealAndVerify gameId salt dealtCards cardPositions st = Err (Revert reason))
      as [reason Hr]; [|split; [by exists reason|by rewrite Hr]].
    destruct (reveal_checks st gameId salt dealtCards cardPositions)
      as [Hrev|(Hvrf & Hend & Hlen & Hsalt)]; [done|].
    destruct Hviolation as [Hno|[Hbad|(k & pos & Hk & Hpos & Hprefix)]];
      [congruence|done|].
    rewrite reveal_after_checks by done.
    destruct (replayed_deck_cards st gameId salt) as (_ & _ & Hdeck).
    pose proof (verify_loop_invalid_position _ _ _ k pos Hdeck Hlen Hk Hpos Hprefix
                  k 0%nat ltac:(lia)) as Hloop.
    rewrite Nat.sub_0_r in Hloop. change (Z.of_nat 0) with 0 in Hloop.
    rewrite Hloop. by eexists.
Qed.

Lemma protocol_violations_revert_witness :
  (commitSalt 0xB0B 1 committed_hash fulfilled_storage = Err (Revert "already committed")
   ∧ storage_after_void fulfilled_storage
       (commitSalt 0xB0B 1 committed_hash fulfilled_storage) = fulfilled_storage)
  ∧ ((∃ reason,
        revealAndVerify 1 1 [45; 0] [0; 52] fulfilled_storage = Err (Revert reason))
     ∧ storage_after fulfilled_storage
         (revealAndVerify 1 1 [45; 0] [0; 52] fulfilled_storage) = fulfilled_storage).
Proof.
  split.
  - apply (proj1 (protocol_violations_revert fulfilled_storage 0xB0B 1 committed_hash 1
                    [45; 0] [0; 52])).
    vm_compute. discriminate.
  - apply (proj2 (protocol_violations_revert fulfilled_storage 0xB0B 1 committed_hash 1
                    [45; 0] [0; 52])).
    right. right. exists 1%nat, 52. split; [reflexivity|]. split; [lia|].
    intros i Hi. assert (i = 0%nat) as -> by lia.
    exists 0, 45. rewrite replayed_sample_deck.
    split; [reflexivity|]. split; [reflexivity|]. split; [lia|reflexivity].
Defined.

End DealerTheory.

(** ** PokerEngine: hand evaluation and showdown *)

Module ShowdownTheory.
Import Engine Spec EngineSamples.

Example evaluate_wheel : evaluateHand wheel_hand = Ok wheel_eval.
Proof. vm_compute. reflexivity. Qed.

Example evaluate_six_high : evaluateHand six_high_hand = Ok six_high_eval.
Proof. vm_compute. reflexivity. Qed.

Example evaluate_ace_high : evaluateHand ace_high_hand = Ok ace_high_eval.
Proof. vm_compute. reflexivity. Qed.

Example evaluate_royal_flush : evaluateHand royal_flush_hand = Ok royal_flush_eval.
Proof. vm_compute. reflexivity. Qed.

(** C3. On {A♦,2♣,3♥,4♠,5♦} evaluateHand returns rank Straight, not High
    Card; but its value, 5000014, is above the 5000006 of the 6-high straight,
    and at a showdown between the two the engine declares the holder of the
    wheel the only winner and pays that player the pot: the code ranks the
    wheel above the 6-high straight, not below. *)
Theorem wheel_ranked_above_six_high :
  evaluateHand wheel_hand = Ok wheel_eval
  ∧ evaluateHand six_high_hand = Ok six_high_eval
  ∧ HandEvaluation.rank wheel_eval = Straight
  ∧ HandEvaluation.rank six_high_eval = Straight
  ∧ num_lt (HandEvaluation.value six_high_eval) (HandEvaluation.value wheel_eval)
  ∧ best_ids [(0, wheel_eval); (1, six_high_eval)] = [0]
  ∧ evaluations (evaluateWinners straights_table) = [(0, wheel_eval); (1, six_high_eval)]
  ∧ winners (evaluateWinners straights_table) = [Some 0]
  ∧ stacks straights_table = [900; 900]
  ∧ stacks <$> settlePot straights_table = Ok [1100; 900].
Proof.
  split; [apply evaluate_wheel|]. split; [apply evaluate_six_high|].
  split; [reflexivity|]. split; [reflexivity|].
  split; [simpl; lia|]. split; [vm_compute; reflexivity|].
  split; [vm_compute; reflexivity|]. split; [vm_compute; reflexivity|].
  split; vm_compute; reflexivity.
Qed.

(** C2 as stated fails: the ace-high hand {A♣,K♦,Q♥,J♠,9♣} is a High Card
    hand of value 1414121109, above the 10000000 of a Royal Flush; the engine
    still declares the Royal Flush the winner, because it compares ranks
    before values. *)
Lemma high_card_value_above_royal_flush :
  evaluateHand ace_high_hand = Ok ace_high_eval
  ∧ evaluateHand royal_flush_hand = Ok royal_flush_eval
  ∧ HandRank_value (HandEvaluation.rank ace_high_eval)
    < HandRank_value (HandEvaluation.rank royal_flush_eval)
  ∧ num_lt (HandEvaluation.value royal_flush_eval) (HandEvaluation.value ace_high_eval)
  ∧ best_ids [(0, ace_high_eval); (1, royal_flush_eval)] = [1].
Proof.
  split; [apply evaluate_ace_high|]. split; [apply evaluate_royal_flush|].
  split; [simpl; lia|]. split; [simpl; lia|]. vm_compute. reflexivity.
Qed.

(** *** [Math.max] *)

Lemma num_le_refl (a : num) : a ≠ NaN → num_le a a.
Proof. destruct a; simpl; [lia|done|done]. Qed.

Lemma num_le_trans (a b c : num) : num_le a b → num_le b c → num_le a c.
Proof. destruct a, b, c; simpl; try done; lia. Qed.

Lemma num_le_antisym (a b : num) : num_le a b → num_le b a → a = b.
Proof. destruct a, b; simpl; try done. intros. f_equal. lia. Qed.

Lemma num_le_not_NaN (a b : num) : num_le a b → a ≠ NaN ∧ b ≠ NaN.
Proof. by destruct a, b. Qed.

Lemma num_eqb_true (a b : num) : num_eqb a b = true ↔ a = b ∧ a ≠ NaN.
Proof.
  destruct a, b; simpl; try by intuition discriminate.
  rewrite Z.eqb_eq. split; [intros ->; done|intros [[= ->] _]; done].
Qed.

Lemma num_max2_NaN_l (b : num) : num_max2 NaN b = NaN.
Proof. by destruct b. Qed.

Lemma num_max2_spec (a b : num) :
  a ≠ NaN → b ≠ NaN →
  let m := num_max2 a b in
  m ≠ NaN ∧ num_le a m ∧ num_le b m ∧ (m = a ∨ m = b).
Proof.
  destruct a as [x| |], b as [y| |]; simpl; intros ??; try done.
  - repeat split; try done; try lia.
    destruct (Z.max_spec x y) as [[? ->]|[? ->]]; auto.
  - repeat split; try done; auto.
  - repeat split; try done; auto.
  - repeat split; try done; auto.
Qed.

Lemma foldl_max_NaN (l : list num) : foldl num_max2 NaN l = NaN.
Proof. induction l as [|x l IH]; [done|]. simpl. rewrite ?num_max2_NaN_l. apply IH. Qed.

Lemma foldl_max_has_NaN (l : list num) (acc : num) :
  NaN ∈ l → foldl num_max2 acc l = NaN.
Proof.
  revert acc. induction l as [|x l IH]; intros acc Hin; [by apply elem_of_nil in Hin|].
  apply elem_of_cons in Hin as [<-|Hin]; simpl.
  - replace (num_max2 acc NaN) with NaN by (by destruct acc). apply foldl_max_NaN.
  - by apply IH.
Qed.

Lemma foldl_max_spec (l : list num) (acc : num) :
  acc ≠ NaN → NaN ∉ l →
  let m := foldl num_max2 acc l in
  m ≠ NaN ∧ num_le acc m ∧ (∀ x, x ∈ l → num_le x m) ∧ (m = acc ∨ m ∈ l).
Proof.
  revert acc. induction l as [|x l IH]; intros acc Hacc Hl; simpl.
  - split; [done|]. split; [by apply num_le_refl|]. split; [|by left].
    intros x Hx. by apply elem_of_nil in Hx.
  - apply not_elem_of_cons in Hl as [Hx Hl].
    destruct (num_max2_spec acc x Hacc ltac:(done)) as (Hm & Ha & Hxm & Hor).
    destruct (IH (num_max2 acc x) Hm Hl) as (Hm' & Hle & Hall & Hor').
    split; [done|]. split; [by eapply num_le_trans|]. split.
    + intros y [->|Hy]%elem_of_cons; [by eapply num_le_trans|by apply Hall].
    + destruct Hor' as [->|Hin]; [|right; by right].
      destruct Hor as [->| ->]; [by left|right; by left].
Qed.

Lemma Math_max_NaN (l : list num) : NaN ∈ l → Math_max l = NaN.
Proof. apply foldl_max_has_NaN. Qed.

Lemma Math_max_spec (l : list num) :
  NaN ∉ l →
  Math_max l ≠ NaN
  ∧ (∀ x, x ∈ l → num_le x (Math_max l))
  ∧ (l ≠ [] → Math_max l ∈ l).
Proof.
  intros Hl. destruct (foldl_max_spec l NegInfinity ltac:(done) Hl) as (Hm & _ & Hall & Hor).
  split; [done|]. split; [done|]. intros Hne.
  destruct Hor as [Heq|Hin]; [|done].
  destruct l as [|x l]; [done|].
  pose proof (Hall x ltac:(by left)) as Hx. unfold Math_max in *. rewrite Heq in Hx |- *.
  destruct x; try done. by left.
Qed.

(** *** The selection of the winners *)

Lemma HandRank_value_inj (a b : HandRank) :
  HandRank_value a = HandRank_value b → a = b.
Proof. destruct a, b; simpl; intros H; try reflexivity; discriminate H. Qed.

Lemma rank_num_le (a b : HandEvaluation.t) :
  num_le (rank_num a) (rank_num b)
  ↔ HandRank_value (HandEvaluation.rank a) ≤ HandRank_value (HandEvaluation.rank b).
Proof. reflexivity. Qed.

Lemma rank_nums_no_NaN (evs : list (Z * HandEvaluation.t)) :
  NaN ∉ (λ e, rank_num e.2) <$> evs.
Proof. intros (e & Heq & _)%list_elem_of_fmap. discriminate Heq. Qed.

(** The ids kept by [best_ids] are those of the evaluations that are at least
    as good as every evaluation. *)
Lemma best_ids_spec (evs : list (Z * HandEvaluation.t)) (id : Z) :
  id ∈ best_ids evs
  ↔ ∃ ev, (id, ev) ∈ evs ∧ ∀ e', e' ∈ evs → at_least ev e'.2.
Proof.
  unfold best_ids.
  set (ranks := (λ e, rank_num e.2) <$> evs).
  set (top := filter _ evs).
  set (values := (λ e, HandEvaluation.value e.2) <$> top).
  destruct (Math_max_spec ranks (rank_nums_no_NaN evs)) as (_ & Hrmax & Hrin).
  assert (Htop : ∀ e, e ∈ top ↔ e ∈ evs ∧ rank_num e.2 = Math_max ranks).
  { intros e. unfold top. rewrite list_elem_of_filter, num_eqb_true.
    split; [intros [[? _] ?]; done|intros [? ?]; done]. }
  split.
  - intros (e & -> & He)%list_elem_of_fmap.
    apply list_elem_of_filter in He as [Hval Hetop].
    apply num_eqb_true in Hval as [Hval Hnan].
    pose proof (proj1 (Htop e) Hetop) as [Hein Herank].
    exists e.2. split; [by destruct e|].
    intros e' He'.
    assert (Hle : num_le (rank_num e'.2) (rank_num e.2)).
    { rewrite Herank. apply Hrmax. apply list_elem_of_fmap. by exists e'. }
    rewrite rank_num_le in Hle.
    destruct (decide (HandRank_value (HandEvaluation.rank e'.2)
                      = HandRank_value (HandEvaluation.rank e.2))) as [Heq|Hne];
      [|left; lia].
    right. split; [symmetry; by apply HandRank_value_inj|].
    assert (He'top : e' ∈ top).
    { apply Htop. split; [done|]. rewrite <- Herank. unfold rank_num. by rewrite Heq. }
    assert (Hnonan : NaN ∉ values).
    { intros Hin. apply Math_max_NaN in Hin. congruence. }
    destruct (Math_max_spec values Hnonan) as (_ & Hvmax & _).
    rewrite Hval. apply Hvmax. apply list_elem_of_fmap. by exists e'.
  - intros (ev & Hin & Hbest).
    assert (Hrank : rank_num ev = Math_max ranks).
    { assert (Hne : ranks ≠ []).
      { intros Hnil%fmap_nil_inv. rewrite Hnil in Hin. by apply elem_of_nil in Hin. }
      pose proof (Hrin Hne) as (e'' & Heq & He'')%list_elem_of_fmap.
      apply num_le_antisym.
      - apply Hrmax. apply list_elem_of_fmap. by exists (id, ev).
      - rewrite Heq. apply rank_num_le.
        destruct (Hbest e'' He'') as [?|[-> _]]; [lia|done]. }
    assert (Hevtop : (id, ev) ∈ top) by by apply Htop.
    assert (Hall : ∀ e', e' ∈ top → num_le (HandEvaluation.value e'.2)
                                           (HandEvaluation.value ev)).
    { intros e' [He' Hr']%Htop.
      destruct (Hbest e' He') as [Hlt|[_ Hle]]; [|done].
      rewrite <- Hrank in Hr'. injection Hr' as Hr'. lia. }
    assert (Hnonan : NaN ∉ values).
    { intros (e' & Heq & He')%list_elem_of_fmap.
      apply Hall, num_le_not_NaN in He' as [Hn _]. by rewrite <- Heq in Hn. }
    destruct (Math_max_spec values Hnonan) as (_ & Hvmax & Hvin).
    assert (Hne : values ≠ []).
    { intros Hnil%fmap_nil_inv. rewrite Hnil in Hevtop. by apply elem_of_nil in Hevtop. }
    pose proof (Hvin Hne) as (e'' & Heq & He'')%list_elem_of_fmap.
    apply list_elem_of_fmap. exists (id, ev). split; [done|].
    apply list_elem_of_filter. split; [|done].
    apply num_eqb_true. split.
    + apply num_le_antisym.
      * apply Hvmax. apply list_elem_of_fmap. by exists (id, ev).
      * rewrite Heq. by apply Hall.
    + by destruct (num_le_not_NaN _ _ (Hall _ Hevtop)).
Qed.

(** C2, amended. Comparing values decides the winner only among evaluations
    of the same rank: evaluateWinners keeps the evaluations of the highest
    rank and, among those, the ones of the highest value.  Its winners are
    the players whose evaluation is at least as good as every evaluation
    made, where a higher rank is better whatever the values, and equal ranks
    are compared by value. *)
Theorem winners_by_rank_then_value (gs : GameState) :
  let r := evaluateWinners gs in
  (evaluations r ≠ [] →
     winners r = player_ref gs <$> best_ids (evaluations r))
  ∧ ∀ id : Z,
      id ∈ best_ids (evaluations r)
      ↔ ∃ ev, (id, ev) ∈ evaluations r
              ∧ ∀ e', e' ∈ evaluations r → at_least ev e'.2.
Proof.
  intros r. split; [|intros id; apply best_ids_spec].
  subst r. unfold evaluateWinners.
  case_bool_decide; [done|].
  case_bool_decide as Hlen; [|done].
  simpl. intros Hne. by apply nil_length_inv in Hlen.
Qed.

Lemma winners_by_rank_then_value_witness :
  winners (evaluateWinners straights_table)
  = player_ref straights_table
      <$> best_ids (evaluations (evaluateWinners straights_table)).
Proof.
  apply (proj1 (winners_by_rank_then_value straights_table)).
  vm_compute. discriminate.
Defined.

End ShowdownTheory.

(** ** PokerEngine: side pots *)

Module SidePotTheory.
Import Engine Spec EngineSamples.

(** C6. On the sample table (Ann all-in for 50, Bob and Cid in for 100 each,
    Dan folded after putting in 20, pot 270) calculateSidePots leaves two
    pots, 150 and 100: together 250, the 20 chips of the folded player are in
    no pot; and the second pot, made of the chips above Ann's all-in level
    of 50, lists Ann (seat 0) as eligible.  At settlement Ann, who holds the
    best hand, is paid both pots, and 20 chips leave the game. *)
Theorem side_pots_of_sample_table :
  sidePots (calculateSidePots side_pot_table)
  = [mkSidePot 150 [0; 1; 2]; mkSidePot 100 [0; 1; 2]]
  ∧ sum_Z (amount <$> sidePots (calculateSidePots side_pot_table)) = 250
  ∧ sum_Z (Player.totalBetInRound <$> players side_pot_table) = 270
  ∧ pot side_pot_table = 270
  ∧ Player.totalBetInRound <$> players side_pot_table = [50; 100; 100; 20]
  ∧ stacks side_pot_table = [0; 900; 900; 980]
  ∧ stacks <$> settlePot side_pot_table = Ok [250; 900; 900; 980].
Proof. vm_compute. repeat split. Qed.

(** The sibling path of settlePot: with one player left in the hand the whole
    pot goes to that player, the chips of the player who folded included. *)
Example settle_single_remaining :
  pot heads_up_folded = 30
  ∧ stacks heads_up_folded = [980; 990]
  ∧ stacks <$> settlePot heads_up_folded = Ok [980; 1020].
Proof. vm_compute. repeat split. Qed.

(** *** What the computation guarantees *)

Lemma foldl_add (A : Type) (f : A → Z) (l : list A) (a : Z) :
  foldl (λ sum x, sum + f x) a l = a + sum_Z (f <$> l).
Proof.
  revert a. induction l as [|x l IH]; intros a; [simpl; lia|].
  rewrite fmap_cons. cbn [foldl sum_Z]. rewrite IH. lia.
Qed.

Lemma sum_Z_app (l1 l2 : list Z) : sum_Z (l1 ++ l2) = sum_Z l1 + sum_Z l2.
Proof. induction l1 as [|x l1 IH]; [done|]. cbn [app sum_Z]. lia. Qed.

Lemma sum_Z_fmap_sub (A : Type) (f g : A → Z) (l : list A) :
  sum_Z ((λ x, f x - g x) <$> l) = sum_Z (f <$> l) - sum_Z (g <$> l).
Proof. induction l as [|x l IH]; [done|]. rewrite !fmap_cons. cbn [sum_Z]. lia. Qed.

Lemma sum_Z_fmap_ext (A : Type) (f g : A → Z) (l : list A) :
  (∀ x, x ∈ l → f x = g x) → sum_Z (f <$> l) = sum_Z (g <$> l).
Proof.
  induction l as [|x l IH]; intros H; [done|].
  rewrite !fmap_cons. cbn [sum_Z].
  rewrite (H x) by by left. rewrite IH; [done|]. intros y Hy. apply H. by right.
Qed.

(** The sort in ascending order. *)
Lemma sort_insert_elem (x y : Z) (l : list Z) :
  y ∈ sort_insert (λ a b, a - b) x l ↔ y = x ∨ y ∈ l.
Proof.
  induction l as [|z l IH]; simpl.
  - rewrite list_elem_of_singleton, elem_of_nil. tauto.
  - case_match; rewrite !elem_of_cons; [done|]. rewrite IH. tauto.
Qed.

Lemma sort_by_elem (y : Z) (l : list Z) :
  y ∈ sort_by (λ a b, a - b) l ↔ y ∈ l.
Proof.
  induction l as [|x l IH]; simpl; [done|].
  rewrite sort_insert_elem, elem_of_cons, IH. done.
Qed.

Lemma sort_insert_sorted (x : Z) (l : list Z) :
  StronglySorted Z.le l → StronglySorted Z.le (sort_insert (λ a b, a - b) x l).
Proof.
  induction 1 as [|z l Hl IH Hz]; simpl.
  - repeat constructor.
  - destruct (Z.leb_spec (x - z) 0).
    + constructor; [by constructor|].
      constructor; [lia|]. eapply Forall_impl; [exact Hz|]. simpl. lia.
    + constructor; [done|].
      apply Forall_forall. intros y [->|Hy]%sort_insert_elem; [lia|].
      by apply (proj1 (Forall_forall _ _) Hz).
Qed.

Lemma sort_by_sorted (l : list Z) : StronglySorted Z.le (sort_by (λ a b, a - b) l).
Proof.
  induction l as [|x l IH]; simpl; [constructor|]. by apply sort_insert_sorted.
Qed.

Lemma level_amount_capped (ps : list Player.t) (previous amount : Z) :
  previous ≤ amount →
  level_amount ps previous amount = capped ps amount - capped ps previous.
Proof.
  intros Hle. unfold level_amount, capped.
  rewrite foldl_add, <- sum_Z_fmap_sub. rewrite Z.add_0_l.
  apply sum_Z_fmap_ext. intros p _. lia.
Qed.

Lemma level_loop_sum (ps : list Player.t) (levels : list Z) :
  ∀ (previous : Z) (pots : list SidePot),
    StronglySorted Z.le (previous :: levels) →
    let r := foldl (level_step ps) (previous, pots) levels in
    previous ≤ r.1
    ∧ sum_Z (amount <$> r.2)
      = sum_Z (amount <$> pots) + capped ps r.1 - capped ps previous.
Proof.
  induction levels as [|level levels IH]; intros previous pots Hsorted; simpl.
  - lia.
  - apply StronglySorted_inv in Hsorted as [Hrest Hall].
    apply Forall_cons in Hall as [Hle Hall].
    assert (Hsorted' : StronglySorted Z.le (level :: levels)).
    { by apply StronglySorted_inv in Hrest as [? ?]; constructor. }
    rewrite (level_amount_capped ps previous level Hle).
    destruct (Z.ltb_spec 0 (capped ps level - capped ps previous)) as [Hpos|Hzero].
    + destruct (IH level (pots ++ [mkSidePot (capped ps level - capped ps previous)
                  (Player.id <$> filter (λ p, level ≤ Player.totalBetInRound p) ps)])
                  Hsorted') as [Hle' Hsum].
      split; [lia|]. rewrite Hsum, fmap_app, sum_Z_app. simpl. lia.
    + destruct (IH level pots Hsorted') as [Hle' Hsum].
      split; [lia|]. rewrite Hsum.
      assert (capped ps previous ≤ capped ps level); [|lia].
      unfold capped. clear -Hle.
      induction ps as [|p ps IHp]; [done|]. rewrite !fmap_cons. cbn [sum_Z]. lia.
Qed.

(** The side pots add up to what the players still in the hand have put in;
    the chips of a player who folded are in none of them. *)
Lemma side_pots_sum (gs : GameState) :
  sum_Z (amount <$> sidePots (calculateSidePots gs))
  = sum_Z (Player.totalBetInRound <$> contributors gs).
Proof.
  unfold calculateSidePots.
  set (ps := contributors gs).
  set (levels := sort_by _ _).
  assert (Hps : ∀ p, p ∈ ps → 0 < Player.totalBetInRound p).
  { intros p [Hp _]%list_elem_of_filter.
    apply andb_true_iff in Hp as [_ Hp]. by apply Z.ltb_lt in Hp. }
  assert (Hsorted : StronglySorted Z.le (0 :: levels)).
  { constructor; [apply sort_by_sorted|].
    apply Forall_forall. intros x Hx. apply (proj1 (sort_by_elem _ _)) in Hx.
    apply list_elem_of_fmap in Hx as (p & -> & [_ Hp]%list_elem_of_filter).
    apply Hps in Hp. lia. }
  pose proof (level_loop_sum ps levels 0 [] Hsorted) as [Hle Hsum].
  destruct (foldl (level_step ps) (0, []) levels) as [previous pots].
  simpl in Hle, Hsum.
  assert (Hzero : capped ps 0 = 0).
  { unfold capped. clear -Hps. induction ps as [|p ps IH]; [done|].
    rewrite fmap_cons. cbn [sum_Z].
    rewrite IH by (intros q Hq; apply Hps; by right).
    pose proof (Hps p ltac:(by left)). lia. }
  assert (Hmain : foldl (λ sum player, sum + Z.max 0 (Player.totalBetInRound player - previous))
                        0 ps
                  = sum_Z (Player.totalBetInRound <$> ps) - capped ps previous).
  { rewrite foldl_add, Z.add_0_l. unfold capped. rewrite <- sum_Z_fmap_sub.
    apply sum_Z_fmap_ext. intros p _. lia. }
  rewrite Hmain.
  destruct (Z.ltb_spec 0 (sum_Z (Player.totalBetInRound <$> ps) - capped ps previous))
    as [Hpos|Hnone]; simpl.
  - rewrite fmap_app, sum_Z_app, Hsum. simpl. lia.
  - rewrite Hsum.
    assert (capped ps previous ≤ sum_Z (Player.totalBetInRound <$> ps)); [|lia].
    unfold capped. clear.
    induction ps as [|p ps IH]; [done|]. rewrite !fmap_cons. cbn [sum_Z]. lia.
Qed.

(** Every pot formed in the loop over the all-in levels lists exactly the
    players still in the hand who have put in at least that level. *)
Lemma level_pots_eligible (ps : list Player.t) (levels : list Z) :
  ∀ (previous : Z) (pots : list SidePot) (sp : SidePot),
    sp ∈ (foldl (level_step ps) (previous, pots) levels).2 →
    sp ∈ pots
    ∨ ∃ level, level ∈ levels
        ∧ eligiblePlayers sp
          = Player.id <$> filter (λ p, level ≤ Player.totalBetInRound p) ps.
Proof.
  induction levels as [|level levels IH]; intros previous pots sp; simpl; [by left|].
  intros Hin. apply IH in Hin as [Hin|(lv & Hlv & Heq)].
  - case_match; [|by left].
    apply elem_of_app in Hin as [Hin|Hin%list_elem_of_singleton]; [by left|].
    right. exists level. split; [by left|]. by subst sp.
  - right. exists lv. split; [by right|done].
Qed.

(** The side pots are the pots of the levels followed, if chips remain above
    the last level, by one pot open to every player still in the hand. *)
Lemma side_pots_shape (gs : GameState) :
  ∃ (levels : list Z) (main : list SidePot),
    (∀ level, level ∈ levels →
       ∃ p, p ∈ contributors gs ∧ Player.isAllIn p = true
            ∧ Player.totalBetInRound p = level)
    ∧ sidePots (calculateSidePots gs)
      = (foldl (level_step (contributors gs)) (0, []) levels).2 ++ main
    ∧ (main = []
       ∨ ∃ rest, main = [mkSidePot rest (Player.id <$> contributors gs)]).
Proof.
  unfold calculateSidePots.
  set (ps := contributors gs). set (levels := sort_by _ _).
  exists levels.
  destruct (foldl (level_step ps) (0, []) levels) as [previous pots].
  set (rest := foldl _ 0 ps).
  exists (if 0 <? rest then [mkSidePot rest (Player.id <$> ps)] else []).
  split; [|split].
  - intros level Hl. apply (proj1 (sort_by_elem _ _)) in Hl.
    apply list_elem_of_fmap in Hl as (p & -> & [Hall Hp]%list_elem_of_filter).
    by exists p.
  - simpl. case_match; [done|by rewrite app_nil_r].
  - case_match; [right; by eexists|by left].
Qed.

End SidePotTheory.

(** ** PokerEngine: the player actions *)

Module ActionTheory.
Import Engine Spec EngineSamples.

(** *** Seats *)

Lemma at_index_Some {A} (l : list A) (i : Z) (a : A) :
  at_index l i = Some a ↔ 0 ≤ i ∧ l !! Z.to_nat i = Some a.
Proof.
  unfold at_index. destruct (Z.ltb_spec i 0); [|tauto].
  split; [done|lia].
Qed.

Lemma at_index_in_range {A} (l : list A) (i : Z) :
  0 ≤ i < Z.of_nat (length l) → ∃ a, at_index l i = Some a.
Proof.
  intros Hi. destruct (lookup_lt_is_Some_2 l (Z.to_nat i)) as [a Ha]; [lia|].
  exists a. apply at_index_Some. split; [lia|done].
Qed.

Lemma player_at_Ok (gs : GameState) (i : Z) (p : Player.t) :
  player_at gs i = Ok p ↔ 0 ≤ i ∧ players gs !! Z.to_nat i = Some p.
Proof.
  unfold player_at. rewrite <- at_index_Some.
  destruct (at_index (players gs) i); simpl; split; congruence.
Qed.

Lemma player_at_in_range (gs : GameState) (i : Z) :
  0 ≤ i < Z.of_nat (length (players gs)) → ∃ p, player_at gs i = Ok p.
Proof.
  intros Hi. destruct (at_index_in_range (players gs) i Hi) as [p Hp].
  exists p. unfold player_at. by rewrite Hp.
Qed.

Lemma rem_in_range (a n : Z) : 0 ≤ a → 0 < n → 0 ≤ Z.rem a n < n.
Proof. intros. by apply Z.rem_bound_pos. Qed.

(** *** Steps that move no chips *)

Lemma keeps_chips_refl (gs : GameState) : keeps_chips gs gs.
Proof. done. Qed.

Lemma keeps_chips_trans (gs1 gs2 gs3 : GameState) :
  keeps_chips gs1 gs2 → keeps_chips gs2 gs3 → keeps_chips gs1 gs3.
Proof. intros (?&?&?) (?&?&?). repeat split; congruence. Qed.

Lemma keeps_chips_length (gs gs' : GameState) :
  keeps_chips gs gs' → length (players gs') = length (players gs).
Proof.
  intros (Hst & _). unfold stacks in Hst.
  apply (f_equal length) in Hst. by rewrite !length_fmap in Hst.
Qed.

Lemma advanceFrom_loop_keeps (startIdx : Z) (gs : GameState) (count : nat) :
  ∀ offset, 0 ≤ startIdx → 0 ≤ offset → (count ≤ length (players gs))%nat →
    ∃ gs', advanceFrom_loop startIdx count offset gs = Ok gs' ∧ keeps_chips gs gs'.
Proof.
  induction count as [|count IH]; intros offset Hs Ho Hc; simpl.
  - by exists gs.
  - destruct (player_at_in_range gs
                (Z.rem (startIdx + offset) (Z.of_nat (length (players gs)))))
      as [p Hp]; [apply rem_in_range; lia|].
    rewrite Hp, bind_Ok. case_match; [by eexists|].
    apply IH; lia.
Qed.

Lemma advanceFrom_keeps (startIdx : Z) (gs : GameState) :
  0 ≤ startIdx → ∃ gs', advanceFrom startIdx gs = Ok gs' ∧ keeps_chips gs gs'.
Proof. intros. apply advanceFrom_loop_keeps; lia. Qed.

Lemma lastToAct_loop_keeps (gs : GameState) (count : nat) :
  ∀ offset, 0 ≤ dealerPosition gs → 0 ≤ offset →
    (Z.to_nat offset + count ≤ length (players gs))%nat →
    ∃ gs', lastToAct_loop count offset gs = Ok gs' ∧ keeps_chips gs gs'.
Proof.
  induction count as [|count IH]; intros offset Hd Ho Hc; simpl.
  - by exists gs.
  - destruct (player_at_in_range gs
                (Z.rem (dealerPosition gs - offset + Z.of_nat (length (players gs)))
                       (Z.of_nat (length (players gs)))))
      as [p Hp]; [apply rem_in_range; lia|].
    rewrite Hp, bind_Ok. case_match; [by eexists|].
    apply IH; lia.
Qed.

Lemma resetRoundBets_keeps (gs : GameState) :
  0 ≤ dealerPosition gs →
  ∃ gs', resetRoundBets gs = Ok gs' ∧ keeps_chips gs gs'.
Proof.
  intros Hd. unfold resetRoundBets.
  set (gs1 := set_currentBet 0 _).
  assert (Hk1 : keeps_chips gs gs1).
  { split; [|done]. unfold stacks. simpl. rewrite <- list_fmap_compose.
    by apply list_fmap_ext. }
  destruct (lastToAct_loop_keeps gs1 (length (players gs1)) 0) as (gs2 & -> & Hk2);
    [by destruct Hk1 as (_ & _ & ->)|done|simpl; lia|].
  rewrite bind_Ok. eexists. split; [done|].
  eapply keeps_chips_trans; [done|]. eapply keeps_chips_trans; [done|]. done.
Qed.

Lemma lastToAct_loop_stage (gs gs' : GameState) (count : nat) :
  ∀ offset, lastToAct_loop count offset gs = Ok gs' → stage gs' = stage gs.
Proof.
  induction count as [|count IH]; intros offset; simpl.
  - by intros [= <-].
  - destruct (player_at gs _) as [p|e]; simpl; [|done].
    case_match; [by intros [= <-]|apply IH].
Qed.

Lemma resetRoundBets_stage (gs gs' : GameState) :
  resetRoundBets gs = Ok gs' → stage gs' = stage gs.
Proof.
  unfold resetRoundBets.
  destruct (lastToAct_loop _ _ _) as [gs2|e] eqn:Hloop; simpl; [|done].
  intros [= <-]. by apply lastToAct_loop_stage in Hloop.
Qed.

Lemma deal_then_reset (n : nat) (gs : GameState) :
  0 ≤ dealerPosition gs →
  ∃ gs', resetRoundBets (deal_community n gs) = Ok gs' ∧ keeps_chips gs gs'
         ∧ stage gs' = stage gs.
Proof.
  intros Hd.
  destruct (resetRoundBets_keeps (deal_community n gs)) as (gs' & Heq & Hk); [done|].
  exists gs'. split; [done|]. split; [by eapply keeps_chips_trans|].
  by apply resetRoundBets_stage in Heq.
Qed.

Lemma nextStage_keeps (gs : GameState) :
  0 ≤ dealerPosition gs →
  ∃ gs', nextStage gs = Ok gs' ∧ keeps_chips gs gs'
         ∧ stages_left (stage gs') = pred (stages_left (stage gs)).
Proof.
  intros Hd. unfold nextStage.
  destruct (stage gs) eqn:Hst.
  - destruct (deal_then_reset 3 (addLog "--- Flop ---" (set_stage Flop gs)) Hd)
      as (gs' & Heq & Hk & Hs).
    exists gs'. split; [done|]. split; [done|]. by rewrite Hs.
  - destruct (deal_then_reset 1 (addLog "--- Turn ---" (set_stage Turn gs)) Hd)
      as (gs' & Heq & Hk & Hs).
    exists gs'. split; [done|]. split; [done|]. by rewrite Hs.
  - destruct (deal_then_reset 1 (addLog "--- River ---" (set_stage River gs)) Hd)
      as (gs' & Heq & Hk & Hs).
    exists gs'. split; [done|]. split; [done|]. by rewrite Hs.
  - exists (set_stage Showdown gs). by repeat split.
  - exists gs. repeat split. by rewrite Hst.
Qed.

(** The run-out loop is given enough iterations: it ends at the showdown. *)
Lemma runout_loop_keeps (count : nat) :
  ∀ gs, 0 ≤ dealerPosition gs → stages_left (stage gs) = count →
    ∃ gs', runout_loop count gs = Ok gs' ∧ keeps_chips gs gs' ∧ stage gs' = Showdown.
Proof.
  induction count as [|count IH]; intros gs Hd Hleft; simpl.
  - exists gs. repeat split. by destruct (stage gs).
  - case_bool_decide as Hs; [by rewrite Hs in Hleft|].
    destruct (nextStage_keeps gs Hd) as (gs1 & -> & Hk1 & Hleft1).
    rewrite bind_Ok.
    destruct (IH gs1) as (gs2 & -> & Hk2 & Hs2).
    { by destruct Hk1 as (_ & _ & ->). }
    { rewrite Hleft1, Hleft. done. }
    exists gs2. split; [done|]. split; [by eapply keeps_chips_trans|done].
Qed.

Lemma runout_keeps (gs : GameState) :
  0 ≤ dealerPosition gs →
  ∃ gs', runout gs = Ok gs' ∧ keeps_chips gs gs' ∧ stage gs' = Showdown.
Proof. intros. by apply runout_loop_keeps. Qed.

Lemma postActionHandler_keeps (originIdx : Z) (gs : GameState) :
  0 ≤ originIdx → 0 ≤ dealerPosition gs →
  ∃ gs', postActionHandler originIdx gs = Ok gs' ∧ keeps_chips gs gs'.
Proof.
  intros Ho Hd. unfold postActionHandler.
  set (gs0 := set_bettingActions _ gs).
  case_bool_decide; [by eexists|].
  destruct (advanceFrom_keeps originIdx gs0 Ho) as (gs1 & -> & Hk1). rewrite bind_Ok.
  assert (Hd1 : 0 ≤ dealerPosition gs1) by by destruct Hk1 as (_ & _ & ->).
  case_match; [|by exists gs1].
  destruct (nextStage_keeps gs1 Hd1) as (gs2 & -> & Hk2 & _). rewrite bind_Ok.
  assert (Hd2 : 0 ≤ dealerPosition gs2) by by destruct Hk2 as (_ & _ & ->).
  assert (Hk02 : keeps_chips gs gs2).
  { eapply keeps_chips_trans; [|done]. by eapply keeps_chips_trans. }
  case_bool_decide; [|by exists gs2].
  case_match.
  - destruct (runout_keeps gs2 Hd2) as (gs3 & -> & Hk3 & _).
    exists gs3. split; [done|]. by eapply keeps_chips_trans.
  - destruct (advanceFrom_keeps (dealerPosition gs2) gs2 Hd2) as (gs3 & -> & Hk3).
    exists gs3. split; [done|]. by eapply keeps_chips_trans.
Qed.

(** *** Wagers *)

Lemma chips_put_in (w : Z) (p : Player.t) :
  Player.chips (Player.put_in w p) = Player.chips p - w.
Proof. unfold Player.put_in. simpl. by case_match. Qed.

Lemma sum_Z_alter (f : Player.t → Player.t) (ps : list Player.t) (k : nat) (p : Player.t) :
  ps !! k = Some p →
  sum_Z (Player.chips <$> alter f k ps)
  = sum_Z (Player.chips <$> ps) - Player.chips p + Player.chips (f p).
Proof.
  revert k. induction ps as [|q ps IH]; intros k Hk; [done|].
  destruct k as [|k].
  - injection Hk as ->.
    replace (alter f 0%nat (p :: ps)) with (f p :: ps) by done.
    rewrite !fmap_cons. cbn [sum_Z]. lia.
  - replace (alter f (S k) (q :: ps)) with (q :: alter f k ps) by done.
    rewrite !fmap_cons. cbn [sum_Z]. rewrite (IH k Hk). lia.
Qed.

(** Putting [w] chips of the player at seat [i] into the pot, with [w] no
    more than that player's stack. *)
Lemma wager_moves_chips (gs : GameState) (i w : Z) (p : Player.t) (g : Player.t → Player.t) :
  player_at gs i = Ok p → w ≤ Player.chips p →
  Player.chips (g p) = Player.chips p - w →
  let gs' := set_pot (pot gs + w) (update_player i g gs) in
  chips_in_play gs' = chips_in_play gs
  ∧ (chips_nonneg gs → chips_nonneg gs')
  ∧ dealerPosition gs' = dealerPosition gs
  ∧ length (players gs') = length (players gs).
Proof.
  intros [Hi Hp]%player_at_Ok Hw Hg gs'.
  split; [|split; [|split]].
  - unfold chips_in_play, stacks. simpl.
    rewrite (sum_Z_alter _ _ _ p Hp), Hg. lia.
  - unfold chips_nonneg, stacks. simpl. rewrite !Forall_fmap.
    intros Hall. apply Forall_alter; [done|].
    intros q Hq _. simpl. assert (q = p) as -> by congruence. rewrite Hg. lia.
  - done.
  - simpl. by rewrite length_alter.
Qed.

Lemma conserves_after (gs gs1 : GameState) (originIdx : Z) :
  0 ≤ originIdx → 0 ≤ dealerPosition gs1 →
  chips_in_play gs1 = chips_in_play gs →
  (chips_nonneg gs → chips_nonneg gs1) →
  conserves gs (postActionHandler originIdx gs1).
Proof.
  intros Ho Hd Hsum Hnn.
  destruct (postActionHandler_keeps originIdx gs1 Ho Hd) as (gs2 & -> & Hst & Hpot & _).
  exists gs2. split; [done|]. unfold chips_in_play, chips_nonneg in *.
  rewrite Hst, Hpot. split; [done|]. tauto.
Qed.

Lemma conserves_refl (gs : GameState) : conserves gs (Ok gs).
Proof. by exists gs. Qed.

Lemma check_conserves (gs : GameState) (playerId : Z) :
  0 ≤ playerId < Z.of_nat (length (players gs)) → 0 ≤ dealerPosition gs →
  conserves gs (check playerId gs).
Proof.
  intros Hi Hd. unfold check.
  destruct (player_at_in_range gs playerId Hi) as [p ->]. rewrite bind_Ok.
  case_match; [apply conserves_refl|]. case_match; [apply conserves_refl|].
  apply conserves_after; [lia|done|done|done].
Qed.

Lemma call_conserves (gs : GameState) (playerId : Z) :
  0 ≤ playerId < Z.of_nat (length (players gs)) → 0 ≤ dealerPosition gs →
  conserves gs (call playerId gs).
Proof.
  intros Hi Hd. unfold call.
  destruct (player_at_in_range gs playerId Hi) as [p Hp]. rewrite Hp, bind_Ok.
  case_match; [apply conserves_refl|].
  case_match; [by apply check_conserves|].
  destruct (wager_moves_chips gs playerId
              (Z.min (currentBet gs - Player.currentBet p) (Player.chips p)) p
              (Player.put_in (Z.min (currentBet gs - Player.currentBet p) (Player.chips p)))
              Hp ltac:(lia) (chips_put_in _ _)) as (Hsum & Hnn & Hdl & _).
  apply conserves_after; [lia|by rewrite <- Hdl in Hd|exact Hsum|exact Hnn].
Qed.

Lemma bet_conserves (gs : GameState) (playerId amount : Z) (skipPost : bool) :
  0 ≤ playerId < Z.of_nat (length (players gs)) → 0 ≤ dealerPosition gs →
  conserves gs (bet playerId amount skipPost gs).
Proof.
  intros Hi Hd. unfold bet.
  destruct (player_at_in_range gs playerId Hi) as [p Hp]. rewrite Hp, bind_Ok.
  case_match; [apply conserves_refl|].
  case_match; [by apply call_conserves|].
  set (w := Z.min amount (Player.chips p)).
  destruct (wager_moves_chips gs playerId w p (λ _, Player.put_in w p)
              Hp ltac:(lia) (chips_put_in _ _)) as (Hsum & Hnn & Hdl & _).
  cbv zeta.
  set (gs1 := set_pot (pot _ + w) _) in *.
  set (gs2 := if _ <? _ then _ else gs1).
  assert (Hgs2 : chips_in_play gs2 = chips_in_play gs
                 ∧ (chips_nonneg gs → chips_nonneg gs2)
                 ∧ dealerPosition gs2 = dealerPosition gs).
  { subst gs2.
    destruct (currentBet gs <? Player.currentBet (Player.put_in w p));
      (split; [exact Hsum|split; [exact Hnn|exact Hdl]]). }
  destruct Hgs2 as (Hsum2 & Hnn2 & Hdl2).
  destruct skipPost; simpl.
  - by exists gs2.
  - apply conserves_after; [lia|by rewrite <- Hdl2 in Hd|exact Hsum2|exact Hnn2].
Qed.

Lemma allIn_conserves (gs : GameState) (playerId : Z) :
  0 ≤ playerId < Z.of_nat (length (players gs)) → 0 ≤ dealerPosition gs →
  conserves gs (allIn playerId gs).
Proof.
  intros Hi Hd. unfold allIn.
  destruct (player_at_in_range gs playerId Hi) as [p Hp]. rewrite Hp, bind_Ok.
  case_match; [apply conserves_refl|].
  destruct (bet_conserves (addLog (Player.name p +:+ " goes all-in ("
                                   +:+ pretty (Player.chips p) +:+ ")") gs)
              playerId (Player.chips p) false Hi Hd) as (gs1 & -> & Hsum & Hnn).
  rewrite bind_Ok. eexists. split; [done|].
  assert (Hst : stacks (update_player playerId (Player.set_isAllIn true) gs1) = stacks gs1).
  { clear. unfold stacks. simpl. apply list_eq. intros k.
    rewrite !list_lookup_fmap, list_lookup_alter.
    case_decide as Hk; [rewrite <- Hk|done]. by destruct (players gs1 !! _). }
  unfold chips_in_play, chips_nonneg in *. rewrite Hst. split; [exact Hsum|exact Hnn].
Qed.

Lemma postBlind_conserves (gs : GameState) (idx amount : Z) :
  0 ≤ idx < Z.of_nat (length (players gs)) →
  conserves gs (postBlind idx amount gs).
Proof.
  intros Hi. unfold postBlind.
  destruct (player_at_in_range gs idx Hi) as [p Hp]. rewrite Hp, bind_Ok.
  destruct (wager_moves_chips gs idx (Z.min amount (Player.chips p)) p
              (Player.put_in (Z.min amount (Player.chips p)))
              Hp ltac:(lia) (chips_put_in _ _)) as (Hsum & Hnn & _).
  by eexists.
Qed.

Lemma stacks_update (gs : GameState) (i : Z) (g : Player.t → Player.t) (p : Player.t) :
  player_at gs i = Ok p →
  stacks (update_player i g gs) = <[Z.to_nat i := Player.chips (g p)]> (stacks gs).
Proof.
  intros [Hi Hp]%player_at_Ok. unfold stacks. simpl. apply list_eq. intros k.
  rewrite list_lookup_fmap, list_lookup_alter.
  destruct (decide (Z.to_nat i = k)) as [<-|Hne].
  - rewrite list_lookup_insert_eq by (rewrite length_fmap; by eapply lookup_lt_Some).
    by rewrite Hp.
  - rewrite list_lookup_insert_ne by done. by rewrite list_lookup_fmap.
Qed.

Lemma stack_of_player (gs : GameState) (i : Z) (p : Player.t) :
  player_at gs i = Ok p → stacks gs !! Z.to_nat i = Some (Player.chips p).
Proof. intros [_ Hp]%player_at_Ok. unfold stacks. by rewrite list_lookup_fmap, Hp. Qed.

Lemma moved_nothing (gs : GameState) (seat c : Z) :
  stacks gs !! Z.to_nat seat = Some c → moved gs seat c 0 (Ok gs).
Proof.
  intros Hc. exists gs. split; [done|]. split; [|lia].
  rewrite Z.sub_0_r. by rewrite list_insert_id.
Qed.

Lemma moved_after (gs gs1 : GameState) (originIdx seat c w : Z) :
  0 ≤ originIdx → 0 ≤ dealerPosition gs1 →
  stacks gs1 = <[Z.to_nat seat := c - w]> (stacks gs) → pot gs1 = pot gs + w →
  moved gs seat c w (postActionHandler originIdx gs1).
Proof.
  intros Ho Hd Hst Hpot.
  destruct (postActionHandler_keeps originIdx gs1 Ho Hd) as (gs2 & -> & Hst2 & Hpot2 & _).
  exists gs2. split; [done|]. by rewrite Hst2, Hpot2.
Qed.

Lemma check_moved (gs : GameState) (playerId : Z) (p : Player.t) :
  player_at gs playerId = Ok p → 0 ≤ dealerPosition gs →
  moved gs playerId (Player.chips p) 0 (check playerId gs).
Proof.
  intros Hp Hd. pose proof Hp as [Hi _]%player_at_Ok.
  pose proof (stack_of_player _ _ _ Hp) as Hc.
  unfold check. rewrite Hp, bind_Ok.
  case_match; [by apply moved_nothing|]. case_match; [by apply moved_nothing|].
  apply moved_after; [done|done| |simpl; lia].
  rewrite Z.sub_0_r. by rewrite list_insert_id.
Qed.

Lemma call_moved (gs : GameState) (playerId : Z) (p : Player.t) :
  player_at gs playerId = Ok p → 0 ≤ dealerPosition gs → 0 ≤ Player.chips p →
  ∃ w, 0 ≤ w ≤ Player.chips p ∧ moved gs playerId (Player.chips p) w (call playerId gs).
Proof.
  intros Hp Hd Hc0. pose proof Hp as [Hi _]%player_at_Ok.
  unfold call. rewrite Hp, bind_Ok.
  case_match; [exists 0; split; [lia|by apply moved_nothing, stack_of_player]|].
  destruct (Z.leb_spec (currentBet gs - Player.currentBet p) 0) as [_|HtoCall].
  { exists 0. split; [lia|]. by apply check_moved. }
  set (w := Z.min (currentBet gs - Player.currentBet p) (Player.chips p)).
  exists w. split; [lia|].
  apply moved_after; [done|done| |done].
  transitivity (stacks (update_player playerId (Player.put_in w) gs)); [reflexivity|].
  by rewrite (stacks_update _ _ _ _ Hp), chips_put_in.
Qed.

Lemma bet_moved (gs : GameState) (playerId amount : Z) (skipPost : bool) (p : Player.t) :
  player_at gs playerId = Ok p → 0 ≤ dealerPosition gs → 0 ≤ Player.chips p →
  ∃ w, 0 ≤ w ≤ Player.chips p
       ∧ moved gs playerId (Player.chips p) w (bet playerId amount skipPost gs).
Proof.
  intros Hp Hd Hc0. pose proof Hp as [Hi _]%player_at_Ok.
  unfold bet. rewrite Hp, bind_Ok.
  destruct (_ || _ || _ || _ || (amount <=? 0)) eqn:Hguard.
  { exists 0. split; [lia|]. by apply moved_nothing, stack_of_player. }
  apply orb_false_iff in Hguard as [Hguard Hamount%Z.leb_gt].
  apply orb_false_iff in Hguard as [_ Hchips%Z.leb_gt].
  case_match; [by apply call_moved|].
  set (w := Z.min amount (Player.chips p)).
  exists w. split; [lia|].
  assert (Hst : stacks (update_player playerId (λ _, Player.put_in w p) gs)
                = <[Z.to_nat playerId := Player.chips p - w]> (stacks gs)).
  { by rewrite (stacks_update _ _ _ _ Hp), chips_put_in. }
  cbv zeta.
  set (gs1 := set_pot (pot _ + w) _).
  set (gs2 := if _ <? _ then _ else gs1).
  assert (Hgs2 : stacks gs2 = <[Z.to_nat playerId := Player.chips p - w]> (stacks gs)
                 ∧ pot gs2 = pot gs + w ∧ dealerPosition gs2 = dealerPosition gs).
  { subst gs2. destruct (currentBet gs <? Player.currentBet (Player.put_in w p));
      (split; [exact Hst|split; reflexivity]). }
  destruct Hgs2 as (Hst2 & Hpot2 & Hdl2).
  destruct skipPost; simpl.
  - by exists gs2.
  - apply moved_after; [done|by rewrite <- Hdl2 in Hd|exact Hst2|exact Hpot2].
Qed.

Lemma allIn_moved (gs : GameState) (playerId : Z) (p : Player.t) :
  player_at gs playerId = Ok p → 0 ≤ dealerPosition gs → 0 ≤ Player.chips p →
  ∃ w, 0 ≤ w ≤ Player.chips p
       ∧ moved gs playerId (Player.chips p) w (allIn playerId gs).
Proof.
  intros Hp Hd Hc0. pose proof Hp as [Hi Hlook]%player_at_Ok.
  unfold allIn. rewrite Hp, bind_Ok.
  case_match; [exists 0; split; [lia|by apply moved_nothing, stack_of_player]|].
  set (gs0 := addLog _ gs).
  destruct (bet_moved gs0 playerId (Player.chips p) false p Hp Hd Hc0)
    as (w & Hw & gs1 & Hbet & Hst & Hpot).
  exists w. split; [done|]. rewrite Hbet, bind_Ok. eexists. split; [done|].
  split; [|exact Hpot].
  transitivity (stacks gs1); [|exact Hst]. clear. unfold stacks. simpl. apply list_eq. intros k.
  rewrite !list_lookup_fmap, list_lookup_alter.
  case_decide as Hk; [rewrite <- Hk|done]. by destruct (players gs1 !! _).
Qed.

Lemma postBlind_moved (gs : GameState) (idx amount : Z) (p : Player.t) :
  player_at gs idx = Ok p →
  moved gs idx (Player.chips p) (Z.min amount (Player.chips p)) (postBlind idx amount gs).
Proof.
  intros Hp. unfold postBlind. rewrite Hp, bind_Ok. eexists. split; [done|].
  split; [|done].
  transitivity (stacks (update_player idx (Player.put_in (Z.min amount (Player.chips p))) gs));
    [reflexivity|].
  by rewrite (stacks_update _ _ _ _ Hp), chips_put_in.
Qed.

(** C9. A wager moves chips from a stack to the pot and nowhere else.  On a
    state whose amounts are in range, bet, call, allIn and the posting of a
    blind by the player at a seat return, and what they do to the chips is
    this: the stack of that player, of [c] chips, is left with [c - w] and the
    pot has grown by the same [w], every other stack being what it was.  The
    wager [w] is between 0 and [c] for bet, call and allIn, and is
    min(amount, c) for a blind: it is capped at the chips the player has
    left.  Hence the sum of all the players' chips and the pot is unchanged,
    and no stack is made negative. *)
Theorem wagers_conserve_chips (gs : GameState) (playerId amount : Z) (skipPost : bool) :
  0 ≤ playerId < Z.of_nat (length (players gs)) →
  amounts_in_range gs →
  - 2 ^ 52 ≤ amount ≤ 2 ^ 52 →
  ∃ c : Z,
    stacks gs !! Z.to_nat playerId = Some c
    ∧ (∃ w, 0 ≤ w ≤ c ∧ moved gs playerId c w (bet playerId amount skipPost gs))
    ∧ (∃ w, 0 ≤ w ≤ c ∧ moved gs playerId c w (call playerId gs))
    ∧ (∃ w, 0 ≤ w ≤ c ∧ moved gs playerId c w (allIn playerId gs))
    ∧ moved gs playerId c (Z.min amount c) (postBlind playerId amount gs)
    ∧ conserves gs (bet playerId amount skipPost gs)
    ∧ conserves gs (call playerId gs)
    ∧ conserves gs (allIn playerId gs)
    ∧ conserves gs (postBlind playerId amount gs).
Proof.
  intros Hi (Hplayers & _ & _ & _ & [Hd _] & _) _.
  destruct (player_at_in_range gs playerId Hi) as [p Hp].
  assert (Hc0 : 0 ≤ Player.chips p).
  { apply player_at_Ok in Hp as [_ Hp].
    apply (proj1 (Forall_forall _ _) Hplayers p (list_elem_of_lookup_2 _ _ _ Hp)). }
  exists (Player.chips p). split; [by apply stack_of_player|].
  split; [by apply bet_moved|]. split; [by apply call_moved|].
  split; [by apply allIn_moved|]. split; [by apply postBlind_moved|].
  split; [by apply bet_conserves|]. split; [by apply call_conserves|].
  split; [by apply allIn_conserves|by apply postBlind_conserves].
Qed.

Lemma wagers_conserve_chips_witness :
  ∃ c : Z,
    stacks heads_up_started !! Z.to_nat 1 = Some c
    ∧ (∃ w, 0 ≤ w ≤ c ∧ moved heads_up_started 1 c w (bet 1 40 false heads_up_started))
    ∧ (∃ w, 0 ≤ w ≤ c ∧ moved heads_up_started 1 c w (call 1 heads_up_started))
    ∧ (∃ w, 0 ≤ w ≤ c ∧ moved heads_up_started 1 c w (allIn 1 heads_up_started))
    ∧ moved heads_up_started 1 c (Z.min 40 c) (postBlind 1 40 heads_up_started)
    ∧ conserves heads_up_started (bet 1 40 false heads_up_started)
    ∧ conserves heads_up_started (call 1 heads_up_started)
    ∧ conserves heads_up_started (allIn 1 heads_up_started)
    ∧ conserves heads_up_started (postBlind 1 40 heads_up_started).
Proof.
  apply wagers_conserve_chips.
  - simpl. lia.
  - unfold amounts_in_range, in_range. simpl. repeat split; try lia.
    repeat constructor; simpl; lia.
  - lia.
Defined.

(** *** Actions out of turn *)

(** C8 as stated fails: the engine never compares the actor with
    currentPlayerIndex.  In the sample hand Bob (seat 1) is to act; a fold by
    Ann (seat 0) is applied all the same and ends the hand, and so is a bet
    by Ann. *)
Lemma out_of_turn_action_is_applied :
  currentPlayerIndex heads_up_started = 1
  ∧ is_Ok (player_at heads_up_started 0)
  ∧ fold 0 heads_up_started = Ok heads_up_folded
  ∧ heads_up_folded ≠ heads_up_started
  ∧ stage heads_up_folded = Showdown
  ∧ ∃ gs', bet 0 60 false heads_up_started = Ok gs' ∧ pot gs' = 90
           ∧ pot heads_up_started = 30.
Proof.
  split; [reflexivity|]. split; [by eexists|]. split; [vm_compute; reflexivity|].
  split; [intros H; apply (f_equal stage) in H; discriminate H|].
  split; [reflexivity|].
  eexists. split; [vm_compute; reflexivity|]. split; reflexivity.
Qed.

(** C8, amended. An action is silently absorbed (the state is unchanged and
    no error is signalled) when the player it names is out of the hand:
    folded, all-in, or the stage is the showdown; and, for every action but
    fold, when the player has no chips; a bet of no chips and a check that does not
    match the table's bet are absorbed too.  The seat of the player plays no
    part: the engine does not look at currentPlayerIndex. *)
Theorem actions_of_inert_player_absorbed (gs : GameState) (playerId amount : Z)
    (skipPost : bool) (player : Player.t) :
  player_at gs playerId = Ok player →
  (out_of_hand gs player →
     bet playerId amount skipPost gs = Ok gs ∧ check playerId gs = Ok gs
     ∧ call playerId gs = Ok gs ∧ fold playerId gs = Ok gs ∧ allIn playerId gs = Ok gs)
  ∧ (Player.chips player ≤ 0 →
     bet playerId amount skipPost gs = Ok gs ∧ check playerId gs = Ok gs
     ∧ call playerId gs = Ok gs ∧ allIn playerId gs = Ok gs)
  ∧ (amount ≤ 0 → bet playerId amount skipPost gs = Ok gs)
  ∧ (Player.currentBet player ≠ currentBet gs → check playerId gs = Ok gs).
Proof.
  intros Hp. unfold bet, check, call, fold, allIn, out_of_hand. rewrite Hp, !bind_Ok.
  split; [|split; [|split]].
  - intros Hout.
    assert (Player.isFolded player || Player.isAllIn player
            || bool_decide (stage gs = Showdown) = true) as Hguard.
    { destruct Hout as [->|[->|Hs]]; [done|by rewrite orb_true_r|].
      by rewrite (bool_decide_eq_true_2 _ Hs), orb_true_r. }
    by rewrite Hguard.
  - intros Hchips%Z.leb_le. by rewrite Hchips, !orb_true_r.
  - intros Hamount%Z.leb_le. by rewrite Hamount, !orb_true_r.
  - intros Hbet%Z.eqb_neq. rewrite Hbet. simpl. by case_match.
Qed.

Lemma actions_of_inert_player_absorbed_witness :
  bet 0 60 false heads_up_folded = Ok heads_up_folded
  ∧ check 0 heads_up_folded = Ok heads_up_folded
  ∧ call 0 heads_up_folded = Ok heads_up_folded
  ∧ fold 0 heads_up_folded = Ok heads_up_folded
  ∧ allIn 0 heads_up_folded = Ok heads_up_folded.
Proof.
  refine (proj1 (actions_of_inert_player_absorbed heads_up_folded 0 60 false _ _) _).
  - vm_compute. reflexivity.
  - left. reflexivity.
Defined.

End ActionTheory.

(** ** PokerEngine: starting a hand *)

Module HandSetupTheory.
Import Engine Spec EngineSamples ActionTheory.

(** *** The next seated player *)

Lemma seated_at_range (ps : list Player.t) (i : Z) :
  seated_at ps i → 0 ≤ i < Z.of_nat (length ps).
Proof.
  intros (p & [Hi Hp]%at_index_Some & _).
  apply lookup_lt_Some in Hp. lia.
Qed.

(** The loop returns the first seat, counting from [from + off], that holds a
    seated player. *)
Lemma nextIdx_loop_first_hit (ps : list Player.t) (from : Z) (count : nat) :
  ∀ off k : Z,
    0 ≤ from → 0 ≤ off → off ≤ k < off + Z.of_nat count →
    seated_at ps (Z.rem (from + k) (Z.of_nat (length ps))) →
    ∃ k', off ≤ k' ≤ k
          ∧ nextIdx_loop ps from count off
            = Ok (Z.rem (from + k') (Z.of_nat (length ps)))
          ∧ seated_at ps (Z.rem (from + k') (Z.of_nat (length ps))).
Proof.
  induction count as [|count IH]; intros off k Hfrom Hoff Hk Hseat; [lia|].
  assert (Hn : 0 < Z.of_nat (length ps)).
  { apply seated_at_range in Hseat. lia. }
  simpl.
  destruct (at_index_in_range ps (Z.rem (from + off) (Z.of_nat (length ps))))
    as [p Hp]; [apply rem_in_range; lia|].
  rewrite Hp. simpl. destruct (seated p) eqn:Hsp.
  - exists off. split; [lia|]. split; [done|]. by exists p.
  - assert (k ≠ off).
    { intros ->. destruct Hseat as (q & Hq & Hsq). congruence. }
    destruct (IH (off + 1) k) as (k' & Hk' & Heq & Hs); [lia|lia|lia|done|].
    exists k'. split; [lia|done].
Qed.

Lemma rem_add_small (a k n : Z) :
  0 ≤ a < n → 0 ≤ k ≤ n →
  Z.rem (a + k) n = if decide (a + k < n) then a + k else a + k - n.
Proof.
  intros Ha Hk. rewrite Z.rem_mod_nonneg by lia.
  case_decide; [apply Z.mod_small; lia|].
  symmetry. apply (Z.mod_unique _ _ 1); lia.
Qed.

Lemma two_seated_sym (ps : list Player.t) (a b : Z) :
  two_seated ps a b → two_seated ps b a.
Proof. intros (? & ? & ? & H). repeat split; try done. intros i Hi. destruct (H i Hi); auto. Qed.

Lemma nextIdx_two_other (ps : list Player.t) (a b : Z) :
  two_seated ps a b → nextIdx ps a = Ok b.
Proof.
  intros (Hne & Ha & Hb & Honly).
  pose proof (seated_at_range _ _ Ha) as Har.
  pose proof (seated_at_range _ _ Hb) as Hbr.
  set (n := Z.of_nat (length ps)) in *.
  set (k := if decide (a < b) then b - a else b - a + n).
  assert (Hk : 1 ≤ k < n) by (subst k; case_decide; lia).
  assert (Hab : Z.rem (a + k) n = b).
  { rewrite rem_add_small by lia. subst k. repeat case_decide; lia. }
  destruct (nextIdx_loop_first_hit ps a (length ps) 1 k) as (k' & Hk' & Heq & Hs);
    [lia|lia|lia|fold n; by rewrite Hab|].
  fold n in Heq, Hs. unfold nextIdx. rewrite Heq. f_equal.
  destruct (Honly _ Hs) as [Hr|Hr]; [|done].
  rewrite rem_add_small in Hr by lia. case_decide; lia.
Qed.

(** If some player is seated, [nextIdx] finds one. *)
Lemma nextIdx_some (ps : list Player.t) (a from : Z) :
  seated_at ps a → 0 ≤ from →
  ∃ r, nextIdx ps from = Ok r ∧ seated_at ps r.
Proof.
  intros Ha Hfrom.
  pose proof (seated_at_range _ _ Ha) as Har.
  set (n := Z.of_nat (length ps)) in *.
  set (k0 := (a - from) mod n).
  pose proof (Z.mod_pos_bound (a - from) n ltac:(lia)) as Hk0. fold k0 in Hk0.
  set (k := if decide (k0 = 0) then n else k0).
  assert (Hk : 1 ≤ k ≤ n) by (subst k; case_decide; lia).
  assert (Hak : Z.rem (from + k) n = a).
  { rewrite Z.rem_mod_nonneg by lia.
    assert (k mod n = k0) as Hkm.
    { subst k. case_decide as H0; [rewrite Z.mod_same by lia; lia|by apply Z.mod_small; lia]. }
    rewrite <- Zplus_mod_idemp_r, Hkm. unfold k0.
    rewrite Zplus_mod_idemp_r. replace (from + (a - from)) with a by lia.
    apply Z.mod_small. lia. }
  destruct (nextIdx_loop_first_hit ps from (length ps) 1 k) as (k' & Hk' & Heq & Hs);
    [lia|lia|lia|fold n; by rewrite Hak|].
  eexists. split; [exact Heq|done].
Qed.

Lemma nextIdx_two_any (ps : list Player.t) (a b from : Z) :
  two_seated ps a b → 0 ≤ from →
  ∃ r, nextIdx ps from = Ok r ∧ (r = a ∨ r = b).
Proof.
  intros (Hne & Ha & Hb & Honly) Hfrom.
  destruct (nextIdx_some ps a from Ha Hfrom) as (r & Heq & Hr).
  exists r. split; [done|]. by apply Honly.
Qed.

(** *** Counting the seated players *)

Lemma seated_at_nat (ps : list Player.t) (k : nat) :
  seated_at ps (Z.of_nat k) ↔ ∃ p, ps !! k = Some p ∧ seated p = true.
Proof.
  unfold seated_at. split; intros (p & Hp & Hs); exists p; split; try done.
  - apply at_index_Some in Hp as [_ Hp]. by rewrite Nat2Z.id in Hp.
  - apply at_index_Some. rewrite Nat2Z.id. split; [lia|done].
Qed.

Lemma seated_count_zero (ps : list Player.t) :
  length (filter (λ p, seated p = true) ps) = 0%nat →
  ∀ k p, ps !! k = Some p → seated p = false.
Proof.
  induction ps as [|q ps IH]; intros Hc k p Hk; [done|].
  rewrite filter_cons in Hc. destruct (decide (seated q = true)) as [Hq|Hq]; [done|].
  destruct k as [|k]; simpl in Hk.
  - injection Hk as <-. by destruct (seated q).
  - by eapply IH.
Qed.

Lemma seated_count_one (ps : list Player.t) :
  length (filter (λ p, seated p = true) ps) = 1%nat →
  ∃ i, (∃ p, ps !! i = Some p ∧ seated p = true)
       ∧ ∀ k p, ps !! k = Some p → seated p = true → k = i.
Proof.
  induction ps as [|q ps IH]; intros Hc; [done|].
  rewrite filter_cons in Hc. destruct (decide (seated q = true)) as [Hq|Hq].
  - injection Hc as Hc. exists 0%nat. split; [by exists q|].
    intros [|k] p Hk Hp; [done|]. simpl in Hk.
    pose proof (seated_count_zero ps Hc k p Hk). congruence.
  - destruct (IH Hc) as (i & Hi & Honly). exists (S i). split; [done|].
    intros [|k] p Hk Hp; simpl in Hk.
    + injection Hk as <-. done.
    + f_equal. by eapply Honly.
Qed.

Lemma seated_count_two (ps : list Player.t) :
  length (filter (λ p, seated p = true) ps) = 2%nat →
  ∃ i j, i ≠ j
         ∧ (∃ p, ps !! i = Some p ∧ seated p = true)
         ∧ (∃ p, ps !! j = Some p ∧ seated p = true)
         ∧ ∀ k p, ps !! k = Some p → seated p = true → k = i ∨ k = j.
Proof.
  induction ps as [|q ps IH]; intros Hc; [done|].
  rewrite filter_cons in Hc. destruct (decide (seated q = true)) as [Hq|Hq].
  - injection Hc as Hc. destruct (seated_count_one ps Hc) as (j & Hj & Honly).
    exists 0%nat, (S j). split; [done|]. split; [by exists q|]. split; [done|].
    intros [|k] p Hk Hp; [by left|]. right. f_equal. by eapply Honly.
  - destruct (IH Hc) as (i & j & Hne & Hi & Hj & Honly).
    exists (S i), (S j). split; [congruence|]. split; [done|]. split; [done|].
    intros [|k] p Hk Hp; simpl in Hk.
    + injection Hk as <-. done.
    + destruct (Honly k p Hk Hp); [left|right]; congruence.
Qed.

Lemma two_seated_of_count (ps : list Player.t) :
  length (filter (λ p, seated p = true) ps) = 2%nat → ∃ a b, two_seated ps a b.
Proof.
  intros (i & j & Hne & Hi & Hj & Honly)%seated_count_two.
  exists (Z.of_nat i), (Z.of_nat j). split; [lia|].
  split; [by apply seated_at_nat|]. split; [by apply seated_at_nat|].
  intros k Hk. pose proof (seated_at_range _ _ Hk) as Hr.
  rewrite <- (Z2Nat.id k) in Hk by lia.
  apply seated_at_nat in Hk as (p & Hp & Hs).
  destruct (Honly _ _ Hp Hs); lia.
Qed.

Lemma seated_of_count (ps : list Player.t) :
  (0 < length (filter (λ p, seated p = true) ps))%nat → ∃ a, seated_at ps a.
Proof.
  intros Hc. destruct (filter _ ps) as [|p l] eqn:Hf; [simpl in Hc; lia|].
  assert (p ∈ filter (λ p, seated p = true) ps) as [Hs Hin]%list_elem_of_filter
    by (rewrite Hf; by left).
  apply list_elem_of_lookup in Hin as [k Hk].
  exists (Z.of_nat k). apply seated_at_nat. by exists p.
Qed.

(** *** Resetting the table and dealing *)

Lemma deal_round_spec (ps : list Player.t) : ∀ deck,
  deal_round ps deck
  = (imap (λ k p, Player.set_holeCards (Player.holeCards p ++ take 1 (drop k deck)) p) ps,
     drop (length ps) deck).
Proof.
  induction ps as [|p ps IH]; intros deck; [done|].
  cbn [deal_round]. rewrite IH. cbn [imap length]. rewrite drop_drop.
  f_equal. f_equal. apply imap_ext. intros k q _. simpl. by rewrite drop_drop.
Qed.

Lemma reset_and_deal_eq (src : DeckSource) (gs : GameState) :
  let n := length (players gs) in
  reset_and_deal src gs
  = mkGameState (imap (dealt_in n (source_deck src)) (players gs))
      (drop (n + n) (source_deck src)) [] 0 0 PreFlop
      (dealerPosition gs) (smallBlindPosition gs) (bigBlindPosition gs)
      (currentPlayerIndex gs) (lastToActIndex gs) (lastRaiseAmount gs)
      (smallBlind gs) (bigBlind gs) [] 0 (logs gs ++ ["--- New Hand ---"]).
Proof.
  intros n. unfold reset_and_deal, dealHoleCards. cbn [players deck set_deck set_players
    set_bettingActions set_communityCards set_stage set_currentBet set_sidePots set_pot
    addLog set_logs].
  rewrite deal_round_spec. rewrite deal_round_spec.
  rewrite length_imap, length_fmap, drop_drop. fold n.
  unfold set_deck, set_players; simpl. f_equal.
  rewrite imap_fmap. apply list_eq. intros k.
  rewrite !list_lookup_imap. destruct (players gs !! k) as [p|]; [|done]. simpl.
  rewrite drop_drop. reflexivity.
Qed.

(** *** Posting the blinds *)

Lemma postBlind_eq (gs : GameState) (idx amount : Z) (p : Player.t) :
  player_at gs idx = Ok p →
  postBlind idx amount gs
  = Ok (set_pot (pot gs + Z.min amount (Player.chips p))
          (update_player idx (Player.put_in (Z.min amount (Player.chips p))) gs)).
Proof. intros Hp. unfold postBlind. by rewrite Hp. Qed.

Lemma currentBet_put_in (w : Z) (p : Player.t) :
  Player.currentBet (Player.put_in w p) = Player.currentBet p + w.
Proof. unfold Player.put_in. simpl. by case_match. Qed.

Lemma holeCards_put_in (w : Z) (p : Player.t) :
  Player.holeCards (Player.put_in w p) = Player.holeCards p.
Proof. unfold Player.put_in. simpl. by case_match. Qed.

Lemma seated_put_in (w : Z) (p : Player.t) :
  seated p = true → w < Player.chips p → seated (Player.put_in w p) = true.
Proof.
  unfold seated. rewrite chips_put_in.
  intros [_ Ha]%andb_true_iff Hw. apply andb_true_iff. split.
  - apply Z.ltb_lt. lia.
  - unfold Player.put_in. simpl. by case_match.
Qed.

Lemma player_at_update (gs : GameState) (i j : Z) (f : Player.t → Player.t) (p : Player.t) :
  player_at gs j = Ok p → 0 ≤ i →
  player_at (update_player i f gs) j = Ok (if decide (i = j) then f p else p).
Proof.
  intros [Hj Hp]%player_at_Ok Hi. apply player_at_Ok. split; [done|].
  simpl. rewrite list_lookup_alter.
  destruct (decide (i = j)) as [->|Hne].
  - by rewrite decide_True, Hp.
  - rewrite decide_False by lia. done.
Qed.

Lemma seated_at_update (gs : GameState) (j : Z) (f : Player.t → Player.t) (p : Player.t) :
  player_at gs j = Ok p → seated (f p) = seated p →
  ∀ i, seated_at (players (update_player j f gs)) i ↔ seated_at (players gs) i.
Proof.
  intros Hp Hf i. pose proof Hp as [Hj Hpl]%player_at_Ok.
  unfold seated_at. simpl.
  split; intros (q & [Hi Hq]%at_index_Some & Hs).
  - rewrite list_lookup_alter in Hq. case_decide as Hij.
    + rewrite Hpl in Hq. injection Hq as <-. exists p.
      split; [|congruence]. apply at_index_Some. by rewrite <- Hij.
    + exists q. split; [|done]. by apply at_index_Some.
  - destruct (decide (Z.to_nat j = Z.to_nat i)) as [Hij|Hij].
    + rewrite <- Hij, Hpl in Hq. injection Hq as <-. exists (f p).
      split; [|congruence]. apply at_index_Some. split; [done|].
      by rewrite list_lookup_alter, decide_True, Hpl.
    + exists q. split; [|done]. apply at_index_Some. split; [done|].
      by rewrite list_lookup_alter, decide_False.
Qed.

Lemma seated_at_dealt (n : nat) (deck : list Card.t) (ps : list Player.t) (i : Z) :
  seated_at (imap (dealt_in n deck) ps) i ↔ seated_at ps i.
Proof.
  unfold seated_at. split; intros (q & [Hi Hq]%at_index_Some & Hs).
  - rewrite list_lookup_imap in Hq. destruct (ps !! Z.to_nat i) as [p|] eqn:Hp; [|done].
    injection Hq as <-. exists p. split; [by apply at_index_Some|done].
  - exists (dealt_in n deck (Z.to_nat i) q). split; [|done].
    apply at_index_Some. split; [done|]. by rewrite list_lookup_imap, Hq.
Qed.

Lemma two_seated_ext (ps ps' : list Player.t) (a b : Z) :
  (∀ i, seated_at ps' i ↔ seated_at ps i) → two_seated ps a b → two_seated ps' a b.
Proof.
  intros Hext (Hne & Ha & Hb & Honly).
  split; [done|]. split; [by apply Hext|]. split; [by apply Hext|].
  intros i Hi%Hext. by apply Honly.
Qed.

Lemma player_at_set_pot (gs : GameState) (v i : Z) :
  player_at (set_pot v gs) i = player_at gs i.
Proof. reflexivity. Qed.

Lemma players_set_pot (gs : GameState) (v : Z) : players (set_pot v gs) = players gs.
Proof. reflexivity. Qed.

(** *** The heads-up hand *)

Lemma assign_seats_two (gs : GameState) (dealer other : Z) :
  nextIdx (players gs) (dealerPosition gs) = Ok dealer →
  nextIdx (players gs) dealer = Ok other →
  assign_seats 2 gs
  = Ok (set_bigBlindPosition other
          (set_smallBlindPosition dealer (set_dealerPosition dealer gs))).
Proof.
  intros Hdealer Hother. unfold assign_seats.
  rewrite Hdealer, bind_Ok. cbn -[nextIdx]. by rewrite Hother.
Qed.

(** C7. A new hand started with exactly two seated players holding 1000
    chips each, smallBlind 10 and bigBlind 20 is set up with the dealer as
    small blind: the player at the dealer's seat has a currentBet of 10, the
    other seated player one of 20, the pot is 30, and currentPlayerIndex is
    the dealer's seat. *)
Theorem heads_up_blinds (src : DeckSource) (gs : GameState) :
  0 ≤ dealerPosition gs →
  length (filter (λ p, seated p = true) (players gs)) = 2%nat →
  Forall (λ p, seated p = true → Player.chips p = 1000) (players gs) →
  smallBlind gs = 10 → bigBlind gs = 20 →
  ∃ (gs' : GameState) (dealer other : Z),
    startNewHandInternal src gs = Ok gs'
    ∧ two_seated (players gs) dealer other
    ∧ dealerPosition gs' = dealer
    ∧ smallBlindPosition gs' = dealer
    ∧ bigBlindPosition gs' = other
    ∧ (∃ p, player_at gs' dealer = Ok p ∧ Player.currentBet p = 10)
    ∧ (∃ p, player_at gs' other = Ok p ∧ Player.currentBet p = 20)
    ∧ pot gs' = 30
    ∧ currentPlayerIndex gs' = dealer.
Proof.
  intros Hd Hcount Hchips Hsb Hbb.
  destruct (two_seated_of_count _ Hcount) as (a & b & Hab).
  destruct (nextIdx_two_any _ a b _ Hab Hd) as (dl & Hdl & Hor).
  assert (∃ o, two_seated (players gs) dl o) as [o Htwo].
  { destruct Hor as [->| ->]; [by exists b|exists a; by apply two_seated_sym]. }
  pose proof (nextIdx_two_other _ _ _ Htwo) as Hother.
  pose proof Htwo as (Hne & (pd & Hpd & Hsd) & (po & Hpo & Hso) & _).
  pose proof Hpd as [Hdl0 Hpd']%at_index_Some.
  pose proof Hpo as [Ho0 Hpo']%at_index_Some.
  assert (Hcd : Player.chips pd = 1000).
  { by apply (proj1 (Forall_forall _ _) Hchips pd (list_elem_of_lookup_2 _ _ _ Hpd')). }
  assert (Hco : Player.chips po = 1000).
  { by apply (proj1 (Forall_forall _ _) Hchips po (list_elem_of_lookup_2 _ _ _ Hpo')). }
  unfold startNewHandInternal. rewrite Hcount.
  rewrite bool_decide_eq_false_2 by lia.
  rewrite (assign_seats_two gs dl o Hdl Hother), bind_Ok.
  rewrite reset_and_deal_eq. cbn [players set_bigBlindPosition set_smallBlindPosition
    set_dealerPosition dealerPosition smallBlindPosition bigBlindPosition
    currentPlayerIndex lastToActIndex lastRaiseAmount smallBlind bigBlind logs].
  set (n := length (players gs)). set (deck := source_deck src).
  set (gs2 := mkGameState _ _ _ _ _ _ _ _ _ _ _ _ _ _ _ _ _).
  (* the two players once dealt in *)
  set (qd := dealt_in n deck (Z.to_nat dl) pd).
  set (qo := dealt_in n deck (Z.to_nat o) po).
  assert (Hqd : player_at gs2 dl = Ok qd).
  { apply player_at_Ok. split; [done|]. simpl. by rewrite list_lookup_imap, Hpd'. }
  assert (Hqo : player_at gs2 o = Ok qo).
  { apply player_at_Ok. split; [done|]. simpl. by rewrite list_lookup_imap, Hpo'. }
  unfold post_blinds.
  change (smallBlindPosition gs2) with dl. change (smallBlind gs2) with (smallBlind gs).
  rewrite Hsb, (postBlind_eq gs2 dl 10 qd Hqd), bind_Ok.
  change (Player.chips qd) with (Player.chips pd). rewrite Hcd.
  change (Z.min 10 1000) with 10.
  set (gs3 := set_pot _ (update_player dl _ gs2)).
  assert (Hqo3 : player_at gs3 o = Ok qo).
  { unfold gs3. rewrite player_at_set_pot, (player_at_update gs2 dl o _ qo Hqo Hdl0).
    by rewrite decide_False. }
  change (bigBlindPosition gs3) with o. change (bigBlind gs3) with (bigBlind gs).
  rewrite Hbb, (postBlind_eq gs3 o 20 qo Hqo3), bind_Ok.
  change (Player.chips qo) with (Player.chips po). rewrite Hco.
  change (Z.min 20 1000) with 20.
  set (gs4 := set_pot _ (update_player o _ gs3)).
  assert (Hqo4 : player_at gs4 o = Ok (Player.put_in 20 qo)).
  { unfold gs4. rewrite player_at_set_pot, (player_at_update gs3 o o _ qo Hqo3 Ho0).
    by rewrite decide_True. }
  assert (Hqd4 : player_at gs4 dl = Ok (Player.put_in 10 qd)).
  { assert (Hqd3 : player_at gs3 dl = Ok (Player.put_in 10 qd)).
    { unfold gs3. rewrite player_at_set_pot, (player_at_update gs2 dl dl _ qd Hqd Hdl0).
      by rewrite decide_True. }
    unfold gs4. rewrite player_at_set_pot, (player_at_update gs3 o dl _ _ Hqd3 Ho0).
    by rewrite decide_False. }
  change (bigBlindPosition gs4) with o.
  rewrite Hqo4, bind_Ok.
  assert (Htwo4 : two_seated (players gs4) o dl).
  { apply two_seated_sym. eapply two_seated_ext; [|exact Htwo].
    intros i. unfold gs4. rewrite players_set_pot.
    rewrite (seated_at_update gs3 o (Player.put_in 20) qo Hqo3).
    2:{ rewrite seated_put_in; [done|done|]. change (Player.chips qo) with (Player.chips po). lia. }
    unfold gs3. rewrite players_set_pot.
    rewrite (seated_at_update gs2 dl (Player.put_in 10) qd Hqd).
    2:{ rewrite seated_put_in; [done|done|]. change (Player.chips qd) with (Player.chips pd). lia. }
    apply seated_at_dealt. }
  cbn -[nextIdx gs4]. change (bigBlindPosition gs4) with o.
  rewrite (nextIdx_two_other _ _ _ Htwo4), bind_Ok.
  eexists _, dl, o. split; [reflexivity|]. split; [done|].
  split; [reflexivity|]. split; [reflexivity|]. split; [reflexivity|].
  split; [exists (Player.put_in 10 qd); split; [exact Hqd4|by rewrite currentBet_put_in]|].
  split; [exists (Player.put_in 20 qo); split; [exact Hqo4|by rewrite currentBet_put_in]|].
  split; reflexivity.
Qed.

Lemma heads_up_blinds_witness :
  ∃ (gs' : GameState) (dealer other : Z),
    startNewHandInternal (External (decode_card <$> ordered_bytes)) heads_up_table = Ok gs'
    ∧ two_seated (players heads_up_table) dealer other
    ∧ dealerPosition gs' = dealer
    ∧ smallBlindPosition gs' = dealer
    ∧ bigBlindPosition gs' = other
    ∧ (∃ p, player_at gs' dealer = Ok p ∧ Player.currentBet p = 10)
    ∧ (∃ p, player_at gs' other = Ok p ∧ Player.currentBet p = 20)
    ∧ pot gs' = 30
    ∧ currentPlayerIndex gs' = dealer.
Proof.
  apply heads_up_blinds.
  - simpl. lia.
  - reflexivity.
  - repeat constructor.
  - reflexivity.
  - reflexivity.
Defined.

(** *** The packed deck *)

Lemma nextIdx_loop_total (ps : list Player.t) (from : Z) (count : nat) :
  ∀ off, 0 ≤ from → 0 ≤ off → (count ≤ length ps)%nat →
    ∃ r, nextIdx_loop ps from count off = Ok r.
Proof.
  induction count as [|count IH]; intros off Hfrom Hoff Hc; simpl; [by eexists|].
  destruct (at_index_in_range ps (Z.rem (from + off) (Z.of_nat (length ps))))
    as [p Hp]; [apply rem_in_range; lia|].
  rewrite Hp. simpl. case_match; [by eexists|]. apply IH; lia.
Qed.

Lemma assign_seats_total (c : nat) (gs : GameState) (a : Z) :
  0 ≤ dealerPosition gs → seated_at (players gs) a →
  ∃ dealer sb bb,
    assign_seats c gs
    = Ok (set_bigBlindPosition bb (set_smallBlindPosition sb (set_dealerPosition dealer gs)))
    ∧ seated_at (players gs) sb ∧ seated_at (players gs) bb.
Proof.
  intros Hd Ha. unfold assign_seats.
  destruct (nextIdx_some _ a _ Ha Hd) as (dealer & Hdealer & Hsd).
  pose proof (seated_at_range _ _ Hsd) as Hdr.
  destruct (nextIdx_some _ a dealer Ha ltac:(lia)) as (nxt & Hnxt & Hsn).
  pose proof (seated_at_range _ _ Hsn) as Hnr.
  destruct (nextIdx_some _ a nxt Ha ltac:(lia)) as (nxt2 & Hnxt2 & Hsn2).
  rewrite Hdealer, bind_Ok. cbn -[nextIdx]. rewrite Hnxt, !bind_Ok.
  case_bool_decide.
  - by exists dealer, dealer, nxt.
  - cbn -[nextIdx]. rewrite Hnxt2, bind_Ok. by exists dealer, nxt, nxt2.
Qed.

Lemma holeCards_update (gs : GameState) (i : Z) (f : Player.t → Player.t) :
  (∀ p, Player.holeCards (f p) = Player.holeCards p) →
  Player.holeCards <$> players (update_player i f gs) = Player.holeCards <$> players gs.
Proof.
  intros Hf. simpl. apply list_eq. intros k.
  rewrite !list_lookup_fmap, list_lookup_alter.
  case_decide as Hk; [rewrite <- Hk|done].
  destruct (players gs !! Z.to_nat i); [simpl; by rewrite Hf|done].
Qed.

Lemma post_blinds_total (gs : GameState) :
  0 ≤ smallBlindPosition gs < Z.of_nat (length (players gs)) →
  0 ≤ bigBlindPosition gs < Z.of_nat (length (players gs)) →
  ∃ gs', post_blinds gs = Ok gs'
         ∧ deck gs' = deck gs
         ∧ Player.holeCards <$> players gs' = Player.holeCards <$> players gs.
Proof.
  intros Hsb Hbb. unfold post_blinds.
  destruct (player_at_in_range gs _ Hsb) as [p1 Hp1].
  rewrite (postBlind_eq _ _ _ _ Hp1), bind_Ok.
  set (gs1 := set_pot _ (update_player _ _ gs)).
  assert (Hlen1 : length (players gs1) = length (players gs))
    by (simpl; by rewrite length_alter).
  assert (Hh1 : Player.holeCards <$> players gs1 = Player.holeCards <$> players gs)
    by (apply holeCards_update, holeCards_put_in).
  change (bigBlindPosition gs1) with (bigBlindPosition gs).
  destruct (player_at_in_range gs1 (bigBlindPosition gs) ltac:(lia)) as [p2 Hp2].
  rewrite (postBlind_eq _ _ _ _ Hp2), bind_Ok.
  set (gs2 := set_pot _ (update_player _ _ gs1)).
  assert (Hlen2 : length (players gs2) = length (players gs))
    by (simpl; by rewrite length_alter).
  assert (Hh2 : Player.holeCards <$> players gs2 = Player.holeCards <$> players gs).
  { rewrite <- Hh1. apply holeCards_update, holeCards_put_in. }
  change (bigBlindPosition gs2) with (bigBlindPosition gs).
  destruct (player_at_in_range gs2 (bigBlindPosition gs) ltac:(lia)) as [p3 Hp3].
  rewrite Hp3, bind_Ok.
  assert (∃ r, nextIdx (players gs2) (bigBlindPosition gs2) = Ok r) as [r Hr].
  { apply nextIdx_loop_total; [simpl; lia|lia|lia]. }
  cbn -[nextIdx gs2]. rewrite Hr, bind_Ok.
  eexists. split; [reflexivity|]. split; [reflexivity|exact Hh2].
Qed.

(** The hand [startNewHandInternal] sets up from an external deck when two
    players or more are seated: the hole cards come off the top of that deck,
    one card a player and round, and the rest stays in order. *)
Lemma hand_dealt_from_deck (externalDeck : list Card.t) (gs : GameState) :
  0 ≤ dealerPosition gs →
  (2 ≤ length (filter (λ p, seated p = true) (players gs)))%nat →
  ∃ gs', startNewHandInternal (External externalDeck) gs = Ok gs'
         ∧ let n := length (players gs) in
           deck gs' = drop (n + n) externalDeck
           ∧ length (players gs') = n
           ∧ ∀ k p, players gs' !! k = Some p →
               Player.holeCards p
               = take 1 (drop k externalDeck) ++ take 1 (drop (n + k) externalDeck).
Proof.
  intros Hd Hc. unfold startNewHandInternal.
  rewrite bool_decide_eq_false_2 by lia.
  destruct (seated_of_count (players gs) ltac:(lia)) as [a Ha].
  destruct (assign_seats_total (length (filter (λ p, seated p = true) (players gs)))
              gs a Hd Ha) as (dealer & sb & bb & -> & Hsb%seated_at_range & Hbb%seated_at_range).
  rewrite bind_Ok, reset_and_deal_eq.
  cbn [players set_bigBlindPosition set_smallBlindPosition set_dealerPosition
    dealerPosition smallBlindPosition bigBlindPosition currentPlayerIndex lastToActIndex
    lastRaiseAmount smallBlind bigBlind logs source_deck].
  set (n := length (players gs)) in *.
  set (gs2 := mkGameState _ _ _ _ _ _ _ _ _ _ _ _ _ _ _ _ _).
  destruct (post_blinds_total gs2) as (gs' & -> & Hdeck & Hhole).
  { simpl. rewrite length_imap. lia. }
  { simpl. rewrite length_imap. lia. }
  exists gs'. split; [done|]. split; [done|].
  assert (Hlen : length (players gs') = n).
  { apply (f_equal length) in Hhole. rewrite !length_fmap in Hhole.
    rewrite Hhole. simpl. by rewrite length_imap. }
  split; [done|]. intros k p Hp.
  apply (f_equal (λ l, l !! k)) in Hhole.
  rewrite !list_lookup_fmap, Hp in Hhole. simpl in Hhole.
  rewrite list_lookup_imap in Hhole.
  destruct (players gs !! k) as [q|]; [|done]. by injection Hhole.
Qed.

Lemma startNewHandInternal_returns (externalDeck : list Card.t) (gs : GameState) :
  0 ≤ dealerPosition gs →
  is_Ok (startNewHandInternal (External externalDeck) gs).
Proof.
  intros Hd.
  destruct (decide (length (filter (λ p, seated p = true) (players gs)) < 2)%nat) as [Hc|Hc].
  - unfold startNewHandInternal. rewrite bool_decide_eq_true_2 by done. by eexists.
  - destruct (hand_dealt_from_deck externalDeck gs Hd ltac:(lia)) as (gs' & Heq & _).
    by exists gs'.
Qed.

Lemma decode_card_fields (b : Z) :
  Card.rank (decode_card b) = b / 4 + 2
  ∧ (0 ≤ b → at_index suitValues (b mod 4) = Some (Card.suit (decode_card b))).
Proof.
  split; [reflexivity|]. intros Hb. unfold decode_card. simpl.
  rewrite Z.rem_mod_nonneg by lia.
  pose proof (Z.mod_pos_bound b 4 ltac:(lia)) as Hm.
  destruct (at_index_in_range suitValues (b mod 4)) as [s Hs]; [simpl; lia|].
  by rewrite Hs.
Qed.

(** C10. startNewHandWithPackedDeck throws exactly when the decoded input
    has fewer than 52 bytes.  With 52 bytes or more it decodes the first 52
    only, each byte into the card of rank floor(byte / 4) + 2 and of suit
    number byte mod 4, and starts the hand on that deck: the call is
    startNewHandInternal on the decoded cards, and when two players or more
    are seated the hole cards are the top cards of that deck, in its order,
    and the rest of it is the deck of the hand. *)
Theorem packed_deck_start (packedDeck : PackedDeck) (gs : GameState) :
  0 ≤ dealerPosition gs →
  let bytes := packed_bytes packedDeck in
  let cards := decode_card <$> take 52 bytes in
  (is_Err (startNewHandWithPackedDeck packedDeck gs) ↔ (length bytes < 52)%nat)
  ∧ ((52 ≤ length bytes)%nat →
     startNewHandWithPackedDeck packedDeck gs = startNewHandInternal (External cards) gs
     ∧ length cards = 52%nat
     ∧ (∀ (k : nat) (b : Z), (k < 52)%nat → bytes !! k = Some b →
          cards !! k = Some (decode_card b)
          ∧ Card.rank (decode_card b) = b / 4 + 2
          ∧ (0 ≤ b → at_index suitValues (b mod 4) = Some (Card.suit (decode_card b))))
     ∧ ((2 ≤ length (filter (λ p, seated p = true) (players gs)))%nat →
          ∃ gs', startNewHandWithPackedDeck packedDeck gs = Ok gs'
            ∧ let n := length (players gs) in
              deck gs' = drop (n + n) cards
              ∧ ∀ k p, players gs' !! k = Some p →
                  Player.holeCards p
                  = take 1 (drop k cards) ++ take 1 (drop (n + k) cards))).
Proof.
  intros Hd bytes cards.
  assert (Hlong : (52 ≤ length bytes)%nat →
    startNewHandWithPackedDeck packedDeck gs = startNewHandInternal (External cards) gs).
  { intros Hlen. unfold startNewHandWithPackedDeck. fold bytes.
    by rewrite bool_decide_eq_false_2 by lia. }
  split.
  - split.
    + intros [e He]. destruct (decide (length bytes < 52)%nat) as [|Hlen]; [done|].
      rewrite Hlong in He by lia.
      destruct (startNewHandInternal_returns cards gs Hd) as [gs' Hgs']. congruence.
    + intros Hlen. unfold startNewHandWithPackedDeck. fold bytes.
      rewrite bool_decide_eq_true_2 by done. by eexists.
  - intros Hlen. split; [by apply Hlong|]. split.
    { unfold cards. rewrite length_fmap, length_take. lia. }
    split.
    + intros k b Hk Hb. split; [|apply decode_card_fields].
      unfold cards. by rewrite list_lookup_fmap, lookup_take_lt, Hb.
    + intros Hc. rewrite Hlong by done.
      destruct (hand_dealt_from_deck cards gs Hd Hc) as (gs' & Heq & Hdeck & _ & Hhole).
      by exists gs'.
Qed.

Lemma packed_deck_start_witness :
  (is_Err (startNewHandWithPackedDeck (HexString "0x00010203") heads_up_table)
   ↔ (length (packed_bytes (HexString "0x00010203")) < 52)%nat)
  ∧ startNewHandWithPackedDeck (Uint8Array ordered_bytes) heads_up_table
    = startNewHandInternal
        (External (decode_card <$> take 52 (packed_bytes (Uint8Array ordered_bytes))))
        heads_up_table.
Proof.
  split.
  - apply (packed_deck_start (HexString "0x00010203") heads_up_table). simpl. lia.
  - apply (packed_deck_start (Uint8Array ordered_bytes) heads_up_table).
    + simpl. lia.
    + vm_compute. lia.
Defined.

End HandSetupTheory.

(** ** The commit-reveal protocol *)

Module DealerProtocolTheory.
Import Sol PokerEntropyDealerV2 DealerSamples ShuffleTheory DealerTheory DealerHistory.

(** *** PokerEntropyDealer: the callback *)

(** X1. The callback of PokerEntropyDealer never reverts: for every sequence
    number and random number it stores under the sequence number the deck
    that [_shuffle] derives from the random number, a permutation of the card
    indices 0..51, emits it in a Shuffled event, and leaves the decks of the
    other sequence numbers as they were. *)
Theorem callback_stores_shuffled_deck (sequenceNumber randomNumber : Z)
    (st : PokerEntropyDealer.Storage) :
  ∃ deck : list Z,
    PokerEntropyDealer.entropyCallback sequenceNumber randomNumber st
    = Ok (PokerEntropyDealer.mkStorage
            (<[sequenceNumber := deck]> (PokerEntropyDealer.packedDeckBySeq st))
            (PokerEntropyDealer.events st
               ++ [PokerEntropyDealer.Shuffled sequenceNumber deck]))
    ∧ PokerEntropyDealer._shuffle randomNumber = Ok deck
    ∧ deck ≡ₚ seqZ 0 52.
Proof.
  destruct (shuffle_permutation randomNumber) as (deck & Hdeck & Hperm).
  exists deck. unfold PokerEntropyDealer.entropyCallback, PokerEntropyDealer._shuffle.
  rewrite Hdeck. by repeat split.
Qed.

(** *** The verification loop *)

Lemma index_Ok (arr : list Z) (i v : Z) :
  index arr i = Ok v ↔ 0 ≤ i ∧ arr !! Z.to_nat i = Some v.
Proof.
  unfold index. destruct (Z.ltb_spec i 0) as [Hneg|Hpos].
  - split; [done|lia].
  - destruct (arr !! Z.to_nat i) as [w|]; split.
    + by intros [= ->].
    + by intros [_ [= ->]].
    + done.
    + by intros [_ ?].
Qed.

Lemma verify_loop_verdict (deck dealtCards cardPositions : list Z) (n : nat) :
  Forall (λ d, 0 ≤ d < 52) deck →
  ∀ (i : nat) (valid : bool),
    verify_loop deck dealtCards cardPositions n (Z.of_nat i) = Ok valid →
    (valid = true ↔
       ∀ k, (i ≤ k < i + n)%nat → pair_matches deck dealtCards cardPositions k).
Proof.
  intros Hdeck. induction n as [|n IH]; intros i valid; simpl.
  - intros [= <-]. split; [intros _ k ?; lia|done].
  - destruct (index cardPositions (Z.of_nat i)) as [pos|e] eqn:Hpos; [|done].
    rewrite bind_Ok. apply index_Ok in Hpos as [_ Hpos]. rewrite Nat2Z.id in Hpos.
    destruct (Z.ltb_spec pos 52) as [Hlt|Hge]; [|done]. rewrite require_true.
    destruct (index deck pos) as [d|e] eqn:Hd; [|done].
    rewrite bind_Ok. apply index_Ok in Hd as [Hpos0 Hd].
    destruct (index dealtCards (Z.of_nat i)) as [c|e] eqn:Hc; [|done].
    rewrite bind_Ok. apply index_Ok in Hc as [_ Hc]. rewrite Nat2Z.id in Hc.
    assert (Hbyte : uint8 d = d).
    { unfold uint8. apply Z.mod_small.
      pose proof (proj1 (Forall_forall _ _) Hdeck d (list_elem_of_lookup_2 _ _ _ Hd)).
      simpl in *. lia. }
    rewrite Hbyte.
    destruct (Z.eqb_spec d c) as [->|Hne]; simpl.
    + replace (Z.of_nat i + 1) with (Z.of_nat (S i)) by lia.
      intros Hrest. rewrite (IH _ _ Hrest). split.
      * intros Hall k Hk. destruct (decide (k = i)) as [->|Hki]; [|apply Hall; lia].
        by exists pos, c.
      * intros Hall k Hk. apply Hall. lia.
    + intros [= <-]. split; [done|]. intros Hall.
      destruct (Hall i ltac:(lia)) as (pos' & c' & Hp' & Hc' & _ & Hd').
      congruence.
Qed.

Lemma verify_loop_matching (deck dealtCards cardPositions : list Z) (n : nat) :
  Forall (λ d, 0 ≤ d < 52) deck →
  ∀ i : nat,
    (∀ k, (i ≤ k < i + n)%nat → pair_matches deck dealtCards cardPositions k) →
    verify_loop deck dealtCards cardPositions n (Z.of_nat i) = Ok true.
Proof.
  intros Hdeck. induction n as [|n IH]; intros i Hall; simpl; [done|].
  destruct (Hall i ltac:(lia)) as (pos & c & Hp & Hc & Hrange & Hd).
  rewrite (index_lookup _ _ _ Hp), bind_Ok.
  destruct (Z.ltb_spec pos 52); [|lia]. rewrite require_true.
  rewrite <- (Z2Nat.id pos) at 1 by lia.
  rewrite (index_lookup _ _ _ Hd), bind_Ok, (index_lookup _ _ _ Hc), bind_Ok.
  assert (Hbyte : uint8 c = c).
  { unfold uint8. apply Z.mod_small.
    pose proof (proj1 (Forall_forall _ _) Hdeck c (list_elem_of_lookup_2 _ _ _ Hd)).
    simpl in *. lia. }
  rewrite Hbyte, Z.eqb_refl. simpl.
  replace (Z.of_nat i + 1) with (Z.of_nat (S i)) by lia.
  apply IH. intros k Hk. apply Hall. lia.
Qed.

(** The session a successful [revealAndVerify] leaves. *)
Lemma game_revealed_storage (st : Storage) (gameId salt : Z) (valid : bool) :
  game (revealed_storage st gameId salt valid) gameId
  = set_verified valid (set_gameEnded true (set_revealedSalt salt (game st gameId))).
Proof. unfold revealed_storage. by rewrite game_emit, game_set_game. Qed.

Lemma reveal_matching (st : Storage) (gameId salt : Z)
    (dealtCards cardPositions : list Z) :
  vrfFulfilled (game st gameId) = true →
  gameEnded (game st gameId) = false →
  Keccak.keccak256 (be_bytes 32 salt) = saltHash (game st gameId) →
  length dealtCards = length cardPositions →
  all_pairs_match (replayed_deck st gameId salt) dealtCards cardPositions →
  revealAndVerify gameId salt dealtCards cardPositions st
  = Ok (true, revealed_storage st gameId salt true).
Proof.
  intros Hvrf Hend Hsalt Hlen Hall.
  rewrite reveal_after_checks by done.
  destruct (replayed_deck_cards st gameId salt) as (_ & _ & Hdeck).
  rewrite (verify_loop_matching _ _ _ _ Hdeck 0%nat); [done|].
  intros k Hk. apply Hall. lia.
Qed.

(** What a call of [revealAndVerify] that returns has done. *)
Lemma reveal_returns (st st' : Storage) (gameId salt : Z)
    (dealtCards cardPositions : list Z) (valid : bool) :
  revealAndVerify gameId salt dealtCards cardPositions st = Ok (valid, st') →
  vrfFulfilled (game st gameId) = true
  ∧ gameEnded (game st gameId) = false
  ∧ length dealtCards = length cardPositions
  ∧ Keccak.keccak256 (be_bytes 32 salt) = saltHash (game st gameId)
  ∧ verify_loop (replayed_deck st gameId salt) dealtCards cardPositions
                (length dealtCards) 0 = Ok valid
  ∧ st' = revealed_storage st gameId salt valid.
Proof.
  intros Hrun.
  destruct (reveal_checks st gameId salt dealtCards cardPositions)
    as [[reason Hr]|(Hvrf & Hend & Hlen & Hsalt)]; [congruence|].
  rewrite reveal_after_checks in Hrun by done.
  destruct (verify_loop _ _ _ _ _) as [v|e]; [|done].
  rewrite bind_Ok in Hrun. injection Hrun as -> <-. done.
Qed.

(** X2. An honest reveal is accepted: when the salt is the committed one and
    every claimed card is the card of the replayed deck at the claimed
    position, the call returns [true] and the session is marked ended and
    verified. *)
Theorem honest_reveal_is_verified (st : Storage) (gameId salt : Z)
    (dealtCards cardPositions : list Z) :
  vrfFulfilled (game st gameId) = true →
  gameEnded (game st gameId) = false →
  Keccak.keccak256 (be_bytes 32 salt) = saltHash (game st gameId) →
  length dealtCards = length cardPositions →
  all_pairs_match (replayed_deck st gameId salt) dealtCards cardPositions →
  ∃ st', revealAndVerify gameId salt dealtCards cardPositions st = Ok (true, st')
         ∧ getGameState gameId st'
           = (saltHash (game st gameId), pythSeed (game st gameId), true, true, true)
         ∧ revealedSalt (game st' gameId) = salt.
Proof.
  intros Hvrf Hend Hsalt Hlen Hall.
  rewrite reveal_matching by done.
  eexists. split; [reflexivity|].
  unfold getGameState. rewrite game_revealed_storage. simpl. by rewrite Hvrf.
Qed.

Lemma honest_reveal_is_verified_witness :
  ∃ st', revealAndVerify 1 1 [45; 15; 1] [0; 2; 1] fulfilled_storage = Ok (true, st')
         ∧ getGameState 1 st'
           = (saltHash (game fulfilled_storage 1), pythSeed (game fulfilled_storage 1),
              true, true, true)
         ∧ revealedSalt (game st' 1) = 1.
Proof.
  apply honest_reveal_is_verified.
  - reflexivity.
  - reflexivity.
  - apply keccak256_uint256_one.
  - reflexivity.
  - intros i Hi. rewrite replayed_sample_deck.
    destruct i as [|[|[|i]]]; [| | |simpl in Hi; lia].
    + exists 0, 45. repeat split; (reflexivity || lia).
    + exists 2, 15. repeat split; (reflexivity || lia).
    + exists 1, 1. repeat split; (reflexivity || lia).
Defined.

(** X3. The verdict of a reveal that returns: it is [true] exactly when every
    claimed pair matches the deck replayed from the stored seed and the salt;
    it is what the session records, and the session is ended. *)
Theorem verdict_true_iff_all_pairs_match (st st' : Storage) (gameId salt : Z)
    (dealtCards cardPositions : list Z) (valid : bool) :
  uint8_array dealtCards → uint8_array cardPositions →
  revealAndVerify gameId salt dealtCards cardPositions st = Ok (valid, st') →
  (valid = true
   ↔ all_pairs_match (replayed_deck st gameId salt) dealtCards cardPositions)
  ∧ verified (game st' gameId) = valid
  ∧ gameEnded (game st' gameId) = true
  ∧ revealedSalt (game st' gameId) = salt.
Proof.
  intros _ _ (Hvrf & Hend & Hlen & Hsalt & Hloop & ->)%reveal_returns.
  destruct (replayed_deck_cards st gameId salt) as (_ & _ & Hdeck).
  split.
  - rewrite (verify_loop_verdict _ _ _ _ Hdeck 0%nat valid Hloop).
    unfold all_pairs_match. split; intros Hall k Hk; apply Hall; lia.
  - by rewrite game_revealed_storage.
Qed.

Lemma verdict_true_iff_all_pairs_match_witness :
  (false = true
   ↔ all_pairs_match (replayed_deck fulfilled_storage 1 1) [200; 0] [0; 52])
  ∧ verified (game (revealed_storage fulfilled_storage 1 1 false) 1) = false
  ∧ gameEnded (game (revealed_storage fulfilled_storage 1 1 false) 1) = true
  ∧ revealedSalt (game (revealed_storage fulfilled_storage 1 1 false) 1) = 1.
Proof.
  apply (verdict_true_iff_all_pairs_match fulfilled_storage _ 1 1 [200; 0] [0; 52] false).
  - repeat constructor; lia.
  - repeat constructor; lia.
  - rewrite reveal_after_checks; [|reflexivity|reflexivity|reflexivity|].
    + by rewrite replayed_sample_deck.
    + apply keccak256_uint256_one.
Defined.

(** *** What later calls cannot change *)

Lemma game_set_game_ne (st : Storage) (gameId other : Z) (g : GameSession) :
  other ≠ gameId → game (set_game other g st) gameId = game st gameId.
Proof. intros Hne. unfold game, set_game. simpl. by rewrite lookup_insert_ne. Qed.

(** What one call can do to the session of a game id. *)
Lemma transact_session (st : Storage) (c : Call) (gameId : Z) :
  let g := game st gameId in
  let g' := game (transact st c) gameId in
  g' = g
  ∨ (saltHash g = 0 ∧ ∃ h sender, g' = mkGameSession h 0 0 sender 0 false false false)
  ∨ (∃ seq, g' = set_sequenceNumber seq g)
  ∨ (∃ random, g' = set_fulfilled random g)
  ∨ (gameEnded g = false
     ∧ ∃ salt valid, g' = set_verified valid (set_gameEnded true (set_revealedSalt salt g))).
Proof.
  intros g g'. subst g g'.
  destruct c as [sender id h|value fee seq id|seq random|id salt d p];
    cbn [transact].
  - unfold commitSalt.
    destruct (Z.eqb_spec (saltHash (game st id)) 0) as [Hzero|Hnz]; [|by left].
    rewrite require_true. destruct (negb (h =? 0)); [|by left]. rewrite require_true.
    cbn [storage_after_void]. rewrite game_emit.
    destruct (decide (id = gameId)) as [Heq|Hne].
    + subst id. rewrite game_set_game. right. left. split; [done|]. by eexists _, _.
    + rewrite game_set_game_ne by done. by left.
  - unfold requestShuffle.
    destruct (negb (saltHash (game st id) =? 0)); [|by left]. rewrite require_true.
    destruct (sequenceNumber (game st id) =? 0); [|by left]. rewrite require_true.
    destruct (fee <=? value); [|by left]. rewrite require_true.
    cbn [storage_after]. rewrite game_emit.
    change (game {| games := games (set_game id (set_sequenceNumber seq (game st id)) st);
                   seqToGameId := _; events := _ |} gameId)
      with (game (set_game id (set_sequenceNumber seq (game st id)) st) gameId).
    destruct (decide (id = gameId)) as [Heq|Hne].
    + subst id. rewrite game_set_game. right. right. left. by eexists.
    + rewrite game_set_game_ne by done. by left.
  - unfold entropyCallback.
    destruct (negb (default 0 (seqToGameId st !! seq) =? 0)); [|by left].
    rewrite require_true. cbn [storage_after_void]. rewrite game_emit.
    destruct (decide (default 0 (seqToGameId st !! seq) = gameId)) as [Heq|Hne].
    + rewrite Heq, game_set_game. right. right. right. left. by eexists.
    + rewrite game_set_game_ne by done. by left.
  - destruct (revealAndVerify id salt d p st) as [[valid st']|e] eqn:Hrun; [|by left].
    apply reveal_returns in Hrun as (_ & Hopen & _ & _ & _ & ->).
    cbn [storage_after]. unfold revealed_storage. rewrite game_emit.
    destruct (decide (id = gameId)) as [Heq|Hne].
    + subst id. rewrite game_set_game. right. right. right. right.
      split; [done|]. by eexists _, _.
    + rewrite game_set_game_ne by done. by left.
Qed.

Lemma transact_commitment (st : Storage) (c : Call) (gameId : Z) :
  saltHash (game st gameId) ≠ 0 →
  commitment (game (transact st c) gameId) = commitment (game st gameId).
Proof.
  intros Hcommitted.
  destruct (transact_session st c gameId)
    as [->|[[Hz _]|[[seq ->]|[[random ->]|[_ (salt & valid & ->)]]]]]; done.
Qed.

Lemma transact_verdict (st : Storage) (c : Call) (gameId : Z) :
  saltHash (game st gameId) ≠ 0 → gameEnded (game st gameId) = true →
  verdict (game (transact st c) gameId) = verdict (game st gameId).
Proof.
  intros Hcommitted Hended.
  destruct (transact_session st c gameId)
    as [->|[[Hz _]|[[seq ->]|[[random ->]|[Hopen _]]]]]; try done. congruence.
Qed.

Lemma run_commitment (calls : list Call) : ∀ (st : Storage) (gameId : Z),
  saltHash (game st gameId) ≠ 0 →
  commitment (game (run st calls) gameId) = commitment (game st gameId).
Proof.
  induction calls as [|c calls IH]; intros st gameId Hc; [done|].
  pose proof (transact_commitment st c gameId Hc) as Hstep.
  change (run st (c :: calls)) with (run (transact st c) calls).
  rewrite IH, Hstep; [done|].
  injection Hstep as -> _. done.
Qed.

Lemma run_verdict (calls : list Call) : ∀ (st : Storage) (gameId : Z),
  saltHash (game st gameId) ≠ 0 → gameEnded (game st gameId) = true →
  verdict (game (run st calls) gameId) = verdict (game st gameId).
Proof.
  induction calls as [|c calls IH]; intros st gameId Hc He; [done|].
  pose proof (transact_commitment st c gameId Hc) as Hstep.
  pose proof (transact_verdict st c gameId Hc He) as Hv.
  change (run st (c :: calls)) with (run (transact st c) calls).
  rewrite IH, Hv; [done| |].
  - injection Hstep as -> _. done.
  - injection Hv as _ -> _. done.
Qed.

(** X4. The commitment is binding: once a salt hash is committed for a game id,
    no sequence of calls, by anyone, changes that hash or the host it
    records; a second commitSalt for the id reverts. *)
Theorem commitment_is_binding (st : Storage) (gameId : Z) (calls : list Call) :
  Forall well_typed calls →
  saltHash (game st gameId) ≠ 0 →
  saltHash (game (run st calls) gameId) = saltHash (game st gameId)
  ∧ host (game (run st calls) gameId) = host (game st gameId)
  ∧ ∀ sender h,
      commitSalt sender gameId h (run st calls) = Err (Revert "already committed").
Proof.
  intros _ Hc. pose proof (run_commitment calls st gameId Hc) as Heq.
  injection Heq as Hs Hh. split; [done|]. split; [done|].
  intros sender h. unfold commitSalt. rewrite Hs.
  destruct (Z.eqb_spec (saltHash (game st gameId)) 0); [done|]. by rewrite require_false.
Qed.

Lemma commitment_is_binding_witness :
  let calls := [CommitSalt 0xB0B 1 5; RequestShuffle 9 5 8 1; EntropyCallback 7 0xF00D;
                RevealAndVerify 1 2 [] []] in
  saltHash (game (run fulfilled_storage calls) 1) = saltHash (game fulfilled_storage 1)
  ∧ host (game (run fulfilled_storage calls) 1) = host (game fulfilled_storage 1)
  ∧ ∀ sender h,
      commitSalt sender 1 h (run fulfilled_storage calls) = Err (Revert "already committed").
Proof.
  apply (commitment_is_binding fulfilled_storage 1).
  - repeat constructor; lia.
  - vm_compute. discriminate.
Defined.

(** X5. The verdict is final: once a committed session is ended, no sequence of
    calls changes its revealed salt, its ended flag or its verified flag, and
    every further revealAndVerify for it reverts. *)
Theorem verdict_is_final (st : Storage) (gameId : Z) (calls : list Call) :
  Forall well_typed calls →
  saltHash (game st gameId) ≠ 0 → gameEnded (game st gameId) = true →
  gameEnded (game (run st calls) gameId) = true
  ∧ verified (game (run st calls) gameId) = verified (game st gameId)
  ∧ revealedSalt (game (run st calls) gameId) = revealedSalt (game st gameId)
  ∧ ∀ salt dealtCards cardPositions,
      ∃ reason, revealAndVerify gameId salt dealtCards cardPositions (run st calls)
                = Err (Revert reason).
Proof.
  intros _ Hc He. pose proof (run_verdict calls st gameId Hc He) as Heq.
  injection Heq as Hs Hg Hv. rewrite He in Hg.
  split; [done|]. split; [done|]. split; [done|].
  intros salt d p.
  destruct (reveal_checks (run st calls) gameId salt d p)
    as [Hr|(_ & Hopen & _)]; [done|congruence].
Qed.

Lemma verdict_is_final_witness :
  let st := revealed_storage fulfilled_storage 1 1 false in
  let calls := [CommitSalt 0xB0B 1 5; EntropyCallback 7 0xF00D; RevealAndVerify 1 1 [] []] in
  gameEnded (game (run st calls) 1) = true
  ∧ verified (game (run st calls) 1) = verified (game st 1)
  ∧ revealedSalt (game (run st calls) 1) = revealedSalt (game st 1)
  ∧ ∀ salt dealtCards cardPositions,
      ∃ reason, revealAndVerify 1 salt dealtCards cardPositions (run st calls)
                = Err (Revert reason).
Proof.
  apply (verdict_is_final (revealed_storage fulfilled_storage 1 1 false) 1).
  - repeat constructor; lia.
  - rewrite game_revealed_storage. vm_compute. discriminate.
  - rewrite game_revealed_storage. reflexivity.
Defined.

(** *** The steps before the reveal *)

Lemma commitSalt_fresh (st : Storage) (sender gameId h : Z) :
  saltHash (game st gameId) = 0 → h ≠ 0 →
  commitSalt sender gameId h st
  = Ok (emit (SaltCommitted gameId h sender)
          (set_game gameId (mkGameSession h 0 0 sender 0 false false false) st)).
Proof.
  intros Hfree Hh. unfold commitSalt. rewrite Hfree. simpl.
  destruct (Z.eqb_spec h 0); [done|]. reflexivity.
Qed.

Lemma requestShuffle_committed (st : Storage) (value fee seq gameId : Z) :
  saltHash (game st gameId) ≠ 0 → sequenceNumber (game st gameId) = 0 → fee ≤ value →
  requestShuffle value fee seq gameId st
  = Ok (seq,
        emit (ShuffleRequested gameId seq)
          (mkStorage (<[gameId := set_sequenceNumber seq (game st gameId)]> (games st))
                     (<[seq := gameId]> (seqToGameId st)) (events st))).
Proof.
  intros Hc Hs Hfee. unfold requestShuffle. rewrite Hs.
  destruct (Z.eqb_spec (saltHash (game st gameId)) 0); [done|].
  destruct (Z.leb_spec fee value); [|lia]. reflexivity.
Qed.

(** X6. A sequence number that is not routed to a game, or is routed to the game
    id zero, cannot be fulfilled: the callback reverts.  The game id zero can
    be committed and its shuffle requested, but the callback for the sequence
    number obtained then reverts, whatever the random number. *)
Theorem game_id_zero_never_fulfilled (st : Storage) (seq randomNumber : Z) :
  (default 0 (seqToGameId st !! seq) = 0 →
     entropyCallback seq randomNumber st = Err (Revert "unknown sequence"))
  ∧ ∀ value fee result,
      requestShuffle value fee seq 0 st = Ok result →
      entropyCallback seq randomNumber result.2 = Err (Revert "unknown sequence").
Proof.
  split.
  - intros Hz. unfold entropyCallback. by rewrite Hz.
  - intros value fee result. unfold requestShuffle.
    destruct (negb (saltHash (game st 0) =? 0)); [|done]. rewrite require_true.
    destruct (sequenceNumber (game st 0) =? 0); [|done]. rewrite require_true.
    destruct (fee <=? value); [|done]. rewrite require_true.
    intros [= <-]. unfold entropyCallback. simpl.
    by rewrite lookup_insert_eq.
Qed.

Lemma game_id_zero_never_fulfilled_witness :
  let st := emit (SaltCommitted 0 committed_hash 0xA11CE)
              (set_game 0 (mkGameSession committed_hash 0 0 0xA11CE 0 false false false)
                 (mkStorage ∅ ∅ [])) in
  ∃ st', requestShuffle 5 5 7 0 st = Ok (7, st')
         ∧ entropyCallback 7 0xBEEF st' = Err (Revert "unknown sequence").
Proof.
  intros st. eexists. split; [reflexivity|].
  apply (proj2 (game_id_zero_never_fulfilled st 7 0xBEEF) 5 5 (7, _)).
  reflexivity.
Defined.

(** X7. The protocol run in its order, for a game id other than zero that is
    free: commitSalt, requestShuffle and the callback of the Entropy contract
    return and leave the session fulfilled with the delivered seed; the
    reveal of the committed salt with honest claims then returns [true]. *)
Theorem protocol_run (st : Storage) (sender gameId salt value fee seq randomNumber : Z)
    (dealtCards cardPositions : list Z) :
  gameId ≠ 0 →
  saltHash (game st gameId) = 0 →
  Keccak.keccak256 (be_bytes 32 salt) ≠ 0 →
  fee ≤ value →
  let h := Keccak.keccak256 (be_bytes 32 salt) in
  ∃ st1 st2 st3,
    commitSalt sender gameId h st = Ok st1
    ∧ requestShuffle value fee seq gameId st1 = Ok (seq, st2)
    ∧ entropyCallback seq randomNumber st2 = Ok st3
    ∧ game st3 gameId = mkGameSession h randomNumber 0 sender seq true false false
    ∧ (length dealtCards = length cardPositions →
       all_pairs_match (replayed_deck st3 gameId salt) dealtCards cardPositions →
       ∃ st4,
         revealAndVerify gameId salt dealtCards cardPositions st3 = Ok (true, st4)
         ∧ getGameState gameId st4 = (h, randomNumber, true, true, true)).
Proof.
  intros Hid Hfree Hh Hfee h.
  assert (Hhash : Keccak.keccak256 (be_bytes 32 salt) = h) by reflexivity.
  rewrite Hhash in Hh. clearbody h.
  pose proof (commitSalt_fresh st sender gameId h Hfree Hh) as Hcommit.
  set (st1 := emit _ _) in Hcommit.
  assert (Hg1 : game st1 gameId = mkGameSession h 0 0 sender 0 false false false).
  { unfold st1. by rewrite game_emit, game_set_game. }
  pose proof (requestShuffle_committed st1 value fee seq gameId) as Hrequest.
  rewrite Hg1 in Hrequest. specialize (Hrequest Hh eq_refl Hfee).
  set (st2 := emit _ _) in Hrequest.
  assert (Hg2 : game st2 gameId = mkGameSession h 0 0 sender seq false false false).
  { unfold st2. rewrite game_emit. unfold game. cbn [games]. by rewrite lookup_insert_eq. }
  assert (Hroute : default 0 (seqToGameId st2 !! seq) = gameId).
  { unfold st2. cbn [emit seqToGameId]. by rewrite lookup_insert_eq. }
  assert (∃ st3, entropyCallback seq randomNumber st2 = Ok st3
                 ∧ game st3 gameId
                   = mkGameSession h randomNumber 0 sender seq true false false)
    as (st3 & Hcallback & Hg3).
  { unfold entropyCallback. rewrite Hroute.
    destruct (Z.eqb_spec gameId 0); [done|]. rewrite require_true.
    eexists. split; [reflexivity|]. by rewrite game_emit, game_set_game, Hg2. }
  exists st1, st2, st3. split; [done|]. split; [done|]. split; [done|]. split; [done|].
  intros Hlen Hall.
  rewrite reveal_matching; [|by rewrite Hg3..|done|done].
  eexists. split; [reflexivity|].
  unfold getGameState. by rewrite game_revealed_storage, Hg3.
Qed.

Lemma protocol_run_witness :
  ∃ st1 st2 st3,
    commitSalt 0xA11CE 1 (Keccak.keccak256 (be_bytes 32 1)) (mkStorage ∅ ∅ []) = Ok st1
    ∧ requestShuffle 5 5 7 1 st1 = Ok (7, st2)
    ∧ entropyCallback 7 0xBEEF st2 = Ok st3
    ∧ game st3 1
      = mkGameSession (Keccak.keccak256 (be_bytes 32 1)) 0xBEEF 0 0xA11CE 7 true false false
    ∧ (length (@nil Z) = length (@nil Z) →
       all_pairs_match (replayed_deck st3 1 1) [] [] →
       ∃ st4,
         revealAndVerify 1 1 [] [] st3 = Ok (true, st4)
         ∧ getGameState 1 st4 = (Keccak.keccak256 (be_bytes 32 1), 0xBEEF, true, true, true)).
Proof.
  apply (protocol_run (mkStorage ∅ ∅ []) 0xA11CE 1 1 5 5 7 0xBEEF [] []).
  - lia.
  - reflexivity.
  - rewrite keccak256_uint256_one. lia.
  - lia.
Defined.

End DealerProtocolTheory.

(** ** The turn *)

Module TurnTheory.
Import Engine Spec EngineSamples ActionTheory.

Lemma advanceFrom_loop_spec (startIdx : Z) (gs : GameState) (count : nat) :
  ∀ offset, 0 ≤ startIdx → 0 ≤ offset → (players gs ≠ []) →
    (advanceFrom_loop startIdx count offset gs = Ok gs
     ∧ ∀ j, offset ≤ j < offset + Z.of_nat count → ¬ turn_at gs (seat_after gs startIdx j))
    ∨ ∃ k, offset ≤ k < offset + Z.of_nat count
           ∧ advanceFrom_loop startIdx count offset gs
             = Ok (set_currentPlayerIndex (seat_after gs startIdx k) gs)
           ∧ turn_at gs (seat_after gs startIdx k)
           ∧ ∀ j, offset ≤ j < k → ¬ turn_at gs (seat_after gs startIdx j).
Proof.
  induction count as [|count IH]; intros offset Hs Ho Hne.
  - left. split; [done|]. intros j Hj. lia.
  - assert (Hn : 0 < Z.of_nat (length (players gs))).
    { destruct (players gs); [done|simpl; lia]. }
    cbn [advanceFrom_loop].
    destruct (player_at_in_range gs
                (Z.rem (startIdx + offset) (Z.of_nat (length (players gs)))))
      as [p Hp]; [apply rem_in_range; lia|].
    rewrite Hp, bind_Ok.
    destruct (negb (Player.isFolded p) && (0 <? Player.chips p)) eqn:Hturn.
    + right. exists offset. split; [lia|]. split; [done|].
      split; [by exists p|]. intros j Hj. lia.
    + assert (Hnot : ¬ turn_at gs (seat_after gs startIdx offset)).
      { intros (q & Hq & Hqt). unfold seat_after in Hq. rewrite Hp in Hq.
        injection Hq as <-. unfold takes_turn in Hqt. congruence. }
      destruct (IH (offset + 1) Hs ltac:(lia) Hne) as [[Heq Hnone]|(k & Hk & Heq & Hat & Hbefore)].
      * left. split; [done|]. intros j Hj.
        destruct (decide (j = offset)) as [->|]; [done|]. apply Hnone. lia.
      * right. exists k. split; [lia|]. split; [done|]. split; [done|].
        intros j Hj. destruct (decide (j = offset)) as [->|]; [done|]. apply Hbefore. lia.
Qed.

Lemma advanceTurn_loop_advanceFrom (gs : GameState) (start : Z) (count : nat) :
  ∀ offset, 0 ≤ start → 0 ≤ offset → players gs ≠ [] →
    advanceTurn_loop count (Z.rem (start + offset) (Z.of_nat (length (players gs)))) gs
    = advanceFrom_loop start count (offset + 1) gs.
Proof.
  induction count as [|count IH]; intros offset Hs Ho Hne; [done|].
  assert (Hn : 0 < Z.of_nat (length (players gs))).
  { destruct (players gs); [done|simpl; lia]. }
  cbn [advanceTurn_loop advanceFrom_loop].
  assert (Hstep : Z.rem (Z.rem (start + offset) (Z.of_nat (length (players gs))) + 1)
                        (Z.of_nat (length (players gs)))
                  = Z.rem (start + (offset + 1)) (Z.of_nat (length (players gs)))).
  { pose proof (Z.mod_pos_bound (start + offset) _ Hn) as Hm.
    rewrite (Z.rem_mod_nonneg (start + offset)) by lia.
    rewrite (Z.rem_mod_nonneg (_ + 1)) by lia.
    rewrite (Z.rem_mod_nonneg (start + (offset + 1))) by lia.
    rewrite Z.add_assoc. by rewrite Zplus_mod_idemp_l. }
  rewrite Hstep.
  destruct (player_at gs _) as [p|e]; [|done]. rewrite !bind_Ok.
  case_match; [done|]. apply IH; [done|lia|done].
Qed.

Lemma advanceTurn_advanceFrom (gs : GameState) :
  0 ≤ currentPlayerIndex gs → players gs ≠ [] →
  advanceTurn gs = advanceFrom (currentPlayerIndex gs) gs.
Proof.
  intros Hc Hne. unfold advanceTurn, advanceFrom.
  rewrite bool_decide_eq_false_2 by (by destruct (players gs)).
  destruct (decide (currentPlayerIndex gs < Z.of_nat (length (players gs)))) as [Hlt|Hge].
  - rewrite <- (advanceTurn_loop_advanceFrom gs (currentPlayerIndex gs) _ 0) by (done || lia).
    rewrite Z.add_0_r. by rewrite Z.rem_small by lia.
  - (* the index is beyond the table: the first step brings it back *)
    destruct (length (players gs)) as [|n] eqn:Hlen; [by destruct (players gs)|].
    cbn [advanceTurn_loop advanceFrom_loop]. rewrite Hlen.
    destruct (player_at gs _) as [p|e]; [|done]. rewrite !bind_Ok.
    case_match; [done|].
    rewrite <- Hlen.
    rewrite <- (advanceTurn_loop_advanceFrom gs (currentPlayerIndex gs) n 1) by (done || lia).
    reflexivity.
Qed.

(** X8. [advanceFrom(startIdx)] gives the turn to the first player, counting
    round the table from the seat after [startIdx] and ending with
    [startIdx] itself, who has not folded and has chips left; when there is
    none the state is unchanged.  Nothing but currentPlayerIndex is written.
    [advanceTurn()] is [advanceFrom] of the current player. *)
Theorem advanceFrom_first_who_can_act (gs : GameState) (startIdx : Z) :
  0 ≤ startIdx → players gs ≠ [] →
  ((advanceFrom startIdx gs = Ok gs
    ∧ ∀ p, p ∈ players gs → takes_turn p = false)
   ∨ ∃ k, advanceFrom startIdx gs
          = Ok (set_currentPlayerIndex (seat_after gs startIdx k) gs)
          ∧ first_turn_after gs startIdx k)
  ∧ (0 ≤ currentPlayerIndex gs →
     advanceTurn gs = advanceFrom (currentPlayerIndex gs) gs).
Proof.
  intros Hs Hne. split; [|intros Hc; by apply advanceTurn_advanceFrom].
  assert (Hn : 0 < Z.of_nat (length (players gs))).
  { destruct (players gs); [done|simpl; lia]. }
  destruct (advanceFrom_loop_spec startIdx gs (length (players gs)) 1 Hs ltac:(lia) Hne)
    as [[Heq Hnone]|(k & Hk & Heq & Hat & Hbefore)].
  - left. split; [done|]. intros p Hp.
    destruct (takes_turn p) eqn:Hturn; [|done]. exfalso.
    apply list_elem_of_lookup in Hp as [i Hi].
    pose proof (lookup_lt_Some _ _ _ Hi) as Hlt.
    set (n := Z.of_nat (length (players gs))) in *.
    set (k0 := (Z.of_nat i - startIdx) mod n).
    pose proof (Z.mod_pos_bound (Z.of_nat i - startIdx) n Hn) as Hk0. fold k0 in Hk0.
    set (k := if decide (k0 = 0) then n else k0).
    assert (Hk : 1 ≤ k ≤ n) by (subst k; case_decide; lia).
    apply (Hnone k); [lia|].
    assert (Hseat : seat_after gs startIdx k = Z.of_nat i).
    { unfold seat_after. fold n. rewrite Z.rem_mod_nonneg by lia.
      assert (k mod n = k0) as Hkm.
      { subst k. case_decide as H0; [rewrite Z.mod_same by lia; lia|by apply Z.mod_small; lia]. }
      rewrite <- Zplus_mod_idemp_r, Hkm. unfold k0.
      rewrite Zplus_mod_idemp_r. replace (startIdx + (Z.of_nat i - startIdx)) with (Z.of_nat i) by lia.
      apply Z.mod_small. lia. }
    rewrite Hseat. exists p. split; [|done].
    apply player_at_Ok. rewrite Nat2Z.id. split; [lia|done].
  - right. exists k. split; [done|]. split; [lia|]. split; [done|done].
Qed.

Lemma advanceFrom_first_who_can_act_witness :
  ((advanceFrom 0 heads_up_started = Ok heads_up_started
    ∧ ∀ p, p ∈ players heads_up_started → takes_turn p = false)
   ∨ ∃ k, advanceFrom 0 heads_up_started
          = Ok (set_currentPlayerIndex (seat_after heads_up_started 0 k) heads_up_started)
          ∧ first_turn_after heads_up_started 0 k)
  ∧ (0 ≤ currentPlayerIndex heads_up_started →
     advanceTurn heads_up_started
     = advanceFrom (currentPlayerIndex heads_up_started) heads_up_started).
Proof. apply advanceFrom_first_who_can_act; [lia|done]. Defined.

End TurnTheory.

(** ** Folding, and who is paid *)

Module SettleTheory.
Import Engine Spec EngineSamples ActionTheory SidePotTheory.

Lemma filter_none {A} (P : A → Prop) `{∀ x, Decision (P x)} (l : list A) :
  (∀ i x, l !! i = Some x → ¬ P x) → filter P l = [].
Proof.
  induction l as [|y l IH]; intros Hnone; [done|].
  rewrite filter_cons_False by (by apply (Hnone 0%nat y)).
  apply IH. intros i x Hi. by apply (Hnone (S i) x).
Qed.

Lemma filter_single {A} (P : A → Prop) `{∀ x, Decision (P x)} (l : list A) :
  ∀ (k : nat) (a : A),
    l !! k = Some a → P a → (∀ i x, l !! i = Some x → i ≠ k → ¬ P x) →
    filter P l = [a].
Proof.
  induction l as [|y l IH]; intros k a Hk Ha Hothers; [done|].
  destruct k as [|k]; simpl in Hk.
  - injection Hk as ->. rewrite filter_cons_True by done. f_equal.
    apply filter_none. intros i x Hi. by apply (Hothers (S i) x).
  - rewrite filter_cons_False by (by apply (Hothers 0%nat y)).
    apply (IH k a Hk Ha). intros i x Hi Hne. apply (Hothers (S i) x Hi). lia.
Qed.

Lemma stacks_same (gs : GameState) (i : Z) (g : Player.t → Player.t) :
  (∀ p, Player.chips (g p) = Player.chips p) →
  stacks (update_player i g gs) = stacks gs.
Proof.
  intros Hg. unfold stacks. simpl. apply list_eq. intros k.
  rewrite !list_lookup_fmap, list_lookup_alter.
  case_decide as Hk; [rewrite <- Hk|done].
  destruct (players gs !! Z.to_nat i); [simpl; by rewrite Hg|done].
Qed.

(** X9. fold and check move no chips: for a valid seat they return, and every
    stack and the pot are what they were. *)
Theorem fold_and_check_move_no_chips (gs : GameState) (playerId : Z) :
  0 ≤ playerId < Z.of_nat (length (players gs)) →
  0 ≤ dealerPosition gs →
  (∃ gs', fold playerId gs = Ok gs' ∧ stacks gs' = stacks gs ∧ pot gs' = pot gs)
  ∧ (∃ gs', check playerId gs = Ok gs' ∧ stacks gs' = stacks gs ∧ pot gs' = pot gs).
Proof.
  intros Hi Hd. destruct (player_at_in_range gs playerId Hi) as [p Hp]. split.
  - unfold fold. rewrite Hp, bind_Ok. case_match; [by exists gs|].
    set (gs1 := addLog _ _).
    destruct (postActionHandler_keeps playerId gs1 ltac:(lia) Hd) as (gs2 & -> & Hst & Hpot & _).
    exists gs2. split; [done|]. rewrite Hst, Hpot. split; [|done].
    unfold gs1. by apply stacks_same.
  - unfold check. rewrite Hp, bind_Ok. case_match; [by exists gs|].
    case_match; [by exists gs|].
    destruct (postActionHandler_keeps playerId (addLog (Player.name p +:+ " checks") gs)
                ltac:(lia) Hd) as (gs2 & -> & Hst & Hpot & _).
    by exists gs2.
Qed.

Lemma fold_and_check_move_no_chips_witness :
  (∃ gs', fold 1 heads_up_started = Ok gs'
          ∧ stacks gs' = stacks heads_up_started ∧ pot gs' = pot heads_up_started)
  ∧ (∃ gs', check 1 heads_up_started = Ok gs'
            ∧ stacks gs' = stacks heads_up_started ∧ pot gs' = pot heads_up_started).
Proof. apply fold_and_check_move_no_chips; simpl; lia. Defined.

(** X10. The last player standing takes the pot.  When a player who can
    still act folds and one other player, and only one, has not folded, the
    hand goes to the showdown at once; settlePot then adds the whole pot to
    the stack of that other player and touches no other stack, and it leaves
    the pot as it is (the next hand resets it). *)
Theorem last_player_takes_pot (gs : GameState) (playerId winner : Z)
    (folder last : Player.t) :
  player_at gs playerId = Ok folder →
  player_at gs winner = Ok last →
  winner ≠ playerId →
  Player.isFolded folder = false → Player.isAllIn folder = false → stage gs ≠ Showdown →
  Player.isFolded last = false → Player.isActive last = true →
  (∀ i p, players gs !! i = Some p → Z.of_nat i ≠ playerId → Z.of_nat i ≠ winner →
          Player.isFolded p = true) →
  amounts_in_range gs →
  ∃ gs1 gs2,
    fold playerId gs = Ok gs1
    ∧ stage gs1 = Showdown
    ∧ stacks gs1 = stacks gs ∧ pot gs1 = pot gs
    ∧ settlePot gs1 = Ok gs2
    ∧ stacks gs2 = <[Z.to_nat winner := Player.chips last + pot gs]> (stacks gs)
    ∧ pot gs2 = pot gs.
Proof.
  intros Hf Hw Hne Hnotfolded Hnotallin Hstage Hlast Hactive Hothers _.
  pose proof Hf as [Hi Hfl]%player_at_Ok. pose proof Hw as [Hwi Hwl]%player_at_Ok.
  unfold fold. rewrite Hf, bind_Ok, Hnotfolded, Hnotallin.
  rewrite bool_decide_eq_false_2 by done. cbn [orb].
  set (gs1 := addLog _ (update_player playerId (Player.set_isFolded true) gs)).
  assert (Hps1 : players gs1 = alter (Player.set_isFolded true) (Z.to_nat playerId) (players gs))
    by reflexivity.
  assert (Hw1 : players gs1 !! Z.to_nat winner = Some last).
  { rewrite Hps1, list_lookup_alter_ne by lia. done. }
  assert (Hothers1 : ∀ i p, players gs1 !! i = Some p → i ≠ Z.to_nat winner →
                            Player.isFolded p = true).
  { intros i p Hp Hiw. rewrite Hps1, list_lookup_alter in Hp.
    case_decide as Hip.
    - subst i. rewrite Hfl in Hp. by injection Hp as <-.
    - apply (Hothers i p Hp); lia. }
  unfold postActionHandler.
  set (gs0 := set_bettingActions _ gs1).
  assert (Hremaining : filter (λ p, Player.isFolded p = false) (players gs0) = [last]).
  { apply (filter_single _ _ (Z.to_nat winner) last Hw1 Hlast).
    intros i p Hp Hiw Hnf. rewrite (Hothers1 i p Hp Hiw) in Hnf. done. }
  rewrite Hremaining, bool_decide_eq_true_2 by done.
  set (gsS := set_stage Showdown gs0).
  assert (HstS : stacks gsS = stacks gs).
  { transitivity (stacks (update_player playerId (Player.set_isFolded true) gs));
      [reflexivity|by apply stacks_same]. }
  exists gsS, (update_player winner
                 (λ p, Player.set_chips (Player.chips p + pot gsS) p) gsS).
  split; [done|]. split; [done|]. split; [done|]. split; [done|].
  assert (HwS : player_at gsS winner = Ok last) by (by apply player_at_Ok).
  assert (Hin : in_hand gsS = [(winner, last)]).
  { unfold in_hand.
    apply (filter_single _ _ (Z.to_nat winner) (winner, last)).
    - rewrite list_lookup_imap. change (players gsS) with (players gs1).
      rewrite Hw1. simpl. by rewrite Z2Nat.id.
    - simpl. by rewrite Hlast, Hactive.
    - intros i [j p] Hp Hiw. rewrite list_lookup_imap in Hp.
      change (players gsS) with (players gs1) in Hp.
      destruct (players gs1 !! i) as [q|] eqn:Hq; [|done].
      injection Hp as <- <-. simpl. rewrite (Hothers1 i q Hq Hiw). done. }
  split.
  - unfold settlePot. rewrite Hin. unfold pay. simpl deref. rewrite bind_Ok.
    cbn [fst]. by rewrite HwS, bind_Ok.
  - split; [|done]. rewrite (stacks_update _ _ _ _ HwS), HstS. done.
Qed.

Lemma last_player_takes_pot_witness :
  ∃ gs1 gs2,
    fold 0 heads_up_started = Ok gs1
    ∧ stage gs1 = Showdown
    ∧ stacks gs1 = stacks heads_up_started ∧ pot gs1 = pot heads_up_started
    ∧ settlePot gs1 = Ok gs2
    ∧ stacks gs2 = <[Z.to_nat 1 := 990 + pot heads_up_started]> (stacks heads_up_started)
    ∧ pot gs2 = pot heads_up_started.
Proof.
  eapply (last_player_takes_pot heads_up_started 0 1 _
            (Player.mk 1 "Bob" 990 _ true false false 10 10 false)).
  - reflexivity.
  - reflexivity.
  - lia.
  - reflexivity.
  - reflexivity.
  - discriminate.
  - reflexivity.
  - reflexivity.
  - intros [|[|i]] p Hp H0 H1; [lia|lia|]. simpl in Hp. done.
  - unfold amounts_in_range, in_range. simpl. repeat split; try lia.
    repeat constructor; simpl; lia.
Defined.

(** *** Side pots *)

Lemma level_loop_pots (ps : list Player.t) (P : SidePot → Prop) (levels : list Z) :
  (∀ level previous, level ∈ levels → 0 < level_amount ps previous level →
     P (mkSidePot (level_amount ps previous level)
          (Player.id <$> filter (λ p, level ≤ Player.totalBetInRound p) ps))) →
  ∀ (previous : Z) (pots : list SidePot),
    Forall P pots → Forall P (foldl (level_step ps) (previous, pots) levels).2.
Proof.
  induction levels as [|level levels IH]; intros Hlevels previous pots Hpots; [done|].
  simpl. apply IH.
  - intros lv prev Hlv. apply Hlevels. by right.
  - destruct (Z.ltb_spec 0 (level_amount ps previous level)) as [Hpos|_]; [|done].
    apply Forall_app. split; [done|]. apply Forall_singleton.
    apply (Hlevels level previous ltac:(by left) Hpos).
Qed.

(** X11. The side pots hold what the players who have not folded have put
    in over the hand, no more and no less: the amounts of the pots that
    calculateSidePots leaves add up to the totalBetInRound of the players who
    have not folded, and every pot has a positive amount.  The chips put in by
    a player who has folded since are in none of the pots. *)
Theorem side_pots_hold_live_contributions (gs : GameState) :
  Forall (λ p, 0 ≤ Player.totalBetInRound p) (players gs) →
  sum_Z (Player.totalBetInRound <$> players gs) ≤ 2 ^ 53 →
  sum_Z (amount <$> sidePots (calculateSidePots gs))
  = sum_Z (Player.totalBetInRound
             <$> filter (λ p, Player.isFolded p = false) (players gs))
  ∧ Forall (λ sp, 0 < amount sp) (sidePots (calculateSidePots gs)).
Proof.
  intros Hnonneg _. split.
  - rewrite side_pots_sum. unfold contributors.
    clear -Hnonneg. induction (players gs) as [|p ps IH]; [done|].
    apply Forall_cons in Hnonneg as [Hp Hps]. specialize (IH Hps).
    rewrite !filter_cons.
    destruct (decide (negb (Player.isFolded p) && (0 <? Player.totalBetInRound p) = true))
      as [Hin|Hout];
      destruct (decide (Player.isFolded p = false)) as [Hlive|Hfolded];
      rewrite ?fmap_cons; cbn [sum_Z]; rewrite ?IH; try done;
      destruct (Player.isFolded p); simpl in *; try done;
      destruct (Z.ltb_spec 0 (Player.totalBetInRound p)); try done; lia.
  - unfold calculateSidePots.
    set (ps := contributors gs). set (levels := sort_by _ _).
    pose proof (level_loop_pots ps (λ sp, 0 < amount sp) levels) as Hloop.
    destruct (foldl (level_step ps) (0, []) levels) as [previous pots] eqn:Hfold.
    specialize (Hloop ltac:(by intros level previous' _ Hpos) 0 [] ltac:(done)).
    rewrite Hfold in Hloop. cbn [snd] in Hloop.
    set (mainAmount := foldl _ 0 ps).
    destruct (Z.ltb_spec 0 mainAmount) as [Hpos|_]; simpl; [|done].
    apply Forall_app. split; [done|]. by apply Forall_singleton.
Qed.

Lemma side_pots_hold_live_contributions_witness :
  sum_Z (amount <$> sidePots (calculateSidePots side_pot_table))
  = sum_Z (Player.totalBetInRound
             <$> filter (λ p, Player.isFolded p = false) (players side_pot_table))
  ∧ Forall (λ sp, 0 < amount sp) (sidePots (calculateSidePots side_pot_table)).
Proof.
  apply side_pots_hold_live_contributions.
  - repeat constructor; simpl; lia.
  - simpl. lia.
Defined.

(** X12. Who can win a side pot.  Every pot that calculateSidePots leaves
    has a positive amount and lists at least one player.  It lists either
    every player who has not folded and has put chips in, or, for some such
    player who is all-in, exactly those of them who have put in at least as
    much as that player. *)
Theorem side_pot_eligible_players (gs : GameState) (sp : SidePot) :
  sp ∈ sidePots (calculateSidePots gs) →
  0 < amount sp
  ∧ eligiblePlayers sp ≠ []
  ∧ (eligiblePlayers sp = Player.id <$> contributors gs
     ∨ ∃ q, q ∈ contributors gs ∧ Player.isAllIn q = true
        ∧ eligiblePlayers sp
          = Player.id <$> filter (λ p, Player.totalBetInRound q ≤ Player.totalBetInRound p)
                                 (contributors gs)).
Proof.
  unfold calculateSidePots.
  set (ps := contributors gs). set (levels := sort_by _ _).
  set (P := λ sp : SidePot,
         0 < amount sp ∧ eligiblePlayers sp ≠ []
         ∧ (eligiblePlayers sp = Player.id <$> ps
            ∨ ∃ q, q ∈ ps ∧ Player.isAllIn q = true
               ∧ eligiblePlayers sp
                 = Player.id <$> filter (λ p, Player.totalBetInRound q
                                              ≤ Player.totalBetInRound p) ps)).
  pose proof (level_loop_pots ps P levels) as Hloop.
  destruct (foldl (level_step ps) (0, []) levels) as [previous pots] eqn:Hfold.
  assert (Hpots : Forall P pots).
  { replace pots with (foldl (level_step ps) (0, []) levels).2 by (by rewrite Hfold).
    apply Hloop; [|done].
    intros level previous' Hlevel Hpos.
    apply (proj1 (sort_by_elem _ _)) in Hlevel.
    apply list_elem_of_fmap in Hlevel as (q & -> & [Hall Hq]%list_elem_of_filter).
    split; [done|]. split.
    - cbn [eligiblePlayers].
      assert (q ∈ filter (λ p, Player.totalBetInRound q ≤ Player.totalBetInRound p) ps)
        as Hin by (apply list_elem_of_filter; split; [lia|done]).
      intros Hnil. apply fmap_nil_inv in Hnil. rewrite Hnil in Hin.
      by apply elem_of_nil in Hin.
    - right. by exists q. }
  set (mainAmount := foldl _ 0 ps).
  intros Hsp. cbn [sidePots set_sidePots] in Hsp.
  destruct (Z.ltb_spec 0 mainAmount) as [Hpos|_].
  - apply elem_of_app in Hsp as [Hsp|Hsp%list_elem_of_singleton].
    + by apply (proj1 (Forall_forall _ _) Hpots).
    + subst sp. split; [done|]. split.
      * cbn [eligiblePlayers]. intros Hnil. apply fmap_nil_inv in Hnil.
        unfold mainAmount in Hpos. rewrite Hnil in Hpos. simpl in Hpos. lia.
      * by left.
  - by apply (proj1 (Forall_forall _ _) Hpots).
Qed.

Lemma side_pot_eligible_players_witness :
  0 < amount (mkSidePot 150 [0; 1; 2])
  ∧ eligiblePlayers (mkSidePot 150 [0; 1; 2]) ≠ []
  ∧ (eligiblePlayers (mkSidePot 150 [0; 1; 2]) = Player.id <$> contributors side_pot_table
     ∨ ∃ q, q ∈ contributors side_pot_table ∧ Player.isAllIn q = true
        ∧ eligiblePlayers (mkSidePot 150 [0; 1; 2])
          = Player.id <$> filter (λ p, Player.totalBetInRound q ≤ Player.totalBetInRound p)
                                 (contributors side_pot_table)).
Proof.
  apply (side_pot_eligible_players side_pot_table). vm_compute. left.
Defined.

End SettleTheory.

(** ** The deck *)

Module DeckTheory.
Import Engine Spec EngineSamples CardDealerApi ShuffleTheory.

(** *** The hexadecimal form *)

Lemma hex_byte_forms :
  Forall (λ c, String.length (padStart 2 "0"%char (toString16 c)) = 2%nat
               ∧ parseInt16 (padStart 2 "0"%char (toString16 c)) = Some c)
         (seqZ 0 256).
Proof. apply (bool_decide_unpack _). vm_compute. exact I. Qed.

Lemma hex_pairs_app (s rest : string) :
  String.length s = 2%nat → hex_pairs (s +:+ rest) = parseInt16 s :: hex_pairs rest.
Proof.
  by destruct s as [|a [|b [|c s]]].
Qed.

Lemma hex_pairs_cards (cards : list Z) :
  Forall (λ c, 0 ≤ c < 256) cards →
  hex_pairs (foldr (λ c hex, padStart 2 "0"%char (toString16 c) +:+ hex) "" cards)
  = Some <$> cards.
Proof.
  induction 1 as [|c cards Hc _ IH]; [done|].
  cbn [foldr]. 
  assert (c ∈ seqZ 0 256) as Hin by (apply elem_of_seqZ; lia).
  destruct (proj1 (Forall_forall _ _) hex_byte_forms c Hin) as [Hlen Hparse].
  rewrite (hex_pairs_app _ _ Hlen), Hparse, IH. done.
Qed.

Lemma packed_bytes_prefixed (body : string) :
  packed_bytes (HexString ("0x" +:+ body)) = to_uint8 <$> hex_pairs body.
Proof. reflexivity. Qed.

(** X13. The packed deck survives the conversions.  For card indices that
    are bytes, what startNewHandWithPackedDeck decodes from the string that
    cardsToPackedDeck builds (0x and two hexadecimal digits a card) is the
    list of indices itself, so that starting a hand from that string is
    starting it from the bytes; and the card cardIndexToCard gives for an
    index is the card the engine decodes from it. *)
Theorem packed_deck_round_trip (cards : list Z) :
  Forall (λ c, 0 ≤ c < 256) cards →
  packed_bytes (HexString (cardsToPackedDeck cards)) = cards
  ∧ packed_bytes (NumberArray cards) = cards
  ∧ (∀ gs, startNewHandWithPackedDeck (HexString (cardsToPackedDeck cards)) gs
           = startNewHandWithPackedDeck (Uint8Array cards) gs)
  ∧ Forall (λ c, Card.rank (decode_card c) = rank (cardIndexToCard c)
                 ∧ at_index suitValues (suit (cardIndexToCard c))
                   = Some (Card.suit (decode_card c))) cards.
Proof.
  intros Hcards.
  assert (Hhex : packed_bytes (HexString (cardsToPackedDeck cards)) = cards).
  { unfold cardsToPackedDeck.
    rewrite packed_bytes_prefixed, (hex_pairs_cards _ Hcards), <- list_fmap_compose.
    rewrite <- (list_fmap_id cards) at 2. apply Forall_fmap_ext.
    eapply Forall_impl; [exact Hcards|]. intros c Hc. simpl in *. apply Z.mod_small. lia. }
  split; [done|]. split; [|split].
  - simpl. rewrite <- (list_fmap_id cards) at 2. apply Forall_fmap_ext.
    eapply Forall_impl; [exact Hcards|]. intros c Hc. simpl in *. apply Z.mod_small. lia.
  - intros gs. unfold startNewHandWithPackedDeck. by rewrite Hhex.
  - eapply Forall_impl; [exact Hcards|]. intros c Hc. simpl in Hc.
    split; [reflexivity|]. unfold decode_card, cardIndexToCard. cbn [Card.suit suit].
    pose proof (Z.rem_bound_pos c 4 ltac:(lia) ltac:(lia)) as Hrem.
    destruct (ActionTheory.at_index_in_range suitValues (Z.rem c 4)) as [s Hs];
      [simpl; lia|].
    by rewrite Hs.
Qed.

Lemma packed_deck_round_trip_witness :
  packed_bytes (HexString (cardsToPackedDeck [51; 0; 10; 255])) = [51; 0; 10; 255]
  ∧ packed_bytes (NumberArray [51; 0; 10; 255]) = [51; 0; 10; 255]
  ∧ (∀ gs, startNewHandWithPackedDeck (HexString (cardsToPackedDeck [51; 0; 10; 255])) gs
           = startNewHandWithPackedDeck (Uint8Array [51; 0; 10; 255]) gs)
  ∧ Forall (λ c, Card.rank (decode_card c) = rank (cardIndexToCard c)
                 ∧ at_index suitValues (suit (cardIndexToCard c))
                   = Some (Card.suit (decode_card c))) [51; 0; 10; 255].
Proof. apply packed_deck_round_trip. repeat constructor; lia. Defined.

(** *** The 52 cards *)

Lemma ordered_deck_decoded :
  ordered_deck = decode_card <$> (s ← [0; 1; 2; 3]; r ← seqZ 0 13; [4 * r + s]).
Proof. reflexivity. Qed.

Lemma ordered_indices :
  (s ← [0; 1; 2; 3]; r ← seqZ 0 13; [4 * r + s]) ≡ₚ seqZ 0 52.
Proof.
  apply NoDup_Permutation.
  - apply (bool_decide_unpack _). vm_compute. exact I.
  - apply NoDup_seqZ.
  - intros x. split.
    + intros Hx.
      assert (Forall (λ x, x ∈ seqZ 0 52) (s ← [0; 1; 2; 3]; r ← seqZ 0 13; [4 * r + s]))
        as Hall by (apply (bool_decide_unpack _); vm_compute; exact I).
      by apply (proj1 (Forall_forall _ _) Hall).
    + intros Hx.
      assert (Forall (λ x, x ∈ (s ← [0; 1; 2; 3]; r ← seqZ 0 13; [4 * r + s])) (seqZ 0 52))
        as Hall by (apply (bool_decide_unpack _); vm_compute; exact I).
      by apply (proj1 (Forall_forall _ _) Hall).
Qed.

Lemma decoded_deck (packed : list Z) :
  packed ≡ₚ seqZ 0 52 →
  decode_card <$> packed ≡ₚ ordered_deck ∧ NoDup (decode_card <$> packed).
Proof.
  intros Hperm.
  assert (Hdeck : decode_card <$> packed ≡ₚ ordered_deck).
  { rewrite ordered_deck_decoded, Hperm, ordered_indices. done. }
  split; [done|]. rewrite Hdeck.
  apply (bool_decide_unpack _). vm_compute. exact I.
Qed.

(** X14. A deck shuffled on chain is a full deck for the engine: for every
    seed, the 52 bytes that [_shuffle] returns are decoded by
    startNewHandWithPackedDeck into the 52 cards of the deck that createDeck
    builds, each of them once. *)
Theorem on_chain_deck_is_full_deck (seed : Z) :
  ∃ packed : list Z,
    PokerEntropyDealerV2._shuffle seed = Ok packed
    ∧ PokerEntropyDealer._shuffle seed = Ok packed
    ∧ (∀ gs, startNewHandWithPackedDeck (Uint8Array packed) gs
             = startNewHandInternal (External (decode_card <$> packed)) gs)
    ∧ decode_card <$> packed ≡ₚ ordered_deck
    ∧ NoDup (decode_card <$> packed)
    ∧ length (decode_card <$> packed) = 52%nat.
Proof.
  destruct (shuffle_permutation seed) as (packed & Heq & Hperm).
  assert (Hlen : length packed = 52%nat) by (by rewrite Hperm, length_seqZ).
  exists packed. split; [done|]. split; [done|].
  destruct (decoded_deck packed Hperm) as [Hdeck Hnodup].
  split; [|split; [done|split; [done|by rewrite length_fmap]]].
  intros gs. unfold startNewHandWithPackedDeck. cbn [packed_bytes].
  rewrite bool_decide_eq_false_2 by lia.
  by rewrite take_ge by lia.
Qed.

(** *** createDeck *)

Lemma swap_permutes {A} (arr : list A) (i j : nat) : swap arr i j ≡ₚ arr.
Proof.
  unfold swap. destruct (arr !! i) as [a|] eqn:Hi; [|done].
  destruct (arr !! j) as [b|] eqn:Hj; [|done].
  by apply Permutation_insert_swap.
Qed.

Lemma shuffle_loop_permutes {A} (i : nat) : ∀ (draws : list Z) (arr : list A),
  shuffle_loop i draws arr ≡ₚ arr.
Proof.
  induction i as [|i IH]; intros draws arr; [done|].
  destruct draws as [|j draws]; [done|]. cbn [shuffle_loop].
  by rewrite IH, swap_permutes.
Qed.

Lemma ordered_deck_cards (c : Card.t) : c ∈ ordered_deck ↔ 2 ≤ Card.rank c ≤ 14.
Proof.
  split.
  - intros Hc.
    assert (Forall (λ c, 2 ≤ Card.rank c ≤ 14) ordered_deck) as Hall
      by (apply (bool_decide_unpack _); vm_compute; exact I).
    by apply (proj1 (Forall_forall _ _) Hall).
  - intros Hr. destruct c as [r s]. simpl in Hr.
    unfold ordered_deck. apply list_elem_of_bind. exists s. split.
    + apply list_elem_of_bind. exists r. split; [by left|].
      apply elem_of_seqZ. lia.
    + unfold suitValues. destruct s; repeat constructor.
Qed.

(** X15. The deck of a hand that the engine shuffles itself is a full deck:
    whatever the 51 numbers drawn with [Math.random] are, createDeck returns
    the 52 cards (the ranks 2 to 14 of each of the four suits), each of them
    once. *)
Theorem createDeck_is_full_deck (draws : list Z) :
  length draws = 51%nat →
  (∀ (k : nat) (j : Z), draws !! k = Some j → 0 ≤ j ≤ 51 - Z.of_nat k) →
  createDeck draws ≡ₚ ordered_deck
  ∧ NoDup (createDeck draws)
  ∧ length (createDeck draws) = 52%nat
  ∧ ∀ c, c ∈ createDeck draws ↔ 2 ≤ Card.rank c ≤ 14.
Proof.
  intros _ _.
  assert (Hperm : createDeck draws ≡ₚ ordered_deck) by apply shuffle_loop_permutes.
  split; [done|]. split; [|split].
  - rewrite Hperm. apply (bool_decide_unpack _). vm_compute. exact I.
  - by rewrite Hperm.
  - intros c. rewrite Hperm. apply ordered_deck_cards.
Qed.

Lemma createDeck_is_full_deck_witness :
  createDeck (replicate 51 0) ≡ₚ ordered_deck
  ∧ NoDup (createDeck (replicate 51 0))
  ∧ length (createDeck (replicate 51 0)) = 52%nat
  ∧ ∀ c, c ∈ createDeck (replicate 51 0) ↔ 2 ≤ Card.rank c ≤ 14.
Proof.
  apply createDeck_is_full_deck.
  - reflexivity.
  - intros k j Hj. apply lookup_replicate in Hj as [-> Hk]. lia.
Defined.

End DeckTheory.

(** ** Hand evaluation at the table *)

Module EvaluationTheory.
Import Engine Spec EngineSamples ActionTheory.

Lemma set_of_loop_elem (l : list Z) : ∀ (seen : list Z) (x : Z),
  x ∈ foldl (λ seen x, if bool_decide (x ∈ seen) then seen else seen ++ [x]) seen l
  ↔ x ∈ seen ∨ x ∈ l.
Proof.
  induction l as [|y l IH]; intros seen x; simpl.
  - rewrite elem_of_nil. tauto.
  - rewrite IH, elem_of_cons. case_bool_decide as Hy.
    + split; [tauto|]. intros [?|[->|?]]; tauto.
    + rewrite elem_of_app, list_elem_of_singleton. tauto.
Qed.

Lemma set_of_elem (l : list Z) (x : Z) : x ∈ set_of l ↔ x ∈ l.
Proof. unfold set_of. rewrite set_of_loop_elem, elem_of_nil. tauto. Qed.

Lemma sort_insert_elem_of {A} (cmp : A → A → Z) (x y : A) (l : list A) :
  y ∈ sort_insert cmp x l ↔ y = x ∨ y ∈ l.
Proof.
  induction l as [|z l IH]; simpl.
  - rewrite list_elem_of_singleton, elem_of_nil. tauto.
  - case_match; rewrite !elem_of_cons; [done|]. rewrite IH. tauto.
Qed.

Lemma sort_by_elem_of {A} (cmp : A → A → Z) (y : A) (l : list A) :
  y ∈ sort_by cmp l ↔ y ∈ l.
Proof.
  induction l as [|x l IH]; simpl; [done|].
  rewrite sort_insert_elem_of, elem_of_cons, IH. done.
Qed.

Lemma find_rank_found (cards : list Card.t) (r : Z) :
  r ∈ Card.rank <$> cards → ∃ c, find_rank cards r = Some c.
Proof.
  intros (c & -> & Hc)%list_elem_of_fmap. unfold find_rank.
  induction cards as [|d cards IH]; [by apply elem_of_nil in Hc|].
  simpl. destruct (Z.eqb_spec (Card.rank d) (Card.rank c)) as [_|Hne]; [by eexists|].
  apply IH. apply elem_of_cons in Hc as [->|Hc]; done.
Qed.

Lemma straight_loop_head (sortedCards : list Card.t) (uniqueRanks : list Z) (count : nat) :
  (∀ r, r ∈ uniqueRanks → r ∈ Card.rank <$> sortedCards) →
  ∀ (i : nat) (cs : list Card.t),
    straight_loop sortedCards uniqueRanks count i = Some cs → ∃ c, head cs = Some c.
Proof.
  intros Hranks. induction count as [|count IH]; intros i cs; [done|].
  cbn [straight_loop].
  destruct (forallb _ (seq 0 4)) eqn:Hcons; [|apply IH].
  intros [= <-].
  cbn [forallb seq] in Hcons. apply andb_true_iff in Hcons as [H0 _].
  rewrite Nat.add_0_r in H0.
  destruct (uniqueRanks !! i) as [a|] eqn:Ha; [|done].
  destruct (find_rank_found sortedCards a) as [c Hc].
  { apply Hranks. by eapply list_elem_of_lookup_2. }
  exists c. cbn [seq omap]. rewrite Nat.add_0_r, Ha. simpl. by rewrite Hc.
Qed.

Lemma checkStraight_head (sortedCards cs : list Card.t) :
  checkStraight sortedCards = (true, cs) → ∃ c, head cs = Some c.
Proof.
  unfold checkStraight.
  set (rankSet := set_of _). set (uniqueRanks := sort_by _ _).
  destruct (straight_loop _ _ _ _) as [found|] eqn:Hloop.
  - intros [= <-]. eapply straight_loop_head; [|exact Hloop].
    intros r Hr. unfold uniqueRanks in Hr. apply (proj1 (sort_by_elem_of _ _ _)) in Hr.
    unfold rankSet in Hr. by apply (proj1 (set_of_elem _ _)) in Hr.
  - destruct (forallb _ wheel) eqn:Hwheel; [|done]. intros [= <-].
    cbn [wheel forallb] in Hwheel. apply andb_true_iff in Hwheel as [Hace _].
    apply bool_decide_eq_true in Hace. unfold rankSet in Hace.
    apply (proj1 (set_of_elem _ _)) in Hace.
    destruct (find_rank_found sortedCards Rank.Ace Hace) as [c Hc].
    exists c. unfold wheel. cbn [omap]. by rewrite Hc.
Qed.

Lemma evaluateHand_returns (cards : list Card.t) :
  (5 ≤ length cards)%nat → ∃ ev, evaluateHand cards = Ok ev.
Proof.
  intros Hlen. unfold evaluateHand.
  rewrite bool_decide_eq_false_2 by lia.
  cbv zeta.
  destruct (checkStraight _) as [isStraight straightCards] eqn:Hstraight.
  destruct isStraight.
  - destruct (checkStraight_head _ _ Hstraight) as [top Htop]. rewrite Htop.
    cbn [deref]. rewrite !bind_Ok.
    repeat case_match; by eexists.
  - rewrite andb_false_r. repeat case_match; by eexists.
Qed.

(** X16. Hand evaluation throws on fewer than five cards and on nothing
    else; getHandEvaluation, which the table view calls for every seat, never
    throws: it returns null for a seat that does not exist and for a player
    with fewer than five cards between hand and board, and the evaluation of
    those cards otherwise. *)
Theorem evaluation_throws_only_below_five_cards (cards : list Card.t)
    (playerId : Z) (gs : GameState) :
  (is_Err (evaluateHand cards) ↔ (length cards < 5)%nat)
  ∧ ∃ r, getHandEvaluation playerId gs = Ok r
         ∧ (r = None
            ↔ at_index (players gs) playerId = None
              ∨ ∃ player, at_index (players gs) playerId = Some player
                  ∧ (length (Player.holeCards player ++ communityCards gs) < 5)%nat)
         ∧ ∀ ev, r = Some ev →
             ∃ player, at_index (players gs) playerId = Some player
               ∧ evaluateHand (Player.holeCards player ++ communityCards gs) = Ok ev.
Proof.
  split.
  - split.
    + intros [e He]. destruct (decide (length cards < 5)%nat) as [|Hge]; [done|].
      destruct (evaluateHand_returns cards ltac:(lia)) as [ev Hev]. congruence.
    + intros Hlt. unfold evaluateHand. rewrite bool_decide_eq_true_2 by done. by eexists.
  - unfold getHandEvaluation.
    destruct (at_index (players gs) playerId) as [player|] eqn:Hp.
    + cbv zeta. case_bool_decide as Hlen.
      * exists None. split; [done|]. split; [|done].
        split; [|done]. intros _. right. by exists player.
      * destruct (evaluateHand_returns (Player.holeCards player ++ communityCards gs)
                    ltac:(lia)) as [ev Hev].
        rewrite Hev. exists (Some ev). split; [done|]. split.
        -- split; [done|]. intros [?|(q & [= <-] & ?)]; done.
        -- intros ev' [= <-]. by exists player.
    + exists None. split; [done|]. split; [|done]. split; [by left|done].
Qed.

End EvaluationTheory.

(** ** The cards of a hand *)

Module CardsTheory.
Import Engine Spec EngineSamples ActionTheory HandSetupTheory.

Lemma deals_refl (gs : GameState) : deals_from_deck gs gs.
Proof. done. Qed.

Lemma deals_trans (gs1 gs2 gs3 : GameState) :
  deals_from_deck gs1 gs2 → deals_from_deck gs2 gs3 → deals_from_deck gs1 gs3.
Proof.
  intros (Hh1 & Hp1 & Hs1) (Hh2 & Hp2 & Hs2).
  split; [congruence|]. split; [by etrans|by etrans].
Qed.

Lemma advanceFrom_loop_deals (startIdx : Z) (gs gs' : GameState) (count : nat) :
  ∀ offset, advanceFrom_loop startIdx count offset gs = Ok gs' → deals_from_deck gs gs'.
Proof.
  induction count as [|count IH]; intros offset; simpl.
  - by intros [= <-].
  - destruct (player_at gs _) as [p|e]; simpl; [|done].
    case_match; [by intros [= <-]|apply IH].
Qed.

Lemma lastToAct_loop_deals (gs gs' : GameState) (count : nat) :
  ∀ offset, lastToAct_loop count offset gs = Ok gs' → deals_from_deck gs gs'.
Proof.
  induction count as [|count IH]; intros offset; simpl.
  - by intros [= <-].
  - destruct (player_at gs _) as [p|e]; simpl; [|done].
    case_match; [by intros [= <-]|apply IH].
Qed.

Lemma holeCards_fmap (f : Player.t → Player.t) (ps : list Player.t) :
  (∀ p, Player.holeCards (f p) = Player.holeCards p) →
  Player.holeCards <$> (f <$> ps) = Player.holeCards <$> ps.
Proof.
  intros Hf. rewrite <- list_fmap_compose. apply list_fmap_ext.
  intros i p _. simpl. apply Hf.
Qed.

Lemma resetRoundBets_deals (gs gs' : GameState) :
  resetRoundBets gs = Ok gs' → deals_from_deck gs gs'.
Proof.
  unfold resetRoundBets.
  destruct (lastToAct_loop _ _ _) as [gs2|e] eqn:Hloop; simpl; [|done].
  intros [= <-]. apply lastToAct_loop_deals in Hloop as (Hh & Hp & Hs).
  split; [|done]. cbn [players set_lastRaiseAmount]. rewrite Hh.
  cbn [players set_currentBet set_players]. by apply holeCards_fmap.
Qed.

Lemma deal_community_deals (n : nat) (gs : GameState) :
  deals_from_deck gs (deal_community n gs)
  ∧ communityCards (deal_community n gs) = communityCards gs ++ take n (drop 1 (deck gs))
  ∧ deck (deal_community n gs) = drop (1 + n) (deck gs).
Proof.
  unfold deal_community, drawMany, burn. cbn.
  split; [|split; [done|by rewrite drop_drop]].
  split; [done|]. split; [by apply prefix_app_r|].
  change (_ ++ _ `sublist_of` _)
    with ((communityCards gs ++ take n (drop 1 (deck gs))) ++ drop n (drop 1 (deck gs))
          `sublist_of` communityCards gs ++ deck gs).
  rewrite <- (assoc (++)), take_drop. apply sublist_app; [done|].
  apply sublist_drop.
Qed.

Lemma nextStage_deals (gs gs' : GameState) :
  nextStage gs = Ok gs' → deals_from_deck gs gs'.
Proof.
  unfold nextStage. destruct (stage gs).
  - intros Hr%resetRoundBets_deals. eapply deals_trans; [|exact Hr].
    apply (deal_community_deals 3 (addLog "--- Flop ---" (set_stage Flop gs))).
  - intros Hr%resetRoundBets_deals. eapply deals_trans; [|exact Hr].
    apply (deal_community_deals 1 (addLog "--- Turn ---" (set_stage Turn gs))).
  - intros Hr%resetRoundBets_deals. eapply deals_trans; [|exact Hr].
    apply (deal_community_deals 1 (addLog "--- River ---" (set_stage River gs))).
  - by intros [= <-].
  - by intros [= <-].
Qed.

Lemma runout_loop_deals (count : nat) : ∀ gs gs',
  runout_loop count gs = Ok gs' → deals_from_deck gs gs'.
Proof.
  induction count as [|count IH]; intros gs gs'; simpl.
  - by intros [= <-].
  - case_bool_decide; [by intros [= <-]|].
    destruct (nextStage gs) as [gs1|e] eqn:Hnext; simpl; [|done].
    intros Hrest%IH. eapply deals_trans; [|exact Hrest]. by apply nextStage_deals.
Qed.

Lemma postActionHandler_deals (originIdx : Z) (gs gs' : GameState) :
  postActionHandler originIdx gs = Ok gs' → deals_from_deck gs gs'.
Proof.
  unfold postActionHandler.
  set (gs0 := set_bettingActions _ gs).
  case_bool_decide; [by intros [= <-]|].
  destruct (advanceFrom originIdx gs0) as [gs1|e] eqn:Hstep1; simpl; [|done].
  apply advanceFrom_loop_deals in Hstep1.
  assert (H01 : deals_from_deck gs gs1) by done.
  case_match; [|by intros [= <-]].
  destruct (nextStage gs1) as [gs2|e] eqn:Hstep2; simpl; [|done].
  apply nextStage_deals in Hstep2.
  assert (H02 : deals_from_deck gs gs2) by (by eapply deals_trans).
  case_bool_decide; [|by intros [= <-]].
  case_match.
  - intros Hrun%runout_loop_deals. by eapply deals_trans.
  - intros Hadv%advanceFrom_loop_deals. by eapply deals_trans.
Qed.

Lemma update_player_deals (gs : GameState) (i : Z) (f : Player.t → Player.t) :
  (∀ p, Player.holeCards (f p) = Player.holeCards p) →
  deals_from_deck gs (update_player i f gs).
Proof. intros Hf. split; [by apply holeCards_update|done]. Qed.

Lemma update_player_const (gs : GameState) (i : Z) (f : Player.t → Player.t) (p : Player.t) :
  player_at gs i = Ok p → update_player i (λ _, f p) gs = update_player i f gs.
Proof.
  intros [_ Hp]%player_at_Ok. unfold update_player. f_equal.
  apply list_eq. intros k. rewrite !list_lookup_alter.
  case_decide as Hk; [|done]. subst k. by rewrite Hp.
Qed.

Lemma check_deals (gs gs' : GameState) (playerId : Z) :
  check playerId gs = Ok gs' → deals_from_deck gs gs'.
Proof.
  unfold check. destruct (player_at gs playerId) as [p|e]; simpl; [|done].
  case_match; [by intros [= <-]|]. case_match; [by intros [= <-]|].
  intros Hpost%postActionHandler_deals. exact Hpost.
Qed.

Lemma call_deals (gs gs' : GameState) (playerId : Z) :
  call playerId gs = Ok gs' → deals_from_deck gs gs'.
Proof.
  unfold call. destruct (player_at gs playerId) as [p|e]; simpl; [|done].
  case_match; [by intros [= <-]|]. case_match; [apply check_deals|].
  intros Hpost%postActionHandler_deals. eapply deals_trans; [|exact Hpost].
  apply (update_player_deals gs playerId), holeCards_put_in.
Qed.

Lemma bet_deals (gs gs' : GameState) (playerId amount : Z) (skipPost : bool) :
  bet playerId amount skipPost gs = Ok gs' → deals_from_deck gs gs'.
Proof.
  unfold bet. destruct (player_at gs playerId) as [p|e] eqn:Hp; simpl; [|done].
  case_match; [by intros [= <-]|]. case_match; [apply call_deals|].
  set (w := Z.min amount (Player.chips p)).
  assert (Hupd : deals_from_deck gs (update_player playerId (λ _, Player.put_in w p) gs)).
  { rewrite (update_player_const gs playerId (Player.put_in w) p Hp).
    apply update_player_deals, holeCards_put_in. }
  set (gs1 := set_pot _ _).
  set (gs2 := if _ <? _ then _ else gs1).
  assert (Hgs2 : deals_from_deck gs gs2).
  { subst gs2. by destruct (currentBet gs <? _). }
  destruct skipPost; simpl.
  - by intros [= <-].
  - intros Hpost%postActionHandler_deals. eapply deals_trans; [exact Hgs2|exact Hpost].
Qed.

Lemma fold_deals (gs gs' : GameState) (playerId : Z) :
  fold playerId gs = Ok gs' → deals_from_deck gs gs'.
Proof.
  unfold fold. destruct (player_at gs playerId) as [p|e]; simpl; [|done].
  case_match; [by intros [= <-]|].
  intros Hpost%postActionHandler_deals. eapply deals_trans; [|exact Hpost].
  by apply (update_player_deals gs playerId).
Qed.

Lemma allIn_deals (gs gs' : GameState) (playerId : Z) :
  allIn playerId gs = Ok gs' → deals_from_deck gs gs'.
Proof.
  unfold allIn. destruct (player_at gs playerId) as [p|e]; simpl; [|done].
  case_match; [by intros [= <-]|].
  destruct (bet _ _ _ _) as [gs1|e] eqn:Hbet; simpl; [|done].
  apply bet_deals in Hbet. intros [= <-].
  eapply deals_trans; [exact Hbet|]. by apply update_player_deals.
Qed.

Lemma deals_keep_distinct (gs gs' : GameState) :
  deals_from_deck gs gs' → NoDup (cards_in_play gs) → NoDup (cards_in_play gs').
Proof.
  intros (Hh & _ & Hs). unfold cards_in_play. rewrite Hh.
  intros Hnd. eapply sublist_NoDup; [exact Hnd|].
  by apply sublist_app.
Qed.

Lemma fold_returns (gs : GameState) (playerId : Z) :
  0 ≤ playerId < Z.of_nat (length (players gs)) → 0 ≤ dealerPosition gs →
  ∃ gs', fold playerId gs = Ok gs'.
Proof.
  intros Hi Hd. destruct (player_at_in_range gs playerId Hi) as [p Hp].
  unfold fold. rewrite Hp, bind_Ok. case_match; [by exists gs|].
  destruct (postActionHandler_keeps playerId
              (addLog (Player.name p +:+ " folds")
                 (update_player playerId (Player.set_isFolded true) gs))
              ltac:(lia) Hd) as (gs2 & -> & _).
  by exists gs2.
Qed.

(** X17. No action deals a card twice.  bet, call, check, fold and allIn
    return, for a valid seat, a state in which every player holds the hole
    cards held before, the board begins with the cards it showed before, and
    the board followed by the deck is, in the same order, what it was less
    the cards burnt.  So if the cards in the hands, on the board and in the
    deck were all different before the action, they are all different after
    it. *)
Theorem actions_deal_only_from_the_deck (gs : GameState) (playerId amount : Z)
    (skipPost : bool) :
  0 ≤ playerId < Z.of_nat (length (players gs)) →
  0 ≤ dealerPosition gs →
  Forall (λ r, ∃ gs', r = Ok gs' ∧ deals_from_deck gs gs'
                      ∧ (NoDup (cards_in_play gs) → NoDup (cards_in_play gs')))
         [bet playerId amount skipPost gs; call playerId gs; check playerId gs;
          fold playerId gs; allIn playerId gs].
Proof.
  intros Hi Hd.
  destruct (bet_conserves gs playerId amount skipPost Hi Hd) as (g1 & H1 & _).
  destruct (call_conserves gs playerId Hi Hd) as (g2 & H2 & _).
  destruct (check_conserves gs playerId Hi Hd) as (g3 & H3 & _).
  destruct (fold_returns gs playerId Hi Hd) as (g4 & H4).
  destruct (allIn_conserves gs playerId Hi Hd) as (g5 & H5 & _).
  repeat apply Forall_cons_2; try apply Forall_nil_2; cbv beta.
  - exists g1. split; [done|]. pose proof (bet_deals _ _ _ _ _ H1) as Hdeal.
    split; [done|by apply deals_keep_distinct].
  - exists g2. split; [done|]. pose proof (call_deals _ _ _ H2) as Hdeal.
    split; [done|by apply deals_keep_distinct].
  - exists g3. split; [done|]. pose proof (check_deals _ _ _ H3) as Hdeal.
    split; [done|by apply deals_keep_distinct].
  - exists g4. split; [done|]. pose proof (fold_deals _ _ _ H4) as Hdeal.
    split; [done|by apply deals_keep_distinct].
  - exists g5. split; [done|]. pose proof (allIn_deals _ _ _ H5) as Hdeal.
    split; [done|by apply deals_keep_distinct].
Qed.

Lemma actions_deal_only_from_the_deck_witness :
  Forall (λ r, ∃ gs', r = Ok gs' ∧ deals_from_deck heads_up_started gs'
                      ∧ (NoDup (cards_in_play heads_up_started)
                         → NoDup (cards_in_play gs')))
         [bet 1 40 false heads_up_started; call 1 heads_up_started;
          check 1 heads_up_started; fold 1 heads_up_started; allIn 1 heads_up_started].
Proof. apply actions_deal_only_from_the_deck; simpl; lia. Defined.

(** *** The board *)

Lemma lastToAct_loop_cards (gs gs' : GameState) (count : nat) :
  ∀ offset, lastToAct_loop count offset gs = Ok gs' →
    deck gs' = deck gs ∧ communityCards gs' = communityCards gs
    ∧ dealerPosition gs' = dealerPosition gs.
Proof.
  induction count as [|count IH]; intros offset; simpl.
  - by intros [= <-].
  - destruct (player_at gs _) as [p|e]; simpl; [|done].
    case_match; [by intros [= <-]|apply IH].
Qed.

Lemma deal_step (n : nat) (gs : GameState) :
  0 ≤ dealerPosition gs →
  ∃ gs', resetRoundBets (deal_community n gs) = Ok gs'
         ∧ stage gs' = stage gs
         ∧ dealerPosition gs' = dealerPosition gs
         ∧ communityCards gs' = communityCards gs ++ take n (drop 1 (deck gs))
         ∧ deck gs' = drop (1 + n) (deck gs).
Proof.
  intros Hd.
  destruct (deal_then_reset n gs Hd) as (gs' & Heq & _ & Hstage).
  exists gs'. split; [done|]. split; [done|].
  destruct (deal_community_deals n gs) as (_ & Hboard & Hdeck).
  unfold resetRoundBets in Heq.
  destruct (lastToAct_loop _ _ _) as [gs2|e] eqn:Hloop; simpl in Heq; [|done].
  injection Heq as <-.
  apply lastToAct_loop_cards in Hloop as (Hd2 & Hc2 & Hdl2).
  split; [exact Hdl2|]. split.
  - cbn [communityCards set_lastRaiseAmount]. rewrite Hc2.
    cbn [communityCards set_currentBet set_players]. exact Hboard.
  - cbn [deck set_lastRaiseAmount]. rewrite Hd2.
    cbn [deck set_currentBet set_players]. exact Hdeck.
Qed.

(** X18. The board is dealt with a card burnt before the flop, the turn and
    the river.  From the pre-flop state of a hand nextStage returns four
    times; the flop is the second, third and fourth card of the deck left
    after the hole cards, the turn the sixth and the river the eighth; the
    deck is left without its first eight cards; the fourth call only moves
    the stage to the showdown; and the run-out of a hand, which calls nextStage
    until the showdown, ends in that last state. *)
Theorem board_is_dealt_with_burns (gs : GameState) :
  0 ≤ dealerPosition gs → stage gs = PreFlop → communityCards gs = [] →
  ∃ flop turn river showdown,
    nextStage gs = Ok flop ∧ nextStage flop = Ok turn
    ∧ nextStage turn = Ok river ∧ nextStage river = Ok showdown
    ∧ runout gs = Ok showdown
    ∧ stage flop = Flop ∧ stage turn = Turn ∧ stage river = River
    ∧ stage showdown = Showdown
    ∧ communityCards flop = take 3 (drop 1 (deck gs))
    ∧ communityCards turn = take 3 (drop 1 (deck gs)) ++ take 1 (drop 5 (deck gs))
    ∧ communityCards river
      = take 3 (drop 1 (deck gs)) ++ take 1 (drop 5 (deck gs)) ++ take 1 (drop 7 (deck gs))
    ∧ communityCards showdown = communityCards river
    ∧ deck showdown = drop 8 (deck gs).
Proof.
  intros Hd Hstage Hboard.
  destruct (deal_step 3 (addLog "--- Flop ---" (set_stage Flop gs)) Hd)
    as (flop & Hflop & Hs1 & Hd1 & Hb1 & Hk1).
  cbn [stage dealerPosition communityCards deck addLog set_logs set_stage] in Hs1, Hd1, Hb1, Hk1.
  rewrite Hboard in Hb1. cbn [app] in Hb1.
  assert (Hnext1 : nextStage gs = Ok flop) by (unfold nextStage; by rewrite Hstage).
  destruct (deal_step 1 (addLog "--- Turn ---" (set_stage Turn flop)) ltac:(cbn; lia))
    as (turn & Hturn & Hs2 & Hd2 & Hb2 & Hk2).
  cbn [stage dealerPosition communityCards deck addLog set_logs set_stage] in Hs2, Hd2, Hb2, Hk2.
  rewrite Hb1, Hk1, drop_drop in Hb2. rewrite Hk1, drop_drop in Hk2.
  assert (Hnext2 : nextStage flop = Ok turn) by (unfold nextStage; by rewrite Hs1).
  destruct (deal_step 1 (addLog "--- River ---" (set_stage River turn))
              ltac:(cbn; lia))
    as (river & Hriver & Hs3 & Hd3 & Hb3 & Hk3).
  cbn [stage dealerPosition communityCards deck addLog set_logs set_stage] in Hs3, Hd3, Hb3, Hk3.
  rewrite Hb2, Hk2, drop_drop in Hb3. rewrite Hk2, drop_drop in Hk3.
  assert (Hnext3 : nextStage turn = Ok river) by (unfold nextStage; by rewrite Hs2).
  assert (Hnext4 : nextStage river = Ok (set_stage Showdown river))
    by (unfold nextStage; by rewrite Hs3).
  exists flop, turn, river, (set_stage Showdown river).
  split; [done|]. split; [done|]. split; [done|]. split; [done|].
  split.
  { unfold runout. rewrite Hstage. cbn [stages_left runout_loop].
    rewrite bool_decide_eq_false_2 by (by rewrite Hstage).
    rewrite Hnext1, bind_Ok, bool_decide_eq_false_2 by (by rewrite Hs1).
    rewrite Hnext2, bind_Ok, bool_decide_eq_false_2 by (by rewrite Hs2).
    rewrite Hnext3, bind_Ok, bool_decide_eq_false_2 by (by rewrite Hs3).
    by rewrite Hnext4. }
  split; [done|]. split; [done|]. split; [done|]. split; [done|].
  split; [exact Hb1|]. split; [exact Hb2|].
  split; [by rewrite Hb3, <- (assoc (++))|]. split; [done|exact Hk3].
Qed.

Lemma board_is_dealt_with_burns_witness :
  ∃ flop turn river showdown,
    nextStage heads_up_started = Ok flop ∧ nextStage flop = Ok turn
    ∧ nextStage turn = Ok river ∧ nextStage river = Ok showdown
    ∧ runout heads_up_started = Ok showdown
    ∧ stage flop = Flop ∧ stage turn = Turn ∧ stage river = River
    ∧ stage showdown = Showdown
    ∧ communityCards flop = take 3 (drop 1 (deck heads_up_started))
    ∧ communityCards turn
      = take 3 (drop 1 (deck heads_up_started)) ++ take 1 (drop 5 (deck heads_up_started))
    ∧ communityCards river
      = take 3 (drop 1 (deck heads_up_started)) ++ take 1 (drop 5 (deck heads_up_started))
        ++ take 1 (drop 7 (deck heads_up_started))
    ∧ communityCards showdown = communityCards river
    ∧ deck showdown = drop 8 (deck heads_up_started).
Proof. apply board_is_dealt_with_burns; [simpl; lia|reflexivity|reflexivity]. Defined.


(** *** The deal *)

Lemma take_one_by_one {A} (d : list A) (n : nat) :
  ∀ i, concat ((λ k, take 1 (drop k d)) <$> seq i n) = take n (drop i d).
Proof.
  induction n as [|n IH]; intros i; [done|].
  cbn [seq fmap list_fmap concat]. rewrite IH.
  replace (S i) with (i + 1)%nat by lia. rewrite <- drop_drop.
  destruct (drop i d) as [|x t]; simpl; [by rewrite take_nil|done].
Qed.

Lemma concat_pairs {A B} (f g : B → list A) (l : list B) :
  concat ((λ k, f k ++ g k) <$> l) ≡ₚ concat (f <$> l) ++ concat (g <$> l).
Proof.
  induction l as [|x l IH]; [done|].
  cbn [fmap list_fmap concat]. rewrite IH.
  rewrite <- !(assoc (++)). f_equiv.
  rewrite !(assoc (++)). f_equiv. apply Permutation_app_comm.
Qed.

Lemma post_blinds_board (gs gs' : GameState) :
  post_blinds gs = Ok gs' →
  communityCards gs' = communityCards gs ∧ stage gs' = stage gs.
Proof.
  unfold post_blinds, postBlind.
  destruct (player_at gs _) as [p1|e]; simpl; [|done].
  destruct (player_at _ _) as [p2|e]; simpl; [|done].
  destruct (player_at _ _) as [p3|e]; simpl; [|done].
  destruct (nextIdx _ _) as [r|e]; simpl; [|done].
  by intros [= <-].
Qed.

(** X19. Dealing a hand from a deck given by the caller hands out that deck
    and nothing else.  When two players or more are seated,
    startNewHandInternal returns a hand with an empty board in which the
    cards in the players' hands followed by the deck are a rearrangement of
    the caller's deck; so when the caller's deck has no card twice, no card
    is held twice at the table. *)
Theorem dealt_hand_is_the_callers_deck (externalDeck : list Card.t) (gs : GameState) :
  0 ≤ dealerPosition gs →
  (2 ≤ length (filter (λ p, seated p = true) (players gs)))%nat →
  (length (players gs) + length (players gs) ≤ length externalDeck)%nat →
  ∃ gs', startNewHandInternal (External externalDeck) gs = Ok gs'
         ∧ stage gs' = PreFlop
         ∧ communityCards gs' = []
         ∧ Forall (λ p, length (Player.holeCards p) = 2%nat) (players gs')
         ∧ cards_in_play gs' ≡ₚ externalDeck
         ∧ (NoDup externalDeck → NoDup (cards_in_play gs')).
Proof.
  intros Hd Hc Hlong.
  destruct (hand_dealt_from_deck externalDeck gs Hd Hc) as (gs' & Heq & Hdeck & Hlen & Hhole).
  cbv zeta in Hdeck, Hlen, Hhole. set (n := length (players gs)) in *.
  assert (Hboard : communityCards gs' = [] ∧ stage gs' = PreFlop).
  { pose proof Heq as Hrun. unfold startNewHandInternal in Hrun.
    rewrite bool_decide_eq_false_2 in Hrun by lia.
    destruct (assign_seats _ gs) as [gs1|e]; [rewrite bind_Ok in Hrun|discriminate Hrun].
    apply post_blinds_board in Hrun as [-> ->]. rewrite reset_and_deal_eq.
    split; reflexivity. }
  destruct Hboard as [Hboard Hstage].
  assert (Hhands : Player.holeCards <$> players gs'
                   = (λ k, take 1 (drop k externalDeck) ++ take 1 (drop (n + k) externalDeck))
                     <$> seq 0 n).
  { apply list_eq. intros k. rewrite !list_lookup_fmap.
    destruct (players gs' !! k) as [p|] eqn:Hp; simpl.
    - rewrite (Hhole k p Hp).
      apply lookup_lt_Some in Hp. rewrite Hlen in Hp.
      by rewrite lookup_seq_lt.
    - apply lookup_ge_None in Hp. rewrite Hlen in Hp.
      by rewrite lookup_seq_ge. }
  assert (Hperm : cards_in_play gs' ≡ₚ externalDeck).
  { unfold cards_in_play. rewrite Hboard, Hdeck, Hhands. cbn [app].
    rewrite (concat_pairs (λ k, take 1 (drop k externalDeck))
               (λ k, take 1 (drop (n + k) externalDeck))).
    rewrite take_one_by_one.
    assert (Hsnd : (λ k, take 1 (drop (n + k) externalDeck)) <$> seq 0 n
                   = (λ k, take 1 (drop k externalDeck)) <$> seq n n).
    { replace (seq n n) with ((λ k, n + k)%nat <$> seq 0 n) by (by rewrite fmap_add_seq, Nat.add_0_r).
      by rewrite <- list_fmap_compose. }
    rewrite Hsnd, take_one_by_one. cbn [drop].
    rewrite <- (drop_drop externalDeck n n), <- (assoc (++)), take_drop.
    by rewrite take_drop. }
  exists gs'. split; [done|]. split; [done|]. split; [done|]. split.
  { apply Forall_forall. intros p [k Hp]%list_elem_of_lookup.
    rewrite (Hhole k p Hp). pose proof (lookup_lt_Some _ _ _ Hp) as Hk.
    rewrite Hlen in Hk. rewrite length_app, !length_take, !length_drop. lia. }
  split; [done|]. intros Hnd. by rewrite Hperm.
Qed.

Lemma dealt_hand_is_the_callers_deck_witness :
  ∃ gs', startNewHandInternal (External (decode_card <$> ordered_bytes)) heads_up_table = Ok gs'
         ∧ stage gs' = PreFlop
         ∧ communityCards gs' = []
         ∧ Forall (λ p, length (Player.holeCards p) = 2%nat) (players gs')
         ∧ cards_in_play gs' ≡ₚ decode_card <$> ordered_bytes
         ∧ (NoDup (decode_card <$> ordered_bytes) → NoDup (cards_in_play gs')).
Proof.
  apply dealt_hand_is_the_callers_deck; [simpl; lia|vm_compute; lia|vm_compute; lia].
Defined.

End CardsTheory.
